(** * Disconnection-aware delayed API

    A shallow embedding of the mock route [src/app/api/mock/route.ts] (four
    response strategies: signal, stream, heartbeat, chunked) and of the
    client [src/app/page.tsx] (request orchestrator, SSE reader, NDJSON
    reader), with the properties of the specification stated over it. *)

From Stdlib Require Import List ZArith NArith QArith Qround Qreduction Qcanon.
From Stdlib Require Import Bool String Ascii Lia Lqa.
From Stdlib.Strings Require Import Byte.
From Stdlib Require Import SpecFloat Sorted Qminmax.
Import ListNotations.

Set Implicit Arguments.

(** ** JavaScript strings

    A JavaScript string is a sequence of UTF-16 code units. *)

Definition JSString := list N.

Definition js (s : string) : JSString :=
  map N_of_ascii (list_ascii_of_string s).

(** [jsq] reads an apostrophe of the literal as a double quote, so that JSON
    text can be written down. *)
Definition jsq (s : string) : JSString :=
  map (fun c => if N.eqb c 39 then 34%N else c) (js s).

Definition LF : N := 10%N.

Fixpoint JSString_eqb (a b : JSString) : bool :=
  match a, b with
  | [], [] => true
  | x :: a', y :: b' => N.eqb x y && JSString_eqb a' b'
  | _, _ => false
  end.

(** ** JavaScript numbers

    Numbers are kept as exact rationals in lowest terms, plus [NaN]; the
    rounding of binary64 arithmetic and the infinities are not modelled
    (integers up to 2^53 and their sums are exact in binary64; a quotient is
    not, so a progress value that falls on a tie may differ by one). Every
    operation renormalises its result with [Qred], so that equal numbers are
    equal terms. Module [Binary64] below runs the tick loop in binary64 for
    comparison.

    The two models part where binary64 rounds: above [MAX_SAFE_INTEGER] a
    duration is no longer the integer that was written (a long enough digit
    string reads as [Infinity], which no elapsed time reaches), and the
    quotient [elapsed / duration] is rounded before it is multiplied by
    100. The properties that speak of a run reaching its duration, or of the
    values it emits, therefore take the duration up to [MAX_SAFE_INTEGER]
    and say of a progress value only what holds of both roundings. *)

Inductive number : Type :=
| NaN
| Num (q : Q).

Definition num_of_Z (z : Z) : number := Num (inject_Z z).

Definition js_add (a b : number) : number :=
  match a, b with
  | Num x, Num y => Num (Qred (x + y))
  | _, _ => NaN
  end.

Definition js_sub (a b : number) : number :=
  match a, b with
  | Num x, Num y => Num (Qred (x - y))
  | _, _ => NaN
  end.

Definition js_mul (a b : number) : number :=
  match a, b with
  | Num x, Num y => Num (Qred (x * y))
  | _, _ => NaN
  end.

(** [x / 0] is an infinity or [NaN] in JavaScript; the handlers divide only
    by [5] and, inside a loop guarded by [elapsed < duration] with
    [0 <= elapsed], by a positive duration. *)
Definition js_div (a b : number) : number :=
  match a, b with
  | Num x, Num y => if Qeq_bool y 0 then NaN else Num (Qred (x / y))
  | _, _ => NaN
  end.

(** [a < b]: false as soon as one side is [NaN]. *)
Definition js_lt (a b : number) : bool :=
  match a, b with
  | Num x, Num y => match Qcompare x y with Lt => true | _ => false end
  | _, _ => false
  end.

(** [Math.min(a, b)] *)
Definition Math_min (a b : number) : number :=
  match a, b with
  | Num x, Num y => if Qle_bool x y then Num x else Num y
  | _, _ => NaN
  end.

(** [Math.round(x)]: the nearest integer, ties towards plus infinity. *)
Definition Math_round (a : number) : number :=
  match a with
  | Num x => Num (inject_Z (Qfloor (x + (1 # 2))))
  | NaN => NaN
  end.

(** [Number.MAX_SAFE_INTEGER]: up to it binary64 holds every integer, and
    the sums, differences and comparisons of such integers are exact. *)
Definition MAX_SAFE_INTEGER : Z := 2 ^ 53 - 1.

(** ** [parseInt(string)] with no radix argument *)

Definition isStrWhiteSpaceChar (c : N) : bool :=
  ((9 <=? c) && (c <=? 13) || (c =? 32) || (c =? 160) || (c =? 5760)
   || (8192 <=? c) && (c <=? 8202) || (c =? 8232) || (c =? 8233)
   || (c =? 8239) || (c =? 8287) || (c =? 12288) || (c =? 65279))%N.

Fixpoint skipWhiteSpace (s : JSString) : JSString :=
  match s with
  | c :: s' => if isStrWhiteSpaceChar c then skipWhiteSpace s' else s
  | [] => []
  end.

Definition digitValue (c : N) : option Z :=
  if ((48 <=? c) && (c <=? 57))%N then Some (Z.of_N c - 48)%Z
  else if ((97 <=? c) && (c <=? 122))%N then Some (Z.of_N c - 87)%Z
  else if ((65 <=? c) && (c <=? 90))%N then Some (Z.of_N c - 55)%Z
  else None.

(** The longest prefix of radix-[R] digits, as an integer; [acc] is [None]
    until a digit has been read. *)
Fixpoint parseDigits (R : Z) (s : JSString) (acc : option Z) : option Z :=
  match s with
  | c :: s' =>
      match digitValue c with
      | Some v =>
          if (v <? R)%Z
          then parseDigits R s'
                 (Some (match acc with Some a => a * R + v | None => v end)%Z)
          else acc
      | None => acc
      end
  | [] => acc
  end.

Definition parseInt (input : JSString) : number :=
  let s := skipWhiteSpace input in
  let '(sign, s) :=
    match s with
    | c :: r => if (c =? 45)%N then ((-1)%Z, r)
                else if (c =? 43)%N then (1%Z, r) else (1%Z, s)
    | [] => (1%Z, s)
    end in
  let '(R, s) :=
    match s with
    | z :: x :: r =>
        if ((z =? 48) && ((x =? 120) || (x =? 88)))%N then (16%Z, r)
        else (10%Z, s)
    | _ => (10%Z, s)
    end in
  match parseDigits R s None with
  | None => NaN
  | Some v => num_of_Z (sign * v)
  end.

(** [Number::toString] for the integers the route interpolates, which are
    written in plain decimal below 10^21; the rendering of any other number
    is not modelled ([None]). *)
Fixpoint digits_of_pos (fuel : nat) (p : Z) (acc : JSString) : JSString :=
  match fuel with
  | O => acc
  | S f =>
      let acc' := (Z.to_N (p mod 10) + 48)%N :: acc in
      if (p / 10 =? 0)%Z then acc' else digits_of_pos f (p / 10)%Z acc'
  end.

Definition Z_toString (z : Z) : JSString :=
  let a := Z.abs z in
  let ds := digits_of_pos (S (Z.to_nat (Z.log2 a))) a [] in
  if (z <? 0)%Z then 45%N :: ds else ds.

Definition Number_toString (x : number) : option JSString :=
  match x with
  | NaN => Some (js "NaN")
  | Num q => if Pos.eqb (Qden (Qred q)) 1
                && (Z.abs (Qnum (Qred q)) <? 10 ^ 21)%Z
             then Some (Z_toString (Qnum (Qred q))) else None
  end.


(** ** JSON values *)

#[warnings="-register-all"]
Inductive JSValue : Type :=
| JNull
| JBool (b : bool)
| JNumber (x : number)
| JString (s : JSString)
| JArray (items : list JSValue)
| JObject (props : list (JSString * JSValue)).

(** * The mock route: [src/app/api/mock/route.ts] *)

Inductive ApiMode : Type := signal | stream | heartbeat | chunked.

(** One chunk handed to [controller.enqueue] (or, for [SignalBody], the
    JSON body of the signal response), with the fields the route puts in
    it. *)
Inductive Unit : Type :=
| SignalBody (duration : number) (timestamp : JSString)
| StreamStart (timestamp : JSString)
| StreamProgress (progress elapsed duration : number) (timestamp : JSString)
| StreamComplete (duration : number) (timestamp : JSString)
| SSEStart (timestamp : JSString)
| SSEHeartbeat (timestamp : JSString)
| SSEComplete (duration : number) (timestamp : JSString)
| ChunkedStarting
| ChunkedProgress (progress elapsed : number)
| ChunkedComplete (duration : number) (timestamp : JSString).

Definition is_start (u : Unit) : bool :=
  match u with
  | StreamStart _ | SSEStart _ | ChunkedStarting => true
  | _ => false
  end.

Definition is_complete (u : Unit) : bool :=
  match u with
  | SignalBody _ _ | StreamComplete _ _ | SSEComplete _ _
  | ChunkedComplete _ _ => true
  | _ => false
  end.

Definition progress_of (u : Unit) : option number :=
  match u with
  | StreamProgress p _ _ _ | ChunkedProgress p _ => Some p
  | _ => None
  end.

Definition elapsed_of (u : Unit) : option number :=
  match u with
  | StreamProgress _ e _ _ | ChunkedProgress _ e => Some e
  | _ => None
  end.

Definition is_progress (u : Unit) : bool :=
  match progress_of u with Some _ => true | None => false end.

(** How an awaited [setTimeoutPromise(ms, undefined, { signal })] settles:
    it resolves, or rejects with an [AbortError] when the request's signal
    fires first; [OtherError] stands for any other rejection, which the
    handlers also provide for. *)
Inductive DelayOutcome : Type := Elapsed | AbortError | OtherError.

(** What the handler does not decide: how the [k]-th awaited delay settles,
    whether the [controller.enqueue] that follows it throws (the stream is no
    longer readable), the [k]-th reading of [new Date().toISOString()], and,
    in heartbeat mode, the order in which the timers fire. *)
Inductive HBEvent : Type :=
| Tick          (* the interval callback fires *)
| PeerCancel    (* the consumer cancels the stream: the client is gone *)
| DelaySettles (o : DelayOutcome).

Record Env : Type := {
  delay : nat -> DelayOutcome;
  enqueue_throws : nat -> bool;
  now : nat -> JSString;
  schedule : list HBEvent
}.

(** How the [start] callback left the stream. *)
Inductive StreamEnd : Type :=
| Completed            (* completion unit enqueued, then [controller.close()] *)
| ClosedOnAbort        (* [AbortError] caught, [controller.close()] *)
| ClosedOnWriteError   (* [enqueue] threw, [controller.close()], [return] *)
| ErroredEnd           (* [controller.error(error)] *)
| Pending.             (* the main delay has not settled yet *)

Record StreamRun : Type := {
  emitted : list Unit;
  ending : StreamEnd
}.

Definition emit (u : Unit) (r : StreamRun) : StreamRun :=
  {| emitted := u :: emitted r; ending := ending r |}.

(** *** The tick loop of [handleStreamMode] and [handleChunkedMode]

    [while (elapsed < duration) { waitTime = Math.min(interval, duration -
    elapsed); await delay; elapsed += waitTime; try { progress = ...;
    enqueue } catch { close; return } }], then the completion unit and
    [controller.close()]. [k] counts the iterations done. The loop has no
    bound in the source: [None] is the model running out of [fuel]. *)
Section TickLoop.
Variable env : Env.
Variable duration interval : number.
Variable progressUnit : nat -> number -> number -> Unit.
Variable completeUnit : nat -> Unit.

Fixpoint tickLoop (fuel k : nat) (elapsed : number) : option StreamRun :=
  match fuel with
  | O => None
  | S fuel' =>
      if js_lt elapsed duration then
        let waitTime := Math_min interval (js_sub duration elapsed) in
        match delay env k with
        | AbortError => Some {| emitted := []; ending := ClosedOnAbort |}
        | OtherError => Some {| emitted := []; ending := ErroredEnd |}
        | Elapsed =>
            let elapsed := js_add elapsed waitTime in
            let progress :=
              Math_round (js_mul (js_div elapsed duration) (num_of_Z 100)) in
            if enqueue_throws env k
            then Some {| emitted := []; ending := ClosedOnWriteError |}
            else option_map (emit (progressUnit k progress elapsed))
                   (tickLoop fuel' (S k) elapsed)
        end
      else Some {| emitted := [completeUnit k]; ending := Completed |}
  end.
End TickLoop.

(** The sequence of [waitTime]s the loop asks for when no delay is
    interrupted. *)
Fixpoint waitTimes (duration interval : number) (fuel : nat) (elapsed : number)
  : list number :=
  match fuel with
  | O => []
  | S fuel' =>
      if js_lt elapsed duration then
        let waitTime := Math_min interval (js_sub duration elapsed) in
        waitTime :: waitTimes duration interval fuel' (js_add elapsed waitTime)
      else []
  end.

(** *** The tick loop in binary64

    The arithmetic of the loop with the operations of IEEE 754 binary64
    ([prec = 53], [emax = 1024]), to compare with the exact one: the list of
    (progress, elapsed) pairs of an uninterrupted run. *)
Module Binary64.

Definition prec : Z := 53.
Definition emax : Z := 1024.

Definition of_Z (z : Z) : spec_float := binary_normalize prec emax z 0 false.
Definition add : spec_float -> spec_float -> spec_float := SFadd prec emax.
Definition sub : spec_float -> spec_float -> spec_float := SFsub prec emax.
Definition mul : spec_float -> spec_float -> spec_float := SFmul prec emax.
Definition div : spec_float -> spec_float -> spec_float := SFdiv prec emax.

Definition min (a b : spec_float) : spec_float :=
  match a, b with
  | S754_nan, _ | _, S754_nan => S754_nan
  | _, _ => if SFltb b a then b else a
  end.

(** The integer nearest to [x], ties towards plus infinity, computed on the
    exact value [m * 2^e]. *)
Definition round (x : spec_float) : spec_float :=
  match x with
  | S754_finite s m e =>
      let v := if s then Zneg m else Zpos m in
      if (0 <=? e)%Z then x
      else of_Z (Z.shiftr (2 * v + 2 ^ (- e)) (- e + 1))
  | _ => x
  end.

Fixpoint ticks (fuel : nat) (interval duration elapsed : spec_float)
  : option (list (spec_float * spec_float)) :=
  match fuel with
  | O => None
  | S fuel' =>
      if SFltb elapsed duration then
        let waitTime := min interval (sub duration elapsed) in
        let elapsed := add elapsed waitTime in
        let progress := round (mul (div elapsed duration) (of_Z 100)) in
        option_map (cons (progress, elapsed))
          (ticks fuel' interval duration elapsed)
      else Some []
  end.

Definition intervalMs (duration : spec_float) : spec_float :=
  min (of_Z 1000) (div duration (of_Z 5)).

Definition checkInterval : spec_float := of_Z 500.

(** The run for duration [z] ends within [fuel] turns with progress 100 and
    elapsed [z], and no elapsed time exceeds [z]. *)
Definition ends_at_100 (interval : spec_float) (fuel : nat) (z : Z) : bool :=
  match ticks fuel interval (of_Z z) (of_Z 0) with
  | Some l =>
      match last (map Some l) None with
      | Some (p, e) => SFeqb p (of_Z 100) && SFeqb e (of_Z z)
      | None => false
      end
      && forallb (fun pe => SFleb (snd pe) (of_Z z)) l
  | None => false
  end.

(** The progress values of the exact loop are those of the binary64 loop. *)
Definition same_progress (exact : list number) (l : list (spec_float * spec_float))
  : bool :=
  Nat.eqb (List.length exact) (List.length l)
  && forallb (fun ab => match fst ab with
                        | Num q => SFeqb (of_Z (Qnum q)) (fst (snd ab))
                                   && Pos.eqb (Qden q) 1
                        | NaN => false
                        end) (combine exact l).

End Binary64.

(** *** [handleStreamMode] *)

Definition handleStreamMode_run (fuel : nat) (env : Env) (duration : number)
  : option StreamRun :=
  let intervalMs := Math_min (num_of_Z 1000) (js_div duration (num_of_Z 5)) in
  option_map (emit (StreamStart (now env 0)))
    (tickLoop env duration intervalMs
       (fun k progress elapsed =>
          StreamProgress progress elapsed duration (now env (S k)))
       (fun k => StreamComplete duration (now env (S k)))
       fuel 0 (num_of_Z 0)).

(** *** [handleChunkedMode] *)

Definition handleChunkedMode_run (fuel : nat) (env : Env) (duration : number)
  : option StreamRun :=
  let checkInterval := num_of_Z 500 in
  option_map (emit ChunkedStarting)
    (tickLoop env duration checkInterval
       (fun _ progress elapsed => ChunkedProgress progress elapsed)
       (fun _ => ChunkedComplete duration (now env 0))
       fuel 0 (num_of_Z 0)).

(** *** [handleHeartbeatMode]

    Two timers share the controller: the interval and the main delay. Each
    callback runs to its end before the next one starts, so the start
    callback is a machine stepping on the events of [HBEvent]. *)

Inductive StreamState : Type := Readable | StreamClosed | StreamErrored.

(** Calls the handler makes, in order. *)
Inductive HBAction : Type :=
| ActSetInterval
| ActClearInterval
| ActEnqueue (u : Unit)
| ActClose
| ActError.

Record HBState : Type := {
  hb_stream : StreamState;      (* the controller's stream *)
  hb_queue : list Unit;         (* chunks accepted by [enqueue], oldest first *)
  heartbeatInterval : bool;     (* the variable holds a timer (is not null) *)
  timer_registered : bool;      (* the runtime still fires the interval *)
  delay_pending : bool;         (* the main delay has not settled *)
  hb_end : StreamEnd;
  uncaught : bool;              (* an exception left a callback or the catch *)
  hb_clock : nat;               (* readings of the clock so far *)
  hb_trace : list HBAction      (* calls made so far, oldest first *)
}.

(** [controller.enqueue(u)]: throws unless the stream is readable. *)
Definition hb_enqueue (u : Unit) (s : HBState) : option HBState :=
  match hb_stream s with
  | Readable =>
      Some {| hb_stream := Readable; hb_queue := hb_queue s ++ [u];
              heartbeatInterval := heartbeatInterval s;
              timer_registered := timer_registered s;
              delay_pending := delay_pending s; hb_end := hb_end s;
              uncaught := uncaught s; hb_clock := hb_clock s;
              hb_trace := hb_trace s ++ [ActEnqueue u] |}
  | _ => None
  end.

(** [controller.close()]: throws unless the stream is readable; an
    exception here is in no [try] of the source. *)
Definition hb_close (s : HBState) : HBState :=
  {| hb_stream := match hb_stream s with
                  | Readable => StreamClosed
                  | st => st
                  end;
     hb_queue := hb_queue s; heartbeatInterval := heartbeatInterval s;
     timer_registered := timer_registered s;
     delay_pending := delay_pending s; hb_end := hb_end s;
     uncaught := match hb_stream s with
                 | Readable => uncaught s
                 | _ => true
                 end;
     hb_clock := hb_clock s; hb_trace := hb_trace s ++ [ActClose] |}.

(** [controller.error(e)]: does nothing unless the stream is readable. *)
Definition hb_error (s : HBState) : HBState :=
  {| hb_stream := match hb_stream s with
                  | Readable => StreamErrored
                  | st => st
                  end;
     hb_queue := hb_queue s; heartbeatInterval := heartbeatInterval s;
     timer_registered := timer_registered s;
     delay_pending := delay_pending s; hb_end := hb_end s;
     uncaught := uncaught s; hb_clock := hb_clock s;
     hb_trace := hb_trace s ++ [ActError] |}.

(** [if (heartbeatInterval) { clearInterval(heartbeatInterval);
    heartbeatInterval = null; }] *)
Definition hb_clear (s : HBState) : HBState :=
  if heartbeatInterval s then
    {| hb_stream := hb_stream s; hb_queue := hb_queue s;
       heartbeatInterval := false; timer_registered := false;
       delay_pending := delay_pending s; hb_end := hb_end s;
       uncaught := uncaught s; hb_clock := hb_clock s;
       hb_trace := hb_trace s ++ [ActClearInterval] |}
  else s.

Definition hb_tick_clock (s : HBState) : HBState :=
  {| hb_stream := hb_stream s; hb_queue := hb_queue s;
     heartbeatInterval := heartbeatInterval s;
     timer_registered := timer_registered s;
     delay_pending := delay_pending s; hb_end := hb_end s;
     uncaught := uncaught s; hb_clock := S (hb_clock s);
     hb_trace := hb_trace s |}.

Definition hb_settle (e : StreamEnd) (s : HBState) : HBState :=
  {| hb_stream := hb_stream s; hb_queue := hb_queue s;
     heartbeatInterval := heartbeatInterval s;
     timer_registered := timer_registered s;
     delay_pending := false; hb_end := e;
     uncaught := uncaught s; hb_clock := hb_clock s;
     hb_trace := hb_trace s |}.

(** The consumer cancels the stream. *)
Definition hb_peer_cancel (s : HBState) : HBState :=
  {| hb_stream := match hb_stream s with
                  | Readable => StreamClosed
                  | st => st
                  end;
     hb_queue := hb_queue s; heartbeatInterval := heartbeatInterval s;
     timer_registered := timer_registered s;
     delay_pending := delay_pending s; hb_end := hb_end s;
     uncaught := uncaught s; hb_clock := hb_clock s;
     hb_trace := hb_trace s |}.

(** The synchronous part of [start]: the start event is enqueued and the
    interval is set; the main delay is then awaited. *)
Definition hb_init (env : Env) : HBState :=
  {| hb_stream := Readable; hb_queue := [SSEStart (now env 0)];
     heartbeatInterval := true; timer_registered := true;
     delay_pending := true; hb_end := Pending; uncaught := false;
     hb_clock := 1;
     hb_trace := [ActEnqueue (SSEStart (now env 0)); ActSetInterval] |}.

(** The [catch] block of [start], for an error that is an [AbortError]
    ([abort = true]) or not. *)
Definition hb_catch (abort : bool) (s : HBState) : HBState :=
  let s := hb_clear s in
  if abort then hb_close (hb_settle ClosedOnAbort s)
  else hb_close (hb_error (hb_settle ErroredEnd s)).

Definition hb_step (env : Env) (duration : number) (s : HBState) (e : HBEvent)
  : HBState :=
  match e with
  | Tick =>
      if timer_registered s then
        let u := SSEHeartbeat (now env (hb_clock s)) in
        let s := hb_tick_clock s in
        match hb_enqueue u s with
        | Some s' => s'
        | None => hb_close (hb_clear s)
        end
      else s
  | PeerCancel => hb_peer_cancel s
  | DelaySettles o =>
      if delay_pending s then
        match o with
        | Elapsed =>
            let s := hb_clear s in
            let u := SSEComplete duration (now env (hb_clock s)) in
            let s := hb_tick_clock s in
            match hb_enqueue u s with
            | Some s' => hb_close (hb_settle Completed s')
            | None => hb_catch false s
            end
        | AbortError => hb_catch true s
        | OtherError => hb_catch false s
        end
      else s
  end.

Definition hb_run (env : Env) (duration : number) (evs : list HBEvent)
  : HBState :=
  fold_left (hb_step env duration) evs (hb_init env).

Definition handleHeartbeatMode_run (env : Env) (duration : number) : StreamRun :=
  let s := hb_run env duration (schedule env) in
  {| emitted := hb_queue s; ending := hb_end s |}.

(** Whether the interval is set after the calls [tr], and whether every
    [controller.close()] among them is made with the interval cleared:
    [scan timer tr] is the state of the interval after [tr], or [None] if a
    close found it set. *)
Definition timer_after (tr : list HBAction) : bool :=
  fold_left (fun b a => match a with
                        | ActSetInterval => true
                        | ActClearInterval => false
                        | _ => b
                        end) tr false.

Fixpoint scan (timer : bool) (tr : list HBAction) : option bool :=
  match tr with
  | [] => Some timer
  | ActSetInterval :: rest => scan true rest
  | ActClearInterval :: rest => scan false rest
  | ActClose :: rest => if timer then None else scan false rest
  | _ :: rest => scan timer rest
  end.

(** *** Responses, [handleSignalMode] and [GET] *)

Inductive Body : Type :=
| BodyText (text : JSString)        (* [new Response("...")] *)
| BodyJSON (u : Unit)               (* [new Response(JSON.stringify({...}))] *)
| BodyStream (run : StreamRun).     (* [new Response(stream)] *)

Record Response : Type := {
  status : Z;
  contentType : JSString;
  body : Body
}.

(** A string body with no headers given is served as plain text. *)
Definition textResponse (text : string) (st : Z) : Response :=
  {| status := st; contentType := js "text/plain;charset=UTF-8";
     body := BodyText (js text) |}.

Definition streamResponse (ctype : string) (run : StreamRun) : Response :=
  {| status := 200; contentType := js ctype; body := BodyStream run |}.

(** A function body either returns or throws. *)
Inductive Completion (A : Type) : Type :=
| Return (a : A)
| Throw.
Arguments Throw {A}.

Definition handleSignalMode (env : Env) (duration : number)
  : Completion Response :=
  match delay env 0 with
  | Elapsed =>
      Return {| status := 200; contentType := js "application/json";
                body := BodyJSON (SignalBody duration (now env 0)) |}
  | AbortError => Return (textResponse "Request was aborted" 499)
  | OtherError => Throw
  end.

Definition handleStreamMode (fuel : nat) (env : Env) (duration : number)
  : option Response :=
  option_map (streamResponse "application/x-ndjson")
    (handleStreamMode_run fuel env duration).

Definition handleHeartbeatMode (env : Env) (duration : number) : Response :=
  streamResponse "text/event-stream" (handleHeartbeatMode_run env duration).

Definition handleChunkedMode (fuel : nat) (env : Env) (duration : number)
  : option Response :=
  option_map (streamResponse "application/x-ndjson")
    (handleChunkedMode_run fuel env duration).

(** [url.searchParams.get(name) || fallback]: the fallback stands in for an
    absent parameter ([null]) and for an empty one. *)
Definition or_default (p : option JSString) (fallback : JSString) : JSString :=
  match p with
  | Some (c :: s) => c :: s
  | _ => fallback
  end.

(** The [case] labels of the [switch (mode)]. *)
Definition mode_of (mode : JSString) : option ApiMode :=
  if JSString_eqb mode (js "signal") then Some signal
  else if JSString_eqb mode (js "stream") then Some stream
  else if JSString_eqb mode (js "heartbeat") then Some heartbeat
  else if JSString_eqb mode (js "chunked") then Some chunked
  else None.

(** The [try { switch (mode) ... } catch] of [GET], for a mode that has a
    [case]. *)
Definition handle (fuel : nat) (env : Env) (m : ApiMode) (duration : number)
  : option Response :=
  match m with
  | signal =>
      match handleSignalMode env duration with
      | Return r => Some r
      | Throw => Some (textResponse "Internal server error" 500)
      end
  | stream => handleStreamMode fuel env duration
  | heartbeat => Some (handleHeartbeatMode env duration)
  | chunked => handleChunkedMode fuel env duration
  end.

(** [GET], given the [mode] and [duration] query parameters as
    [url.searchParams.get] returns them. [None] only when the tick loop runs
    out of [fuel]. *)
Definition GET (fuel : nat) (env : Env) (modeParam durationParam : option JSString)
  : option Response :=
  let mode := or_default modeParam (js "signal") in
  let duration := parseInt (or_default durationParam (js "5000")) in
  match mode_of mode with
  | Some m => handle fuel env m duration
  | None => Some (textResponse "Invalid mode" 400)
  end.

(** The units a response carries, whatever its shape. *)
Definition units_of (r : Response) : list Unit :=
  match body r with
  | BodyText _ => []
  | BodyJSON u => [u]
  | BodyStream run => emitted run
  end.

Definition mode_name (m : ApiMode) : JSString :=
  match m with
  | signal => js "signal"
  | stream => js "stream"
  | heartbeat => js "heartbeat"
  | chunked => js "chunked"
  end.

(** A run in which nothing interrupts the handler: every delay elapses, no
    [enqueue] throws, and the heartbeat schedule is some ticks followed by
    the end of the main delay. *)
Definition uncancelled (env : Env) : Prop :=
  (forall k, delay env k = Elapsed) /\
  (forall k, enqueue_throws env k = false) /\
  exists n, schedule env = repeat Tick n ++ [DelaySettles Elapsed].

(** The run in which the heartbeat fires [ticks] times before the main delay
    ends, every reading of the clock giving the same instant. *)
Definition quiet (ticks : nat) : Env :=
  {| delay := fun _ => Elapsed;
     enqueue_throws := fun _ => false;
     now := fun _ => js "2025-01-01T00:00:00.000Z";
     schedule := repeat Tick ticks ++ [DelaySettles Elapsed] |}.

(** The progress values, and the elapsed times, a list of units carries. *)
Definition progresses (us : list Unit) : list number :=
  flat_map (fun u => match progress_of u with
                     | Some p => [p]
                     | None => []
                     end) us.

Definition elapseds (us : list Unit) : list number :=
  flat_map (fun u => match elapsed_of u with
                     | Some e => [e]
                     | None => []
                     end) us.

Definition last_progress (us : list Unit) : option number :=
  last (map Some (progresses us)) None.

Definition last_elapsed (us : list Unit) : option number :=
  last (map Some (elapseds us)) None.

Definition count_units (p : Unit -> bool) (us : list Unit) : nat :=
  List.length (filter p us).

(** * JSON and text encoding

    [JSON.parse], [JSON.stringify], [TextEncoder] and [TextDecoder] belong to
    the runtime. The client's readers below take the parser as a parameter;
    [JSON_parse] is an executable reference for it, used to run the readers
    on concrete streams. *)

(** ** [JSON.parse] *)

Definition isJSONWhiteSpace (c : N) : bool :=
  ((c =? 9) || (c =? 10) || (c =? 13) || (c =? 32))%N.

Fixpoint skipJSONWhiteSpace (s : JSString) : JSString :=
  match s with
  | c :: s' => if isJSONWhiteSpace c then skipJSONWhiteSpace s' else s
  | [] => []
  end.

Definition isDigit (c : N) : bool := ((48 <=? c) && (c <=? 57))%N.

Definition hexValue (c : N) : option N :=
  if isDigit c then Some (c - 48)%N
  else if ((97 <=? c) && (c <=? 102))%N then Some (c - 87)%N
  else if ((65 <=? c) && (c <=? 70))%N then Some (c - 55)%N
  else None.

(** The characters of a string literal after its opening quote, up to the
    closing one. *)
Fixpoint parseStringChars (s : JSString) (acc : JSString)
  : option (JSString * JSString) :=
  match s with
  | [] => None
  | c :: r =>
      if (c =? 34)%N then Some (rev acc, r)
      else if (c <? 32)%N then None
      else if (c =? 92)%N then
        match r with
        | e :: r' =>
            if (e =? 34)%N then parseStringChars r' (34%N :: acc)
            else if (e =? 92)%N then parseStringChars r' (92%N :: acc)
            else if (e =? 47)%N then parseStringChars r' (47%N :: acc)
            else if (e =? 98)%N then parseStringChars r' (8%N :: acc)
            else if (e =? 102)%N then parseStringChars r' (12%N :: acc)
            else if (e =? 110)%N then parseStringChars r' (10%N :: acc)
            else if (e =? 114)%N then parseStringChars r' (13%N :: acc)
            else if (e =? 116)%N then parseStringChars r' (9%N :: acc)
            else if (e =? 117)%N then
              match r' with
              | h1 :: h2 :: h3 :: h4 :: r'' =>
                  match hexValue h1, hexValue h2, hexValue h3, hexValue h4 with
                  | Some a, Some b, Some c', Some d =>
                      parseStringChars r''
                        ((a * 4096 + b * 256 + c' * 16 + d)%N :: acc)
                  | _, _, _, _ => None
                  end
              | _ => None
              end
            else None
        | [] => None
        end
      else parseStringChars r (c :: acc)
  end.

(** A run of decimal digits: its value, how many there are, and the rest. *)
Fixpoint parseDecimalDigits (s : JSString) (acc : Z) (n : nat)
  : Z * nat * JSString :=
  match s with
  | c :: r => if isDigit c
              then parseDecimalDigits r (acc * 10 + (Z.of_N c - 48))%Z (S n)
              else (acc, n, s)
  | [] => (acc, n, s)
  end.

Definition pow10 (e : Z) : Q :=
  if (0 <=? e)%Z then inject_Z (10 ^ e) else 1 / inject_Z (10 ^ (- e)).

(** A JSON number: an optional minus sign, an integer part with no leading
    zero, an optional fraction and an optional exponent; read as the exact
    decimal it denotes. *)
Definition parseNumber (s : JSString) : option (number * JSString) :=
  let '(neg, s) := match s with
                   | c :: r => if (c =? 45)%N then (true, r) else (false, s)
                   | [] => (false, s)
                   end in
  match s with
  | d0 :: _ =>
      if isDigit d0 then
        let '(ip, n, r) :=
          if (d0 =? 48)%N then (0%Z, 1%nat, tl s) else parseDecimalDigits s 0 0 in
        let frac :=
          match r with
          | dot :: r1 =>
              if (dot =? 46)%N then
                match parseDecimalDigits r1 0 0 with
                | (_, O, _) => None
                | (fv, fn, r2) => Some (Some (fv, fn), r2)
                end
              else Some (None, r)
          | [] => Some (None, r)
          end in
        match frac with
        | None => None
        | Some (fr, r) =>
            let ex :=
              match r with
              | e :: r1 =>
                  if ((e =? 101) || (e =? 69))%N then
                    let '(eneg, r2) :=
                      match r1 with
                      | sg :: r2 => if (sg =? 45)%N then (true, r2)
                                    else if (sg =? 43)%N then (false, r2)
                                    else (false, r1)
                      | [] => (false, r1)
                      end in
                    match parseDecimalDigits r2 0 0 with
                    | (_, O, _) => None
                    | (ev, _, r3) => Some ((if eneg then - ev else ev)%Z, r3)
                    end
                  else Some (0%Z, r)
              | [] => Some (0%Z, r)
              end in
            match ex with
            | None => None
            | Some (ev, r) =>
                let mant :=
                  match fr with
                  | Some (fv, fn) =>
                      (inject_Z ip + inject_Z fv * pow10 (- Z.of_nat fn))%Q
                  | None => inject_Z ip
                  end in
                let v := (mant * pow10 ev)%Q in
                Some (Num (Qred (if neg then Qopp v else v)), r)
            end
        end
      else None
  | [] => None
  end.

Definition startsWith (s prefix : JSString) : bool :=
  JSString_eqb (firstn (List.length prefix) s) prefix.

(** [CreateDataProperty] on the object under construction: a repeated key
    keeps its place and takes the later value. *)
Fixpoint setProperty (k : JSString) (v : JSValue)
  (props : list (JSString * JSValue)) : list (JSString * JSValue) :=
  match props with
  | [] => [(k, v)]
  | (k', v') :: rest =>
      if JSString_eqb k' k then (k', v) :: rest
      else (k', v') :: setProperty k v rest
  end.

Fixpoint parseValue (fuel : nat) (s : JSString) {struct fuel}
  : option (JSValue * JSString) :=
  match fuel with
  | O => None
  | S f =>
      match skipJSONWhiteSpace s with
      | [] => None
      | c :: r =>
          if (c =? 123)%N then
            match skipJSONWhiteSpace r with
            | c' :: r' =>
                if (c' =? 125)%N then Some (JObject [], r')
                else parseMembers f (c' :: r') []
            | [] => None
            end
          else if (c =? 91)%N then
            match skipJSONWhiteSpace r with
            | c' :: r' =>
                if (c' =? 93)%N then Some (JArray [], r')
                else parseElements f (c' :: r') []
            | [] => None
            end
          else if (c =? 34)%N then
            match parseStringChars r [] with
            | Some (str, r') => Some (JString str, r')
            | None => None
            end
          else if startsWith (c :: r) (js "true")
          then Some (JBool true, skipn 4 (c :: r))
          else if startsWith (c :: r) (js "false")
          then Some (JBool false, skipn 5 (c :: r))
          else if startsWith (c :: r) (js "null")
          then Some (JNull, skipn 4 (c :: r))
          else
            match parseNumber (c :: r) with
            | Some (x, r') => Some (JNumber x, r')
            | None => None
            end
      end
  end
with parseElements (fuel : nat) (s : JSString) (acc : list JSValue) {struct fuel}
  : option (JSValue * JSString) :=
  match fuel with
  | O => None
  | S f =>
      match parseValue f s with
      | Some (v, r) =>
          match skipJSONWhiteSpace r with
          | c :: r' =>
              if (c =? 44)%N then parseElements f r' (v :: acc)
              else if (c =? 93)%N then Some (JArray (rev (v :: acc)), r')
              else None
          | [] => None
          end
      | None => None
      end
  end
with parseMembers (fuel : nat) (s : JSString) (acc : list (JSString * JSValue))
  {struct fuel} : option (JSValue * JSString) :=
  match fuel with
  | O => None
  | S f =>
      match skipJSONWhiteSpace s with
      | q :: r =>
          if (q =? 34)%N then
            match parseStringChars r [] with
            | Some (k, r1) =>
                match skipJSONWhiteSpace r1 with
                | colon :: r2 =>
                    if (colon =? 58)%N then
                      match parseValue f r2 with
                      | Some (v, r3) =>
                          let acc' := setProperty k v acc in
                          match skipJSONWhiteSpace r3 with
                          | c :: r4 =>
                              if (c =? 44)%N then parseMembers f r4 acc'
                              else if (c =? 125)%N then Some (JObject acc', r4)
                              else None
                          | [] => None
                          end
                      | None => None
                      end
                    else None
                | [] => None
                end
            | None => None
            end
          else None
      | [] => None
      end
  end.

(** [JSON.parse(text)]: [None] when it throws a [SyntaxError]. Every nested
    call is made after at least one character has been read, at most two
    calls deep per character. *)
Definition JSON_parse (text : JSString) : option JSValue :=
  match parseValue (2 * List.length text + 2) text with
  | Some (v, r) => match skipJSONWhiteSpace r with
                   | [] => Some v
                   | _ :: _ => None
                   end
  | None => None
  end.

(** ** [JSON.stringify] *)

Definition hexDigit (n : N) : N :=
  if (n <? 10)%N then (48 + n)%N else (87 + n)%N.

Definition unicodeEscape (c : N) : JSString :=
  [92; 117; hexDigit (c / 4096); hexDigit ((c / 256) mod 16);
   hexDigit ((c / 16) mod 16); hexDigit (c mod 16)]%N.

Definition isHighSurrogate (c : N) : bool := ((55296 <=? c) && (c <=? 56319))%N.
Definition isLowSurrogate (c : N) : bool := ((56320 <=? c) && (c <=? 57343))%N.

Fixpoint quoteChars (s : JSString) : JSString :=
  match s with
  | [] => []
  | c :: r =>
      if (c =? 8)%N then 92%N :: 98%N :: quoteChars r
      else if (c =? 9)%N then 92%N :: 116%N :: quoteChars r
      else if (c =? 10)%N then 92%N :: 110%N :: quoteChars r
      else if (c =? 12)%N then 92%N :: 102%N :: quoteChars r
      else if (c =? 13)%N then 92%N :: 114%N :: quoteChars r
      else if (c =? 34)%N then 92%N :: 34%N :: quoteChars r
      else if (c =? 92)%N then 92%N :: 92%N :: quoteChars r
      else if (c <? 32)%N then unicodeEscape c ++ quoteChars r
      else if isHighSurrogate c then
        match r with
        | l :: r' => if isLowSurrogate l then c :: l :: quoteChars r'
                     else unicodeEscape c ++ quoteChars r
        | [] => unicodeEscape c
        end
      else if isLowSurrogate c then unicodeEscape c ++ quoteChars r
      else c :: quoteChars r
  end.

Definition QuoteJSONString (s : JSString) : JSString :=
  34%N :: quoteChars s ++ [34%N].

(** [JSON.stringify(v)] with no indentation; [None] where the model has no
    rendering for a number. A number that is not finite is written [null]. *)
Fixpoint JSON_stringify (v : JSValue) : option JSString :=
  match v with
  | JNull => Some (js "null")
  | JBool true => Some (js "true")
  | JBool false => Some (js "false")
  | JNumber NaN => Some (js "null")
  | JNumber x => Number_toString x
  | JString s => Some (QuoteJSONString s)
  | JArray items =>
      let fix go (first : bool) (l : list JSValue) : option JSString :=
        match l with
        | [] => Some []
        | x :: rest =>
            match JSON_stringify x, go false rest with
            | Some sx, Some sr =>
                Some ((if first then [] else [44%N]) ++ sx ++ sr)
            | _, _ => None
            end
        end in
      option_map (fun body => 91%N :: body ++ [93%N]) (go true items)
  | JObject props =>
      let fix go (first : bool) (l : list (JSString * JSValue))
        : option JSString :=
        match l with
        | [] => Some []
        | (k, x) :: rest =>
            match JSON_stringify x, go false rest with
            | Some sx, Some sr =>
                Some ((if first then [] else [44%N])
                        ++ QuoteJSONString k ++ 58%N :: sx ++ sr)
            | _, _ => None
            end
        end in
      option_map (fun body => 123%N :: body ++ [125%N]) (go true props)
  end.

(** ** The text of each unit of the route *)

Definition completionMessage (duration : number) (how : string)
  : option JSString :=
  option_map (fun d => js "Completed after " ++ d ++ js how)
    (Number_toString duration).

Definition completeObject (tag : list (JSString * JSValue)) (m : ApiMode)
  (how : string) (duration : number) (timestamp : JSString) : option JSValue :=
  option_map (fun msg =>
    JObject (tag ++ [(js "mode", JString (mode_name m));
                     (js "message", JString msg);
                     (js "timestamp", JString timestamp);
                     (js "duration", JNumber duration)]))
    (completionMessage duration how).

Definition typeField (s : string) : JSString * JSValue :=
  (js "type", JString (js s)).

(** The object literal the route builds for a unit, where it builds one. *)
Definition Unit_object (u : Unit) : option JSValue :=
  match u with
  | SignalBody d ts => completeObject [] signal "ms using AbortSignal" d ts
  | StreamStart ts =>
      Some (JObject [typeField "start";
                     (js "message", JString (js "Starting delayed operation..."));
                     (js "timestamp", JString ts)])
  | StreamProgress p e d ts =>
      Some (JObject [typeField "progress"; (js "progress", JNumber p);
                     (js "elapsed", JNumber e); (js "duration", JNumber d);
                     (js "timestamp", JString ts)])
  | StreamComplete d ts =>
      completeObject [typeField "complete"] stream "ms using streaming" d ts
  | SSEStart ts =>
      Some (JObject [typeField "start";
                     (js "message",
                      JString (js "Starting with heartbeat monitoring..."));
                     (js "timestamp", JString ts)])
  | SSEHeartbeat ts =>
      Some (JObject [typeField "heartbeat"; (js "timestamp", JString ts)])
  | SSEComplete d ts =>
      completeObject [typeField "complete"] heartbeat
        "ms with heartbeat monitoring" d ts
  | ChunkedComplete d ts =>
      completeObject [(js "status", JString (js "complete"))] chunked
        "ms using chunked response" d ts
  | ChunkedStarting | ChunkedProgress _ _ => None
  end.

Definition bind {A B : Type} (o : option A) (f : A -> option B) : option B :=
  match o with
  | Some a => f a
  | None => None
  end.

(** The string handed to [encoder.encode] (for [SignalBody], to
    [new Response]). *)
Definition Unit_text (u : Unit) : option JSString :=
  match u with
  | SignalBody _ _ => bind (Unit_object u) JSON_stringify
  | StreamStart _ | StreamProgress _ _ _ _ | StreamComplete _ _
  | ChunkedComplete _ _ =>
      option_map (fun s => s ++ [LF]) (bind (Unit_object u) JSON_stringify)
  | SSEStart _ | SSEHeartbeat _ | SSEComplete _ _ =>
      option_map (fun s => js "data: " ++ s ++ [LF; LF])
        (bind (Unit_object u) JSON_stringify)
  | ChunkedStarting =>
      Some (jsq "{'status':'starting','message':'Beginning chunked response...'}"
              ++ [LF])
  | ChunkedProgress p e =>
      bind (Number_toString p) (fun sp =>
      bind (Number_toString e) (fun se =>
      Some (jsq "{'status':'progress','progress':" ++ sp
              ++ jsq ",'elapsed':" ++ se ++ jsq "}" ++ [LF])))
  end.

(** ** [TextEncoder.encode]: UTF-16 to UTF-8 *)

Definition byte_of_N (n : N) : byte :=
  match Byte.of_N n with
  | Some b => b
  | None => x00
  end.

Definition utf8_of_code_point (cp : N) : list byte :=
  if (cp <? 128)%N then [byte_of_N cp]
  else if (cp <? 2048)%N
  then [byte_of_N (192 + cp / 64); byte_of_N (128 + cp mod 64)]
  else if (cp <? 65536)%N
  then [byte_of_N (224 + cp / 4096); byte_of_N (128 + (cp / 64) mod 64);
        byte_of_N (128 + cp mod 64)]
  else [byte_of_N (240 + cp / 262144); byte_of_N (128 + (cp / 4096) mod 64);
        byte_of_N (128 + (cp / 64) mod 64); byte_of_N (128 + cp mod 64)].

Fixpoint TextEncoder_encode (s : JSString) : list byte :=
  match s with
  | [] => []
  | c :: r =>
      if isHighSurrogate c then
        match r with
        | l :: r' =>
            if isLowSurrogate l
            then utf8_of_code_point
                   (65536 + (c - 55296) * 1024 + (l - 56320))%N
                   ++ TextEncoder_encode r'
            else utf8_of_code_point 65533 ++ TextEncoder_encode r
        | [] => utf8_of_code_point 65533
        end
      else if isLowSurrogate c
      then utf8_of_code_point 65533 ++ TextEncoder_encode r
      else utf8_of_code_point c ++ TextEncoder_encode r
  end.

(** The bytes of a unit on the wire. *)
Definition Unit_bytes (u : Unit) : option (list byte) :=
  option_map TextEncoder_encode (Unit_text u).

Fixpoint wire (us : list Unit) : option (list (list byte)) :=
  match us with
  | [] => Some []
  | u :: rest =>
      bind (Unit_bytes u) (fun b => option_map (cons b) (wire rest))
  end.

(** ** [TextDecoder] for UTF-8

    The decoder reads one byte at a time. [utf8_step] is the handler of the
    Encoding Standard; on an ill-formed continuation it reports an error
    (U+FFFD) and reads the same byte again as a lead byte. *)

Record Utf8State : Type := {
  code_point : N;
  bytes_seen : N;
  bytes_needed : N;
  lower_boundary : N;
  upper_boundary : N
}.

Definition utf8_initial : Utf8State :=
  {| code_point := 0; bytes_seen := 0; bytes_needed := 0;
     lower_boundary := 128; upper_boundary := 191 |}.

Definition utf8_lead (b : N) : Utf8State * list N :=
  if (b <=? 127)%N then (utf8_initial, [b])
  else if ((194 <=? b) && (b <=? 223))%N then
    ({| code_point := N.land b 31; bytes_seen := 0; bytes_needed := 1;
        lower_boundary := 128; upper_boundary := 191 |}, [])
  else if ((224 <=? b) && (b <=? 239))%N then
    ({| code_point := N.land b 15; bytes_seen := 0; bytes_needed := 2;
        lower_boundary := if (b =? 224)%N then 160 else 128;
        upper_boundary := if (b =? 237)%N then 159 else 191 |}, [])
  else if ((240 <=? b) && (b <=? 244))%N then
    ({| code_point := N.land b 7; bytes_seen := 0; bytes_needed := 3;
        lower_boundary := if (b =? 240)%N then 144 else 128;
        upper_boundary := if (b =? 244)%N then 143 else 191 |}, [])
  else (utf8_initial, [65533%N]).

Definition utf8_step (st : Utf8State) (b : N) : Utf8State * list N :=
  if (bytes_needed st =? 0)%N then utf8_lead b
  else if negb ((lower_boundary st <=? b) && (b <=? upper_boundary st))%N then
    let '(st', out) := utf8_lead b in (st', 65533%N :: out)
  else
    let cp := N.lor (N.shiftl (code_point st) 6) (N.land b 63) in
    if (bytes_seen st + 1 =? bytes_needed st)%N then (utf8_initial, [cp])
    else ({| code_point := cp; bytes_seen := bytes_seen st + 1;
             bytes_needed := bytes_needed st;
             lower_boundary := 128; upper_boundary := 191 |}, []).

Record TextDecoder : Type := {
  utf8 : Utf8State;
  bom_seen : bool
}.

Definition TextDecoder_new : TextDecoder :=
  {| utf8 := utf8_initial; bom_seen := false |}.

Definition utf16_of_code_point (cp : N) : JSString :=
  if (cp <? 65536)%N then [cp]
  else [(55296 + (cp - 65536) / 1024)%N; (56320 + (cp - 65536) mod 1024)%N].

(** Serialising the decoded code points: the first one is dropped when it is
    the byte order mark. *)
Fixpoint serialize (bom : bool) (cps : list N) : bool * JSString :=
  match cps with
  | [] => (bom, [])
  | cp :: rest =>
      let '(bom', out) := serialize true rest in
      if negb bom && (cp =? 65279)%N then (bom', out)
      else (bom', utf16_of_code_point cp ++ out)
  end.

Definition decode_byte (d : TextDecoder) (b : byte) : TextDecoder * JSString :=
  let '(st, cps) := utf8_step (utf8 d) (Byte.to_N b) in
  let '(bom, out) := serialize (bom_seen d) cps in
  ({| utf8 := st; bom_seen := bom |}, out).

(** [decoder.decode(value, { stream: true })]: the state is kept for the next
    call. *)
Fixpoint decode_stream (d : TextDecoder) (value : list byte)
  : TextDecoder * JSString :=
  match value with
  | [] => (d, [])
  | b :: rest =>
      let '(d1, out1) := decode_byte d b in
      let '(d2, out2) := decode_stream d1 rest in
      (d2, out1 ++ out2)
  end.

(** [decoder.decode(value)] on a decoder that never streams: every call
    starts afresh, and an unfinished sequence at the end of [value] is
    an error (U+FFFD). *)
Definition TextDecoder_decode (value : list byte) : JSString :=
  let '(d, out) := decode_stream TextDecoder_new value in
  if (bytes_needed (utf8 d) =? 0)%N then out
  else out ++ snd (serialize (bom_seen d) [65533%N]).

(** * The client: [src/app/page.tsx] *)

(** ** Values as the readers inspect them *)

(** [v.name] for the names the readers read ([type], [status], [progress]),
    none of which a built-in prototype defines: an own property of an
    object, [undefined] ([None]) on any other value, a [TypeError] on
    [null]. *)
Fixpoint lookup (k : JSString) (props : list (JSString * JSValue))
  : option JSValue :=
  match props with
  | [] => None
  | (k', v) :: rest => if JSString_eqb k' k then Some v else lookup k rest
  end.

Definition getProperty (v : JSValue) (name : string)
  : Completion (option JSValue) :=
  match v with
  | JNull => Throw
  | JObject props => Return (lookup (js name) props)
  | _ => Return None
  end.

(** [x === "literal"] *)
Definition strictEqualsString (x : option JSValue) (literal : string) : bool :=
  match x with
  | Some (JString s) => JSString_eqb s (js literal)
  | _ => false
  end.

(** [ToBoolean] *)
Definition truthy (x : option JSValue) : bool :=
  match x with
  | None | Some JNull | Some (JBool false) | Some (JNumber NaN) => false
  | Some (JNumber (Num q)) => negb (Qeq_bool q 0)
  | Some (JString s) => match s with [] => false | _ => true end
  | Some _ => true
  end.

(** [x || 0] *)
Definition orZero (x : option JSValue) : JSValue :=
  match x with
  | Some v => if truthy x then v else JNumber (num_of_Z 0)
  | None => JNumber (num_of_Z 0)
  end.

(** [s.split("\n")]: never empty. *)
Fixpoint split_lines (s : JSString) : list JSString :=
  match s with
  | [] => [[]]
  | c :: r =>
      if (c =? LF)%N then [] :: split_lines r
      else match split_lines r with
           | l :: ls => (c :: l) :: ls
           | [] => [[c]]
           end
  end.

(** [s.trim()] *)
Definition trim (s : JSString) : JSString :=
  rev (skipWhiteSpace (rev (skipWhiteSpace s))).

(** The calls the readers make on the component's state. *)
Inductive ClientEvent : Type :=
| SetResponse (data : JSValue)
| SetProgress (value : JSValue).

Section Readers.
(** [JSON.parse]: [None] when it throws. *)
Variable parse : JSString -> option JSValue.

(** The body of [for (const line of lines)] in [handleSSEResponse]. *)
Definition sse_line (line : JSString) : list ClientEvent :=
  if startsWith line (js "data: ") then
    let data := skipn 6 line in
    match parse data with
    | None => []                                  (* caught, ignored *)
    | Some parsed =>
        match getProperty parsed "type" with
        | Throw => []                             (* caught, ignored *)
        | Return ty =>
            if strictEqualsString ty "complete" then [SetResponse parsed]
            else if strictEqualsString ty "progress" then
              match getProperty parsed "progress" with
              | Return p => [SetProgress (orZero p)]
              | Throw => []
              end
            else []
        end
    end
  else [].

(** One turn of the [while] loop of [handleSSEResponse], once the read
    has passed the guard. *)
Definition handleSSEResponse_read (value : list byte) : list ClientEvent :=
  let chunk := TextDecoder_decode value in
  let lines := split_lines chunk in
  flat_map sse_line lines.

(** The reader on a stream whose reads all pass the guard. *)
Definition handleSSEResponse (reads : list (list byte)) : list ClientEvent :=
  flat_map handleSSEResponse_read reads.

(** The body of [for (const line of lines)] in [handleStreamResponse]. *)
Definition ndjson_line (line : JSString) : list ClientEvent :=
  match trim line with
  | [] => []
  | _ :: _ =>
      match parse line with
      | None => []                                (* caught, ignored *)
      | Some data =>
          match getProperty data "status", getProperty data "type",
                getProperty data "progress" with
          | Return st, Return ty, Return p =>
              if strictEqualsString st "complete"
                 || strictEqualsString ty "complete"
              then [SetResponse data]
              else if strictEqualsString st "progress"
                      || strictEqualsString ty "progress"
              then [SetProgress (orZero p)]
              else []
          | _, _, _ => []                         (* caught, ignored *)
          end
      end
  end.

(** The variables [handleStreamResponse] keeps across reads. *)
Record NDJSONState : Type := {
  decoder : TextDecoder;
  buffer : JSString
}.

Definition NDJSON_initial : NDJSONState :=
  {| decoder := TextDecoder_new; buffer := [] |}.

(** One turn of the [while] loop of [handleStreamResponse], once the read
    has passed the guard. *)
Definition handleStreamResponse_read (st : NDJSONState) (value : list byte)
  : NDJSONState * list ClientEvent :=
  let '(dec, text) := decode_stream (decoder st) value in
  let buffer := buffer st ++ text in
  let lines := split_lines buffer in
  let buffer := last lines [] in               (* lines.pop() || "" *)
  let lines := removelast lines in
  ({| decoder := dec; buffer := buffer |}, flat_map ndjson_line lines).

Fixpoint handleStreamResponse_from (st : NDJSONState)
  (reads : list (list byte)) : list ClientEvent :=
  match reads with
  | [] => []
  | value :: rest =>
      let '(st', evs) := handleStreamResponse_read st value in
      evs ++ handleStreamResponse_from st' rest
  end.

(** The reader on a stream whose reads all pass the guard. *)
Definition handleStreamResponse (reads : list (list byte))
  : list ClientEvent :=
  handleStreamResponse_from NDJSON_initial reads.
End Readers.

(** The text [handleStreamResponse] has decoded once it has read [reads],
    and the lines of a text that a line feed ends. *)
Definition decoded_stream (reads : list (list byte)) : JSString :=
  snd (decode_stream TextDecoder_new (List.concat reads)).

Definition complete_lines (text : JSString) : list JSString :=
  removelast (split_lines text).

(** The lines [handleSSEResponse] looks at: those of each read, decoded on
    its own. *)
Definition sse_lines (reads : list (list byte)) : list JSString :=
  flat_map (fun value => split_lines (TextDecoder_decode value)) reads.

(** ** The request orchestrator

    The component's state, the two refs, and the invocations of
    [handleApiCall] that are suspended at an [await]. A callback runs to its
    end, or to its next [await], before anything else happens; an abort
    controller is named by the request that created it. *)

Record Shared : Type := {
  loading : bool;
  response : option JSValue;     (* [null] is [None] *)
  error : option JSString;
  progress : JSValue
}.

(** What a suspended invocation waits for. *)
Inductive Await : Type :=
| AwaitFetch                          (* [await fetch(url, { signal })] *)
| AwaitJson                           (* [await res.json()] *)
| AwaitSSERead                        (* [await reader.read()] in [handleSSEResponse] *)
| AwaitStreamRead (st : NDJSONState). (* the same in [handleStreamResponse] *)

Record Task : Type := {
  currentRequestId : nat;
  task_mode : ApiMode;                (* [mode] as the closure captured it *)
  awaiting : Await
}.

Record Client : Type := {
  shared : Shared;
  mode : ApiMode;
  requestIdRef : nat;
  abortControllerRef : option nat;
  aborted : list nat;                 (* controllers whose signal has fired *)
  tasks : list Task
}.

(** A rejection reason, as the [catch] of [handleApiCall] tells them apart. *)
Inductive JSError : Type :=
| ErrAbort                            (* an [Error] named [AbortError] *)
| ErrOther (message : JSString)       (* any other [Error] *)
| NotAnError.                         (* a thrown value that is no [Error] *)

(** How an awaited promise settles. *)
Inductive Settlement : Type :=
| FetchResolved (status : Z) (hasBody : bool)
| JsonResolved (data : JSValue)
| ReadResolved (done : bool) (value : list byte)
| Rejected (e : JSError).

Inductive Action : Type :=
| Click                               (* the user calls [handleApiCall] *)
| Cancel                              (* the user calls [handleCancelRequest] *)
| SetMode (m : ApiMode)
| Settle (id : nat) (s : Settlement). (* the promise request [id] awaits settles *)

Definition Client_initial : Client :=
  {| shared := {| loading := false; response := None; error := None;
                  progress := JNumber (num_of_Z 0) |};
     mode := signal; requestIdRef := 0; abortControllerRef := None;
     aborted := []; tasks := [] |}.

Definition with_shared (f : Shared -> Shared) (c : Client) : Client :=
  {| shared := f (shared c); mode := mode c; requestIdRef := requestIdRef c;
     abortControllerRef := abortControllerRef c; aborted := aborted c;
     tasks := tasks c |}.

Definition setLoading (b : bool) : Client -> Client :=
  with_shared (fun s => {| loading := b; response := response s;
                           error := error s; progress := progress s |}).

Definition setResponse (r : option JSValue) : Client -> Client :=
  with_shared (fun s => {| loading := loading s; response := r;
                           error := error s; progress := progress s |}).

Definition setError (e : option JSString) : Client -> Client :=
  with_shared (fun s => {| loading := loading s; response := response s;
                           error := e; progress := progress s |}).

Definition setProgress (p : JSValue) : Client -> Client :=
  with_shared (fun s => {| loading := loading s; response := response s;
                           error := error s; progress := p |}).

Definition set_abortControllerRef (r : option nat) (c : Client) : Client :=
  {| shared := shared c; mode := mode c; requestIdRef := requestIdRef c;
     abortControllerRef := r; aborted := aborted c; tasks := tasks c |}.

Definition set_tasks (ts : list Task) (c : Client) : Client :=
  {| shared := shared c; mode := mode c; requestIdRef := requestIdRef c;
     abortControllerRef := abortControllerRef c; aborted := aborted c;
     tasks := ts |}.

Definition apply_event (e : ClientEvent) : Client -> Client :=
  match e with
  | SetResponse data => setResponse (Some data)
  | SetProgress v => setProgress v
  end.

Definition apply_events (evs : list ClientEvent) (c : Client) : Client :=
  fold_left (fun c e => apply_event e c) evs c.

(** [cleanupRequest] *)
Definition cleanupRequest (c : Client) : Client :=
  match abortControllerRef c with
  | Some ctl =>
      {| shared := shared c; mode := mode c; requestIdRef := requestIdRef c;
         abortControllerRef := None; aborted := ctl :: aborted c;
         tasks := tasks c |}
  | None => c
  end.

Definition signal_aborted (c : Client) (ctl : nat) : bool :=
  existsb (Nat.eqb ctl) (aborted c).

(** [handleCancelRequest] *)
Definition handleCancelRequest (c : Client) : Client :=
  setError (Some (js "Request cancelled by user"))
    (setProgress (JNumber (num_of_Z 0)) (setLoading false (cleanupRequest c))).

(** [handleApiCall] up to its first [await]. *)
Definition handleApiCall_start (c : Client) : Client :=
  if loading (shared c) then c
  else
    let c := cleanupRequest c in
    let currentRequestId := S (requestIdRef c) in
    let c := {| shared := shared c; mode := mode c;
                requestIdRef := currentRequestId;
                abortControllerRef := abortControllerRef c;
                aborted := aborted c; tasks := tasks c |} in
    let c := setProgress (JNumber (num_of_Z 0))
               (setError None (setResponse None (setLoading true c))) in
    let c := set_abortControllerRef (Some currentRequestId) c in
    set_tasks (tasks c ++ [{| currentRequestId := currentRequestId;
                              task_mode := mode c;
                              awaiting := AwaitFetch |}]) c.

(** The [finally] of [handleApiCall]. *)
Definition handleApiCall_finally (id : nat) (c : Client) : Client :=
  if Nat.eqb id (requestIdRef c)
  then set_abortControllerRef None (setLoading false c)
  else c.

(** The [catch] of [handleApiCall], followed by its [finally]. *)
Definition handleApiCall_catch (id : nat) (e : JSError) (c : Client) : Client :=
  handleApiCall_finally id
    (if negb (Nat.eqb id (requestIdRef c)) then c
     else match e with
          | ErrAbort => setError (Some (js "Request was cancelled")) c
          | ErrOther message => setError (Some message) c
          | NotAnError => setError (Some (js "An error occurred")) c
          end).

Definition httpErrorMessage (status : Z) : JSString :=
  js "HTTP error! status: " ++ Z_toString status.

Section Orchestrator.
Variable parse : JSString -> option JSValue.

(** The guard of both read loops: [done || currentRequestId !==
    requestIdRef.current || abortController.signal.aborted]. *)
Definition read_guard (id : nat) (done : bool) (c : Client) : bool :=
  done || negb (Nat.eqb id (requestIdRef c)) || signal_aborted c id.

(** The invocation [t] resumes with settlement [s]: the state after it has
    run to its end ([None]) or to its next [await] ([Some]). A settlement
    that does not fit what [t] awaits leaves everything as it is. *)
Definition resume (t : Task) (s : Settlement) (c : Client)
  : Client * option Task :=
  let id := currentRequestId t in
  let suspend a := Some {| currentRequestId := id; task_mode := task_mode t;
                           awaiting := a |} in
  match awaiting t, s with
  | _, Rejected e => (handleApiCall_catch id e c, None)
  | AwaitFetch, FetchResolved status hasBody =>
      if negb (Nat.eqb id (requestIdRef c))
      then (handleApiCall_finally id c, None)
      else if signal_aborted c id
      then (handleApiCall_finally id c, None)
      else if (status =? 499)%Z
      then (handleApiCall_finally id
              (setError (Some (js "Request was cancelled by server")) c),
            None)
      else if negb ((200 <=? status) && (status <=? 299))%Z
      then (handleApiCall_catch id (ErrOther (httpErrorMessage status)) c,
            None)
      else match task_mode t with
           | signal => (c, suspend AwaitJson)
           | heartbeat =>
               if hasBody then (c, suspend AwaitSSERead)
               else (handleApiCall_finally id c, None)
           | stream | chunked =>
               if hasBody then (c, suspend (AwaitStreamRead NDJSON_initial))
               else (handleApiCall_finally id c, None)
           end
  | AwaitJson, JsonResolved data =>
      (handleApiCall_finally id
         (if Nat.eqb id (requestIdRef c) && negb (signal_aborted c id)
          then setResponse (Some data) c else c),
       None)
  | AwaitSSERead, ReadResolved done value =>
      if read_guard id done c then (handleApiCall_finally id c, None)
      else (apply_events (handleSSEResponse_read parse value) c,
            suspend AwaitSSERead)
  | AwaitStreamRead st, ReadResolved done value =>
      if read_guard id done c then (handleApiCall_finally id c, None)
      else let '(st', evs) := handleStreamResponse_read parse st value in
           (apply_events evs c, suspend (AwaitStreamRead st'))
  | _, _ => (c, Some t)
  end.

Fixpoint settle (id : nat) (s : Settlement) (ts : list Task) (c : Client)
  : Client * list Task :=
  match ts with
  | [] => (c, [])
  | t :: rest =>
      if Nat.eqb (currentRequestId t) id then
        let '(c', t') := resume t s c in
        (c', match t' with Some t'' => t'' :: rest | None => rest end)
      else let '(c', rest') := settle id s rest c in (c', t :: rest')
  end.

Definition step (c : Client) (a : Action) : Client :=
  match a with
  | Click => handleApiCall_start c
  | Cancel => handleCancelRequest c
  | SetMode m =>
      {| shared := shared c; mode := m; requestIdRef := requestIdRef c;
         abortControllerRef := abortControllerRef c; aborted := aborted c;
         tasks := tasks c |}
  | Settle id s =>
      let '(c', ts) := settle id s (tasks c) c in set_tasks ts c'
  end.

Definition run (c : Client) (acts : list Action) : Client :=
  fold_left step acts c.
End Orchestrator.

(** * The statements the properties below decide *)

(** "The final emitted progress value equals 100." *)
Definition final_progress_is_100 (m : ApiMode) (z : Z) (env : Env) : Prop :=
  exists fuel r, handle fuel env m (num_of_Z z) = Some r
                 /\ last_progress (units_of r) = Some (num_of_Z 100).

(** "A duration parameter that does not start with a digit gives the start
    unit followed by the completion unit, with no progress unit." *)
Definition no_progress_without_leading_digit (p : JSString) (env : Env) : Prop :=
  (match p with c :: _ => isDigit c = false | [] => True end) ->
  exists fuel r, GET fuel env (Some (js "stream")) (Some p) = Some r
                 /\ progresses (units_of r) = [].

(** The actions of a client that selects [m], calls the API, receives a 200
    response with a body and reads the chunks [reads] until the stream is
    done, with no other request or cancellation in between. *)
Definition undisturbed_session (m : ApiMode) (reads : list (list byte))
  : list Action :=
  [SetMode m; Click; Settle 1 (FetchResolved 200 true)]
    ++ map (fun value => Settle 1 (ReadResolved false value)) reads
    ++ [Settle 1 (ReadResolved true [])].

(** * Invariants *)

(** The heartbeat machine: the variable [heartbeatInterval] holds a timer
    exactly when the interval is registered, every close so far found the
    interval cleared, and the interval is cleared once the main delay has
    settled. *)
Definition hb_inv (s : HBState) : Prop :=
  heartbeatInterval s = timer_registered s
  /\ scan false (hb_trace s) = Some (timer_registered s)
  /\ (delay_pending s = false -> timer_registered s = false).

(** The orchestrator: no suspended invocation has an identity beyond the
    current one. *)
Definition ids_bounded (c : Client) : Prop :=
  Forall (fun t => currentRequestId t <= requestIdRef c)%nat (tasks c).


(** * Further definitions for the properties of the whole code *)

(** [Math.round((elapsed / duration) * 100)], as both tick loops compute
    it. *)
Definition progressAt (elapsed duration : number) : number :=
  Math_round (js_mul (js_div elapsed duration) (num_of_Z 100)).

(** What a run that did not complete stopped on, at its [k]-th wait. *)
Definition interrupted_at (env : Env) (k : nat) (e : StreamEnd) : Prop :=
  match e with
  | Completed => False
  | ClosedOnAbort => delay env k = AbortError
  | ClosedOnWriteError => delay env k = Elapsed /\ enqueue_throws env k = true
  | ErroredEnd => delay env k = OtherError
  | Pending => False
  end.

(** The waits before the [n]-th all elapsed and the writes after them went
    through. *)
Definition undisturbed_before (env : Env) (n : nat) : Prop :=
  forall j, (j < n)%nat -> delay env j = Elapsed /\ enqueue_throws env j = false.

(** The progress value for elapsed time [e] out of [d], as an integer. *)
Definition progressZ (e d : Q) : Z :=
  Qfloor (inject_Z 100 * e / d + (1 # 2)).

(** An environment that lets [k] waits elapse and aborts the next one. *)
Definition aborting (k : nat) : Env :=
  {| delay := fun j => if (j <? k)%nat then Elapsed else AbortError;
     enqueue_throws := fun _ => false;
     now := fun _ => js "2025-01-01T00:00:00.000Z";
     schedule := repeat Tick k ++ [DelaySettles AbortError] |}.

(** The elapsed time after [j] ticks of [interval] towards [d], starting from
    [e]: [e + j * interval], clamped at [d]. *)
Definition elapsedAfter (e interval d : Q) (j : nat) : Q :=
  Qred (Qmin (e + inject_Z (Z.of_nat j) * interval) d).

(** The progress units of an undisturbed run of [m] ticks, the [k]-th wait
    being the first. *)
Definition tickUnits (pu : nat -> number -> number -> Unit)
  (e interval d : Q) (k m : nat) : list Unit :=
  map (fun j => pu (k + j)%nat
                  (progressAt (Num (elapsedAfter e interval d (S j))) (Num d))
                  (Num (elapsedAfter e interval d (S j))))
    (seq 0 m).

(** An environment in which no wait is interrupted and no write throws. *)
Definition undisturbed (env : Env) : Prop :=
  (forall k, delay env k = Elapsed) /\ (forall k, enqueue_throws env k = false).

Definition is_heartbeat (u : Unit) : bool :=
  match u with
  | SSEHeartbeat _ => true
  | _ => false
  end.

(** The queue of the heartbeat stream: the start event, heartbeats, and the
    completion event exactly when the handler completed; the main delay is
    pending exactly until the handler has ended. *)
Definition hb_shape (env : Env) (d : number) (s : HBState) : Prop :=
  (delay_pending s = true <-> hb_end s = Pending)
  /\ (hb_end s = Completed -> hb_stream s <> Readable)
  /\ exists hbs tail,
       hb_queue s = SSEStart (now env 0) :: hbs ++ tail
       /\ Forall (fun u => is_heartbeat u = true) hbs
       /\ ((hb_end s = Completed /\ exists ts, tail = [SSEComplete d ts])
           \/ (hb_end s <> Completed /\ tail = [])).

(** The identities of the invocations in flight. *)
Definition in_flight (c : Client) : list nat :=
  map currentRequestId (tasks c).

(** What every state of the orchestrator satisfies: the identities in
    flight are distinct and not beyond the current one; the controller the
    ref holds is the current request's and has not been aborted; [loading]
    is true exactly while the ref holds a controller, and then the current
    request is in flight; every other invocation in flight has had its
    controller aborted. *)
Definition client_inv (c : Client) : Prop :=
  NoDup (in_flight c)
  /\ Forall (fun k => k <= requestIdRef c)%nat (in_flight c)
  /\ Forall (fun k => k <= requestIdRef c)%nat (aborted c)
  /\ (forall k, abortControllerRef c = Some k ->
                k = requestIdRef c /\ signal_aborted c k = false)
  /\ (loading (shared c) = true <-> abortControllerRef c <> None)
  /\ (loading (shared c) = true -> In (requestIdRef c) (in_flight c))
  /\ Forall (fun k => signal_aborted c k = true
                      \/ (k = requestIdRef c /\ loading (shared c) = true))
            (in_flight c).

(** A text without a line feed, a chunk of ASCII bytes, and a chunk that is
    empty or ends at a line feed. *)
Definition no_line_feed (l : JSString) : bool :=
  forallb (fun c => negb (c =? LF)%N) l.

Definition is_ascii (value : list byte) : bool :=
  forallb (fun b => (Byte.to_N b <? 128)%N) value.

Definition line_aligned (value : list byte) : bool :=
  match value with
  | [] => true
  | _ :: _ => Byte.eqb (last value x00) x0a
  end.

(** The reader [handleApiCall] hands the body to, by the mode it captured. *)
Definition reader_of (parse : JSString -> option JSValue) (m : ApiMode)
  (reads : list (list byte)) : list ClientEvent :=
  match m with
  | signal => []
  | heartbeat => handleSSEResponse parse reads
  | stream | chunked => handleStreamResponse parse reads
  end.

(** What the user is told when the fetch resolves with a status that is not
    a success. *)
Definition statusMessage (status : Z) : JSString :=
  if (status =? 499)%Z then js "Request was cancelled by server"
  else httpErrorMessage status.

(** The state between two reads of an undisturbed request: the current
    request alone is in flight, awaiting [a], its signal not fired. *)
Definition reading (c : Client) (a : Await) : Prop :=
  exists m, tasks c = [{| currentRequestId := requestIdRef c; task_mode := m;
                          awaiting := a |}]
  /\ signal_aborted c (requestIdRef c) = false.

(** An event of the heartbeat schedule other than the two after which the
    handler calls [controller.close()] on a stream that is no longer
    readable: the peer cancelling the stream, and the main delay failing
    with an error that is no [AbortError]. *)
Definition benign (e : HBEvent) : bool :=
  match e with
  | PeerCancel | DelaySettles OtherError => false
  | _ => true
  end.

(** The stream loop run in binary64 for duration [z] makes exactly five
    ticks, with progress 20, 40, 60, 80, 100, and ends at elapsed time
    [z]. *)
Definition five_ticks_to_100 (z : Z) : bool :=
  match Binary64.ticks 6 (Binary64.intervalMs (Binary64.of_Z z))
          (Binary64.of_Z z) (Binary64.of_Z 0) with
  | Some [(p1, _); (p2, _); (p3, _); (p4, _); (p5, e5)] =>
      SFeqb p1 (Binary64.of_Z 20) && SFeqb p2 (Binary64.of_Z 40)
      && SFeqb p3 (Binary64.of_Z 60) && SFeqb p4 (Binary64.of_Z 80)
      && SFeqb p5 (Binary64.of_Z 100) && SFeqb e5 (Binary64.of_Z z)
  | _ => false
  end.

(** The progress value the exact loop gives at elapsed time [t] of [z], both
    integers: [100 * t / z] rounded, ties upwards. *)
Definition exactProgress (z t : Z) : Z := (200 * t + z) / (2 * z).
(** * Properties *)

Unset Implicit Arguments.
Local Open Scope Q_scope.

Lemma JSString_eqb_spec (a b : JSString) : reflect (a = b) (JSString_eqb a b).
Proof.
  revert b; induction a as [|x a IH]; intros [|y b]; simpl;
    try (constructor; congruence).
  destruct (N.eqb_spec x y) as [->|Hn]; simpl.
  - destruct (IH b) as [->|Hn]; constructor; congruence.
  - constructor; congruence.
Qed.

Example parseInt_5000 : parseInt (js "5000") = num_of_Z 5000.
Proof. reflexivity. Qed.

Example parseInt_abc : parseInt (js "abc") = NaN.
Proof. reflexivity. Qed.

Example parseInt_plus7 : parseInt (js "+7") = num_of_Z 7.
Proof. reflexivity. Qed.

Example parseInt_hex : parseInt (js "0x1F") = num_of_Z 31.
Proof. reflexivity. Qed.

Example parseInt_12px : parseInt (js " 12px") = num_of_Z 12.
Proof. reflexivity. Qed.

Example Z_toString_5000 : Z_toString 5000 = js "5000".
Proof. reflexivity. Qed.

Example Z_toString_neg : Z_toString (-30) = js "-30".
Proof. reflexivity. Qed.

(** ** Numbers *)

Lemma Qred_inject_Z (z : Z) : Qred (inject_Z z) = inject_Z z.
Proof.
  apply Qred_identity. simpl. apply Z.gcd_1_r.
Qed.

Lemma Qred_eq_inject_Z (q : Q) (z : Z) : q == inject_Z z -> Qred q = inject_Z z.
Proof.
  intros H. rewrite <- (Qred_inject_Z z). now apply Qred_complete.
Qed.

Lemma js_lt_Num (x y : Q) : js_lt (Num x) (Num y) = true <-> x < y.
Proof.
  unfold js_lt. rewrite Qlt_alt. destruct (x ?= y); split; congruence.
Qed.

Lemma js_lt_Num_false (x y : Q) : js_lt (Num x) (Num y) = false <-> y <= x.
Proof.
  rewrite <- not_true_iff_false, js_lt_Num. split.
  - apply Qnot_lt_le.
  - apply Qle_not_lt.
Qed.

Lemma tickLoop_more_fuel env d i pu cu fuel :
  forall k e r, tickLoop env d i pu cu fuel k e = Some r ->
  forall m, tickLoop env d i pu cu (fuel + m) k e = Some r.
Proof.
  induction fuel as [|fuel IH]; intros k e r H m; simpl in *; [discriminate|].
  destruct (js_lt e d); [|exact H].
  destruct (delay env k); try exact H.
  destruct (enqueue_throws env k); [exact H|].
  destruct (tickLoop env d i pu cu fuel (S k) _) as [r'|] eqn:E; [|discriminate].
  now rewrite (IH _ _ _ E m).
Qed.

Lemma tickLoop_S env d i pu cu fuel k e :
  tickLoop env d i pu cu (S fuel) k e =
  if js_lt e d then
    match delay env k with
    | AbortError => Some {| emitted := []; ending := ClosedOnAbort |}
    | OtherError => Some {| emitted := []; ending := ErroredEnd |}
    | Elapsed =>
        let elapsed := js_add e (Math_min i (js_sub d e)) in
        if enqueue_throws env k
        then Some {| emitted := []; ending := ClosedOnWriteError |}
        else option_map
               (emit (pu k (Math_round (js_mul (js_div elapsed d) (num_of_Z 100)))
                        elapsed))
               (tickLoop env d i pu cu fuel (S k) elapsed)
    end
  else Some {| emitted := [cu k]; ending := Completed |}.
Proof. reflexivity. Qed.

(** progress at the end *)
Lemma progress_full (d : Q) : 0 < d ->
  Math_round (js_mul (js_div (Num d) (Num d)) (num_of_Z 100)) = num_of_Z 100.
Proof.
  intros Hd. unfold js_div.
  destruct (Qeq_bool d 0) eqn:E.
  - apply Qeq_bool_iff in E. lra.
  - unfold js_mul, num_of_Z, Math_round. f_equal. f_equal.
    assert (H : Qred (Qred (d / d) * inject_Z 100) + (1 # 2) == 201 # 2).
    { rewrite !Qred_correct. field. lra. }
    rewrite H. reflexivity.
Qed.

Section TickLoopFacts.
Variable env : Env.
Variable z : Z.
Variable I : Q.
Variable pu : nat -> number -> number -> Unit.
Variable cu : nat -> Unit.
Hypothesis Hz : (0 < z)%Z.
Hypothesis HI : 0 < I.
Hypothesis Hdelay : forall k, delay env k = Elapsed.
Hypothesis Hwrite : forall k, enqueue_throws env k = false.

Let d : Q := inject_Z z.

Lemma d_pos : 0 < d.
Proof. unfold d. replace 0 with (inject_Z 0) by reflexivity. now rewrite <- Zlt_Qlt. Qed.

(** One iteration: the new [elapsed] is below the duration, and nearer
    to it by a whole interval, or it is the duration itself. *)
Lemma tick_advance (e : Q) :
  0 <= e -> e < d ->
  exists e', js_add (Num e) (Math_min (Num I) (js_sub (Num d) (Num e))) = Num e'
    /\ 0 <= e' /\ e < e'
    /\ ((e' < d /\ e' == e + I) \/ (Num e' = Num d /\ d - e <= I)).
Proof.
  intros He Hlt. unfold js_sub, Math_min.
  destruct (Qle_bool I (Qred (d - e))) eqn:E.
  - apply Qle_bool_iff in E. rewrite Qred_correct in E.
    exists (Qred (e + I)). split; [reflexivity|].
    pose proof (Qred_correct (e + I)) as Hr.
    split; [lra|]. split; [lra|].
    destruct (Qlt_le_dec (e + I) d) as [Hs|Hs].
    + left. split; lra.
    + right. split; [|lra].
      f_equal. apply Qred_eq_inject_Z. fold d. lra.
  - assert (H : ~ I <= Qred (d - e)).
    { intros H. apply Qle_bool_iff in H. congruence. }
    pose proof (Qred_correct (d - e)) as Hr1.
    pose proof (Qred_correct (e + Qred (d - e))) as Hr2.
    exists (Qred (e + Qred (d - e))). split; [reflexivity|].
    split; [lra|]. split; [lra|].
    right. split; [|lra].
    f_equal. apply Qred_eq_inject_Z. fold d. lra.
Qed.

Lemma tickLoop_uncancelled (n : nat) :
  forall k e, 0 <= e -> e <= d -> d - e <= inject_Z (Z.of_nat n) * I ->
  exists ps,
    tickLoop env (Num d) (Num I) pu cu (S n) k (Num e)
    = Some {| emitted := ps ++ [cu (k + List.length ps)%nat]; ending := Completed |}
    /\ Forall (fun u => exists j p e', u = pu j p (Num e') /\ e' <= d) ps
    /\ (e < d -> exists ps',
          ps = ps' ++ [pu (k + List.length ps')%nat (num_of_Z 100) (Num d)])
    /\ (d <= e -> ps = []).
Proof.
  induction n as [|n IH]; intros k e He Hed Hn.
  - exists []. cbn [tickLoop].
    assert (Hde : d <= e) by (change (inject_Z (Z.of_nat 0)) with 0 in Hn; lra).
    rewrite (proj2 (js_lt_Num_false e d) Hde). simpl.
    rewrite Nat.add_0_r. repeat split; auto. intros; lra.
  - rewrite tickLoop_S. destruct (js_lt (Num e) (Num d)) eqn:Elt.
    + apply js_lt_Num in Elt.
      destruct (tick_advance e He Elt) as (e' & Hadd & He' & Hee' & Hcase).
      rewrite Hdelay, Hwrite. cbv zeta. rewrite Hadd.
      assert (He'd : e' <= d).
      { destruct Hcase as [[H _]|[H _]]; [lra|]. injection H as ->. lra. }
      assert (Hn' : d - e' <= inject_Z (Z.of_nat n) * I).
      { rewrite Nat2Z.inj_succ in Hn. unfold Z.succ in Hn.
        rewrite inject_Z_plus in Hn.
        destruct Hcase as [[_ H]|[H _]].
        - rewrite H. change (inject_Z 1) with 1 in Hn. lra.
        - injection H as ->.
          assert (0 <= inject_Z (Z.of_nat n) * I).
          { apply Qmult_le_0_compat; [|lra].
            change 0 with (inject_Z 0). rewrite <- Zle_Qle. lia. }
          lra. }
      destruct (IH (S k) e' He' He'd Hn') as (ps & Hrun & Hall & Hlast & Hnil).
      rewrite Hrun. cbn [option_map emit emitted ending].
      eexists (_ :: ps). split; [|split; [|split]].
      * cbn [app List.length]. rewrite Nat.add_succ_r. reflexivity.
      * constructor; [|exact Hall]. eexists _, _, e'. split; [reflexivity|exact He'd].
      * intros _. destruct Hcase as [[Hlt' _]|[Heq _]].
        -- destruct (Hlast Hlt') as (ps' & ->).
           eexists (_ :: ps'). cbn [app List.length].
           rewrite Nat.add_succ_r. reflexivity.
        -- injection Heq as ->. rewrite (Hnil (Qle_refl d)).
           exists []. cbn [app List.length]. rewrite Nat.add_0_r.
           now rewrite (progress_full d d_pos).
      * intros H; lra.
    + apply js_lt_Num_false in Elt. exists []. simpl. rewrite Nat.add_0_r.
      repeat split; auto. intros; lra.
Qed.

Lemma enough_ticks :
  d - 0 <= inject_Z (Z.of_nat (Z.to_nat (Qceiling (d / I)))) * I.
Proof.
  pose proof d_pos as Hd.
  assert (Hc : d / I <= inject_Z (Qceiling (d / I))) by apply Qle_ceiling.
  assert (H0 : (0 <= Qceiling (d / I))%Z).
  { rewrite Zle_Qle. change (inject_Z 0) with 0. eapply Qle_trans; [|exact Hc].
    apply Qle_shift_div_l; lra. }
  rewrite Z2Nat.id by exact H0.
  assert (Hq : d == d / I * I) by (field; lra).
  apply Qle_trans with (d / I * I); [lra|].
  apply Qmult_le_compat_r; [exact Hc|lra].
Qed.
End TickLoopFacts.

(** ** Lists of units *)

Lemma last_map_Some {A : Type} (l : list A) (x : A) :
  last (map Some (l ++ [x])) None = Some x.
Proof.
  rewrite map_app. simpl. apply last_last.
Qed.

Lemma last_progress_app (us vs : list Unit) :
  progresses vs = [] -> last_progress (us ++ vs) = last_progress us.
Proof.
  intros H. unfold last_progress, progresses in *.
  now rewrite flat_map_app, H, app_nil_r.
Qed.

Lemma last_elapsed_app (us vs : list Unit) :
  elapseds vs = [] -> last_elapsed (us ++ vs) = last_elapsed us.
Proof.
  intros H. unfold last_elapsed, elapseds in *.
  now rewrite flat_map_app, H, app_nil_r.
Qed.

Lemma last_progress_snoc (us : list Unit) (u : Unit) (p : number) :
  progress_of u = Some p -> last_progress (us ++ [u]) = Some p.
Proof.
  intros H. unfold last_progress, progresses. rewrite flat_map_app. simpl. rewrite H.
  simpl. apply last_map_Some.
Qed.

Lemma last_elapsed_snoc (us : list Unit) (u : Unit) (e : number) :
  elapsed_of u = Some e -> last_elapsed (us ++ [u]) = Some e.
Proof.
  intros H. unfold last_elapsed, elapseds. rewrite flat_map_app. simpl. rewrite H.
  simpl. apply last_map_Some.
Qed.

Lemma count_units_app (p : Unit -> bool) (us vs : list Unit) :
  count_units p (us ++ vs) = (count_units p us + count_units p vs)%nat.
Proof.
  unfold count_units. now rewrite filter_app, length_app.
Qed.

Lemma count_units_none (p : Unit -> bool) (us : list Unit) :
  Forall (fun u => p u = false) us -> count_units p us = 0%nat.
Proof.
  unfold count_units. induction 1 as [|u us Hu _ IH]; simpl; [reflexivity|].
  now rewrite Hu.
Qed.

(** ** Runs of the tick loop *)

(** When the guard fails at once, the loop gives the completion unit and
    nothing else, whatever the environment does. *)
Lemma tickLoop_no_tick env d i pu cu fuel :
  js_lt (num_of_Z 0) d = false ->
  tickLoop env d i pu cu (S fuel) 0 (num_of_Z 0)
  = Some {| emitted := [cu 0%nat]; ending := Completed |}.
Proof.
  intros H. rewrite tickLoop_S. now rewrite H.
Qed.

Lemma js_lt_zero_nonpos (z : Z) :
  (z <= 0)%Z -> js_lt (num_of_Z 0) (num_of_Z z) = false.
Proof.
  intros H. apply js_lt_Num_false. now rewrite <- Zle_Qle.
Qed.

Section TickRun.
Variable env : Env.
Variable z : Z.
Variable I : Q.
Variable pu : nat -> number -> number -> Unit.
Variable cu : nat -> Unit.
Variable s0 : Unit.
Hypothesis Hz : (0 < z)%Z.
Hypothesis HI : 0 < I.
Hypothesis Hdelay : forall k, delay env k = Elapsed.
Hypothesis Hwrite : forall k, enqueue_throws env k = false.
Hypothesis Hpu_p : forall j p e, progress_of (pu j p e) = Some p.
Hypothesis Hpu_e : forall j p e, elapsed_of (pu j p e) = Some e.
Hypothesis Hpu_c : forall j p e, is_complete (pu j p e) = false.
Hypothesis Hcu_c : forall k, is_complete (cu k) = true.
Hypothesis Hcu_p : forall k, progress_of (cu k) = None.
Hypothesis Hcu_e : forall k, elapsed_of (cu k) = None.
Hypothesis Hs0_c : is_complete s0 = false.
Hypothesis Hs0_p : progress_of s0 = None.
Hypothesis Hs0_e : elapsed_of s0 = None.

Lemma elapseds_bounded (ps : list Unit) :
  Forall (fun u => exists j p e', u = pu j p (Num e') /\ e' <= inject_Z z) ps ->
  Forall (fun e => js_lt (num_of_Z z) e = false) (elapseds ps).
Proof.
  induction 1 as [|u ps (j & p & e' & -> & Hle) _ IH]; simpl; [constructor|].
  rewrite Hpu_e. simpl. constructor; [|exact IH].
  now apply js_lt_Num_false.
Qed.

Lemma tick_run_completes :
  exists fuel0, forall fuel, (fuel0 <= fuel)%nat ->
  exists us k,
    option_map (emit s0)
      (tickLoop env (num_of_Z z) (Num I) pu cu fuel 0 (num_of_Z 0))
    = Some {| emitted := us ++ [cu k]; ending := Completed |}
    /\ count_units is_complete (us ++ [cu k]) = 1%nat
    /\ last_progress (us ++ [cu k]) = Some (num_of_Z 100)
    /\ last_elapsed (us ++ [cu k]) = Some (num_of_Z z)
    /\ Forall (fun e => js_lt (num_of_Z z) e = false) (elapseds (us ++ [cu k])).
Proof.
  pose proof (d_pos z Hz) as Hd.
  set (n := Z.to_nat (Qceiling (inject_Z z / I))).
  destruct (tickLoop_uncancelled env z I pu cu Hz HI Hdelay Hwrite n 0%nat 0)
    as (ps & Hrun & Hall & Hlast & _).
  { apply Qle_refl. }
  { apply Qlt_le_weak, Hd. }
  { apply enough_ticks; assumption. }
  destruct (Hlast Hd) as (ps' & Hps).
  exists (S n). intros fuel Hfuel.
  exists (s0 :: ps), (0 + List.length ps)%nat.
  replace fuel with (S n + (fuel - S n))%nat by lia.
  unfold num_of_Z at 1 2.
  rewrite (tickLoop_more_fuel _ _ _ _ _ _ _ _ _ Hrun). cbn [option_map emit emitted ending app].
  split; [reflexivity|].
  assert (Hc : Forall (fun u => is_complete u = false) ps).
  { eapply Forall_impl; [|exact Hall]. intros u (j & p & e' & -> & _).
    apply Hpu_c. }
  split; [|split; [|split]].
  - change (s0 :: ps ++ [cu (0 + List.length ps)%nat])
      with ([s0] ++ ps ++ [cu (0 + List.length ps)%nat]).
    rewrite !count_units_app, (count_units_none _ ps Hc).
    unfold count_units. simpl. now rewrite Hs0_c, Hcu_c.
  - change (s0 :: ps ++ [cu (0 + List.length ps)%nat])
      with ((s0 :: ps) ++ [cu (0 + List.length ps)%nat]).
    rewrite last_progress_app by (unfold progresses; simpl; now rewrite Hcu_p).
    rewrite Hps. change (s0 :: ps' ++ ?l) with ((s0 :: ps') ++ l).
    apply last_progress_snoc, Hpu_p.
  - change (s0 :: ps ++ [cu (0 + List.length ps)%nat])
      with ((s0 :: ps) ++ [cu (0 + List.length ps)%nat]).
    rewrite last_elapsed_app by (unfold elapseds; simpl; now rewrite Hcu_e).
    rewrite Hps. change (s0 :: ps' ++ ?l) with ((s0 :: ps') ++ l).
    apply last_elapsed_snoc, Hpu_e.
  - unfold elapseds. simpl. rewrite Hs0_e. simpl.
    rewrite flat_map_app. simpl. rewrite Hcu_e, app_nil_r.
    now apply elapseds_bounded.
Qed.
End TickRun.

(** ** Runs of the heartbeat machine *)

Lemma hb_ticks env d (n : nat) :
  forall s, hb_stream s = Readable -> timer_registered s = true ->
  exists hbs,
    let s' := fold_left (hb_step env d) (repeat Tick n) s in
    hb_queue s' = hb_queue s ++ hbs
    /\ List.length hbs = n
    /\ Forall (fun u => exists ts, u = SSEHeartbeat ts) hbs
    /\ hb_stream s' = Readable
    /\ timer_registered s' = true
    /\ heartbeatInterval s' = heartbeatInterval s
    /\ delay_pending s' = delay_pending s
    /\ hb_end s' = hb_end s
    /\ uncaught s' = uncaught s.
Proof.
  induction n as [|n IH]; intros s Hr Ht.
  - exists []. simpl. rewrite app_nil_r. repeat split; auto.
  - simpl repeat. cbn [fold_left].
    assert (Hstep : hb_step env d s Tick
                    = {| hb_stream := Readable;
                         hb_queue := hb_queue s ++ [SSEHeartbeat (now env (hb_clock s))];
                         heartbeatInterval := heartbeatInterval s;
                         timer_registered := true;
                         delay_pending := delay_pending s;
                         hb_end := hb_end s; uncaught := uncaught s;
                         hb_clock := S (hb_clock s);
                         hb_trace := hb_trace s
                           ++ [ActEnqueue (SSEHeartbeat (now env (hb_clock s)))] |}).
    { unfold hb_step. rewrite Ht. unfold hb_enqueue, hb_tick_clock. simpl.
      rewrite Hr. now rewrite Ht. }
    rewrite Hstep.
    match goal with
    | |- context [fold_left _ _ ?s1] =>
        destruct (IH s1 eq_refl eq_refl)
          as (hbs & Hq & Hlen & Hall & Hr' & Ht' & Hi' & Hd' & He' & Hu')
    end.
    exists (SSEHeartbeat (now env (hb_clock s)) :: hbs). cbv zeta in *.
    rewrite Hq. cbn [hb_queue heartbeatInterval delay_pending hb_end uncaught] in *.
    rewrite <- app_assoc. repeat split; auto.
    + simpl. now rewrite Hlen.
    + constructor; eauto.
Qed.

Lemma hb_uncancelled env d (n : nat) :
  exists hbs ts,
    let s := hb_run env d (repeat Tick n ++ [DelaySettles Elapsed]) in
    hb_queue s = SSEStart (now env 0) :: hbs ++ [SSEComplete d ts]
    /\ List.length hbs = n
    /\ Forall (fun u => exists ts, u = SSEHeartbeat ts) hbs
    /\ hb_end s = Completed
    /\ hb_stream s = StreamClosed
    /\ timer_registered s = false
    /\ uncaught s = false.
Proof.
  unfold hb_run. rewrite fold_left_app.
  destruct (hb_ticks env d n (hb_init env) eq_refl eq_refl)
    as (hbs & Hq & Hlen & Hall & Hr & Ht & Hi & Hd & He & Hu0).
  cbv zeta in *.
  set (s := fold_left (hb_step env d) (repeat Tick n) (hb_init env)) in *.
  exists hbs, (now env (hb_clock (hb_clear s))).
  cbn [fold_left hb_step]. rewrite Hd. cbn [hb_init delay_pending].
  assert (Hc : hb_stream (hb_tick_clock (hb_clear s)) = Readable).
  { unfold hb_clear. destruct (heartbeatInterval s); simpl; exact Hr. }
  unfold hb_enqueue. rewrite Hc.
  unfold hb_close, hb_settle. cbn.
  assert (Hq' : hb_queue (hb_clear s) = hb_queue s).
  { unfold hb_clear. now destruct (heartbeatInterval s). }
  assert (Hu : uncaught (hb_clear s) = uncaught s).
  { unfold hb_clear. now destruct (heartbeatInterval s). }
  assert (Htr : timer_registered (hb_clear s) = false).
  { unfold hb_clear. rewrite Hi. reflexivity. }
  rewrite Hq', Hq, Htr, Hu, Hu0. cbn [hb_init hb_queue app].
  repeat split; auto.
Qed.

(** ** The route *)

Lemma stream_interval (z : Z) :
  (0 < z)%Z ->
  exists I, Math_min (num_of_Z 1000) (js_div (num_of_Z z) (num_of_Z 5)) = Num I
            /\ 0 < I.
Proof.
  intros Hz. pose proof (d_pos z Hz) as Hd.
  unfold num_of_Z, js_div. change (Qeq_bool (inject_Z 5) 0) with false.
  unfold Math_min.
  destruct (Qle_bool (inject_Z 1000) (Qred (inject_Z z / inject_Z 5))).
  - exists (inject_Z 1000). split; [reflexivity|reflexivity].
  - exists (Qred (inject_Z z / inject_Z 5)). split; [reflexivity|].
    rewrite Qred_correct. apply Qlt_shift_div_l; [reflexivity|].
    change (0 * inject_Z 5) with 0. exact Hd.
Qed.


Lemma quiet_uncancelled (n : nat) : uncancelled (quiet n).
Proof.
  repeat split. now exists n.
Qed.



(** Nor does C4 hold of every duration [parseInt] can return. A digit
    string long enough reads, in binary64, as [Infinity]. The loop then
    makes its first tick, since [0 < Infinity], and every progress value it
    computes, whatever the elapsed time has become, is
    [Math.round((elapsed / Infinity) * 100)], which is 0 or [NaN] and never
    100: if the loop ended, its last progress value would not be 100. *)
Lemma infinite_duration_never_shows_100 :
  Binary64.of_Z (10 ^ 309) = S754_infinity false
  /\ forall interval fuel elapsed l,
       Binary64.ticks fuel interval (S754_infinity false) elapsed = Some l ->
       (elapsed = Binary64.of_Z 0 -> l <> [])
       /\ Forall (fun pe => fst pe = S754_nan
                            \/ exists s, fst pe = S754_zero s) l.
Proof.
  split; [vm_compute; reflexivity|].
  intros interval fuel.
  induction fuel as [|fuel IH]; intros elapsed l H; [discriminate|].
  cbn [Binary64.ticks] in H.
  destruct (SFltb elapsed (S754_infinity false)) eqn:Elt.
  - set (e' := Binary64.add elapsed
                 (Binary64.min interval
                    (Binary64.sub (S754_infinity false) elapsed))) in *.
    destruct (Binary64.ticks fuel interval (S754_infinity false) e')
      as [l'|] eqn:El; [|discriminate].
    injection H as <-. split; [discriminate|].
    constructor; [|exact (proj2 (IH e' l' El))].
    cbn [fst]. destruct e' as [s| s| |s m e]; cbn.
    + right. now exists (xorb (xorb s false) false).
    + now left.
    + now left.
    + right. now exists (xorb (xorb s false) false).
  - injection H as <-. split; [|constructor].
    intros ->. discriminate.
Qed.

(** C5. For every integer duration [z <= 0], whatever the environment does,
    the stream and the chunked handlers emit the start unit followed by the
    completion unit and close the stream: one start unit, one completion
    unit, no progress unit. *)
Theorem nonpositive_duration_emits_start_and_completion
  (z : Z) (env : Env) (fuel : nat) :
  (z <= 0)%Z ->
  let s := [StreamStart (now env 0); StreamComplete (num_of_Z z) (now env 1)] in
  let c := [ChunkedStarting; ChunkedComplete (num_of_Z z) (now env 0)] in
  handleStreamMode_run (S fuel) env (num_of_Z z)
  = Some {| emitted := s; ending := Completed |}
  /\ handleChunkedMode_run (S fuel) env (num_of_Z z)
     = Some {| emitted := c; ending := Completed |}
  /\ (count_units is_start s, count_units is_progress s,
      count_units is_complete s) = (1, 0, 1)%nat
  /\ (count_units is_start c, count_units is_progress c,
      count_units is_complete c) = (1, 0, 1)%nat.
Proof.
  intros Hz s c. unfold handleStreamMode_run, handleChunkedMode_run.
  rewrite !tickLoop_no_tick by now apply js_lt_zero_nonpos.
  repeat split.
Qed.

Lemma nonpositive_duration_emits_start_and_completion_witness :
  (-5 <= 0)%Z /\
  handleStreamMode_run 1 (quiet 0) (num_of_Z (-5))
  = Some {| emitted := [StreamStart (now (quiet 0) 0);
                        StreamComplete (num_of_Z (-5)) (now (quiet 0) 1)];
            ending := Completed |}.
Proof.
  split; [lia|].
  apply (nonpositive_duration_emits_start_and_completion (-5) (quiet 0) 0).
  lia.
Defined.

(** ** Heartbeat mode: the interval never outlives a close *)

Lemma scan_app (b : bool) (t1 t2 : list HBAction) :
  scan b (t1 ++ t2) = match scan b t1 with
                      | Some b' => scan b' t2
                      | None => None
                      end.
Proof.
  revert b; induction t1 as [|a t1 IH]; intros b; simpl; [reflexivity|].
  destruct a; try apply IH. destruct b; [reflexivity|apply IH].
Qed.

Lemma scan_timer_after (tr : list HBAction) :
  forall b b', scan b tr = Some b' ->
  b' = fold_left (fun b a => match a with
                             | ActSetInterval => true
                             | ActClearInterval => false
                             | _ => b
                             end) tr b.
Proof.
  induction tr as [|a tr IH]; intros b b' H; simpl in *.
  - congruence.
  - destruct a; try (now apply IH). destruct b; [discriminate|now apply IH].
Qed.

Lemma scan_close_cleared (tr pre post : list HBAction) (b : bool) :
  scan false tr = Some b -> tr = pre ++ ActClose :: post ->
  timer_after pre = false.
Proof.
  intros H ->. rewrite scan_app in H.
  destruct (scan false pre) as [b1|] eqn:E; [|discriminate].
  simpl in H. destruct b1; [discriminate|].
  symmetry. now apply (scan_timer_after pre false false).
Qed.

Lemma hb_inv_clear (s : HBState) :
  hb_inv s -> hb_inv (hb_clear s) /\ timer_registered (hb_clear s) = false.
Proof.
  intros (Hv & Hs & Hd). unfold hb_inv, hb_clear.
  destruct (heartbeatInterval s) eqn:E.
  - split; [|reflexivity]. repeat split; simpl.
    rewrite scan_app, Hs. reflexivity.
  - split; [|congruence]. repeat split; try assumption; congruence.
Qed.

Lemma hb_inv_close (s : HBState) :
  hb_inv s -> timer_registered s = false -> hb_inv (hb_close s).
Proof.
  intros (Hv & Hs & Hd) Ht. repeat split; simpl; try assumption.
  rewrite scan_app, Hs, Ht. reflexivity.
Qed.

Lemma hb_inv_error (s : HBState) : hb_inv s -> hb_inv (hb_error s).
Proof.
  intros (Hv & Hs & Hd). repeat split; simpl; try assumption.
  rewrite scan_app, Hs. reflexivity.
Qed.

Lemma hb_inv_settle (e : StreamEnd) (s : HBState) :
  hb_inv s -> timer_registered s = false -> hb_inv (hb_settle e s).
Proof.
  intros (Hv & Hs & Hd) Ht. repeat split; simpl; auto.
Qed.

Lemma hb_inv_tick_clock (s : HBState) : hb_inv s -> hb_inv (hb_tick_clock s).
Proof.
  intros (Hv & Hs & Hd). repeat split; simpl; assumption.
Qed.

Lemma hb_inv_enqueue (u : Unit) (s s' : HBState) :
  hb_inv s -> hb_enqueue u s = Some s' ->
  hb_inv s' /\ timer_registered s' = timer_registered s.
Proof.
  intros (Hv & Hs & Hd) H. unfold hb_enqueue in H.
  destruct (hb_stream s); try discriminate. injection H as <-.
  split; [|reflexivity]. repeat split; simpl; try assumption.
  rewrite scan_app, Hs. reflexivity.
Qed.

Lemma hb_inv_catch (abort : bool) (s : HBState) :
  hb_inv s -> hb_inv (hb_catch abort s)
              /\ delay_pending (hb_catch abort s) = false.
Proof.
  intros H. destruct (hb_inv_clear s H) as (Hc & Ht).
  unfold hb_catch. destruct abort.
  - split; [|reflexivity]. apply hb_inv_close; [|exact Ht].
    now apply hb_inv_settle.
  - split; [|reflexivity]. apply hb_inv_close; [|exact Ht].
    apply hb_inv_error. now apply hb_inv_settle.
Qed.

Lemma hb_inv_step env d (s : HBState) (e : HBEvent) :
  hb_inv s -> hb_inv (hb_step env d s e).
Proof.
  intros H. destruct e as [| |o]; cbn [hb_step].
  - destruct (timer_registered s) eqn:Et; [|exact H].
    destruct (hb_enqueue _ (hb_tick_clock s)) as [s'|] eqn:E.
    + now apply (hb_inv_enqueue _ _ _ (hb_inv_tick_clock s H) E).
    + destruct (hb_inv_clear _ (hb_inv_tick_clock s H)) as (Hc & Ht).
      now apply hb_inv_close.
  - destruct H as (Hv & Hs & Hd). repeat split; simpl; assumption.
  - destruct (delay_pending s) eqn:Ed; [|exact H].
    destruct o; try now apply hb_inv_catch.
    destruct (hb_inv_clear s H) as (Hc & Ht).
    destruct (hb_enqueue _ (hb_tick_clock (hb_clear s))) as [s'|] eqn:E.
    + destruct (hb_inv_enqueue _ _ _ (hb_inv_tick_clock _ Hc) E) as (Hi & Ht').
      apply hb_inv_close; [apply hb_inv_settle|]; try assumption;
        simpl; now rewrite Ht'.
    + now apply hb_inv_catch, hb_inv_tick_clock.
Qed.

Lemma hb_inv_run env d (evs : list HBEvent) : hb_inv (hb_run env d evs).
Proof.
  unfold hb_run.
  assert (H0 : hb_inv (hb_init env)) by (repeat split; discriminate).
  revert H0. generalize (hb_init env).
  induction evs as [|e evs IH]; intros s Hs; simpl; [exact Hs|].
  apply IH. now apply hb_inv_step.
Qed.

Lemma hb_settles env d (s : HBState) (o : DelayOutcome) :
  delay_pending s = true ->
  delay_pending (hb_step env d s (DelaySettles o)) = false.
Proof.
  intros Hp. cbn [hb_step]. rewrite Hp.
  destruct o; try (unfold hb_catch; now destruct (heartbeatInterval s)).
  destruct (hb_enqueue _ _); [reflexivity|].
  unfold hb_catch. cbn. reflexivity.
Qed.

(** C7. In every state the heartbeat handler can reach, under any order of
    interval ticks, cancellations by the peer and settlements of the main
    delay: once the main delay has settled (elapsed, aborted or failed) the
    interval is no longer registered; the main delay settles at the first
    event that ends it; every [controller.close()] the handler has made was
    made with the interval cleared; and a tick on a cleared interval does
    nothing. *)
Theorem heartbeat_interval_cleared_before_close
  (env : Env) (d : number) (evs : list HBEvent) :
  let s := hb_run env d evs in
  (delay_pending s = false -> timer_registered s = false)
  /\ (forall o, delay_pending (hb_step env d s (DelaySettles o)) = false
                /\ timer_registered (hb_step env d s (DelaySettles o)) = false)
  /\ (forall pre post, hb_trace s = pre ++ ActClose :: post ->
                       timer_after pre = false)
  /\ (timer_registered s = false -> hb_step env d s Tick = s).
Proof.
  intros s. pose proof (hb_inv_run env d evs) as Hinv. fold s in Hinv.
  destruct Hinv as (Hv & Hs & Hd).
  split; [exact Hd|]. split; [|split].
  - intros o.
    assert (Hp : delay_pending (hb_step env d s (DelaySettles o)) = false).
    { destruct (delay_pending s) eqn:E; [now apply hb_settles|].
      cbn [hb_step]. now rewrite E. }
    split; [exact Hp|].
    assert (Hi : hb_inv (hb_step env d s (DelaySettles o))).
    { apply hb_inv_step. repeat split; assumption. }
    destruct Hi as (_ & _ & Hd'). now apply Hd'.
  - intros pre post Htr. exact (scan_close_cleared _ pre post _ Hs Htr).
  - intros Ht. cbn [hb_step]. now rewrite Ht.
Qed.

Lemma heartbeat_interval_cleared_before_close_witness :
  let evs := [Tick; PeerCancel; Tick; DelaySettles AbortError] in
  let s := hb_run (quiet 0) (num_of_Z 30000) evs in
  exists pre post,
    hb_trace s = pre ++ ActClose :: post /\ timer_after pre = false
    /\ timer_registered s = false /\ hb_step (quiet 0) (num_of_Z 30000) s Tick = s.
Proof.
  intros evs s.
  destruct (heartbeat_interval_cleared_before_close
              (quiet 0) (num_of_Z 30000) evs) as (H1 & _ & H3 & H4).
  fold s in H1, H3, H4.
  exists [ActEnqueue (SSEStart (now (quiet 0) 0)); ActSetInterval;
          ActEnqueue (SSEHeartbeat (now (quiet 0) 1)); ActClearInterval],
         [ActClose].
  assert (Htr : hb_trace s =
                [ActEnqueue (SSEStart (now (quiet 0) 0)); ActSetInterval;
                 ActEnqueue (SSEHeartbeat (now (quiet 0) 1)); ActClearInterval]
                ++ ActClose :: [ActClose]) by reflexivity.
  split; [exact Htr|]. split; [exact (H3 _ _ Htr)|].
  split; [apply H1; reflexivity|apply H4, H1; reflexivity].
Defined.

(** ** Signal mode *)

Lemma parseInt_integral (s : JSString) :
  parseInt s = NaN \/ exists z, parseInt s = num_of_Z z.
Proof.
  unfold parseInt.
  destruct (match skipWhiteSpace s with
            | [] => (1%Z, skipWhiteSpace s)
            | c :: r => if (c =? 45)%N then ((-1)%Z, r)
                        else if (c =? 43)%N then (1%Z, r)
                        else (1%Z, skipWhiteSpace s)
            end) as [sign s1].
  destruct (match s1 with
            | z :: x :: r =>
                if ((z =? 48) && ((x =? 120) || (x =? 88)))%N then (16%Z, r)
                else (10%Z, s1)
            | _ => (10%Z, s1)
            end) as [R s2].
  destruct (parseDigits R s2 None); eauto.
Qed.



(** ** A duration that is not a number *)

Lemma tickLoop_fuel_irrelevant env d i pu cu (f1 f2 k : nat) (e : number)
  (r1 r2 : StreamRun) :
  tickLoop env d i pu cu f1 k e = Some r1 ->
  tickLoop env d i pu cu f2 k e = Some r2 -> r1 = r2.
Proof.
  intros H1 H2.
  apply (tickLoop_more_fuel _ _ _ _ _ _ _ _ _) with (m := f2) in H1.
  apply (tickLoop_more_fuel _ _ _ _ _ _ _ _ _) with (m := f1) in H2.
  rewrite Nat.add_comm in H2. congruence.
Qed.

Lemma parseInt_NaN_first_char (c : N) (rest : JSString) :
  isStrWhiteSpaceChar c = false -> c <> 45%N -> c <> 43%N ->
  isDigit c = false ->
  parseInt (c :: rest) = NaN.
Proof.
  intros Hw Hm Hp Hd. unfold parseInt. cbn [skipWhiteSpace]. rewrite Hw.
  apply N.eqb_neq in Hm, Hp. rewrite Hm, Hp.
  assert (H48 : (c =? 48)%N = false).
  { apply N.eqb_neq. intros ->. discriminate. }
  assert (Hdig : parseDigits 10 (c :: rest) None = None).
  { cbn [parseDigits]. unfold digitValue. unfold isDigit in Hd. rewrite Hd.
    destruct ((97 <=? c) && (c <=? 122))%N eqn:E1.
    - apply andb_prop in E1 as [E1 _]. apply N.leb_le in E1.
      destruct (Z.of_N c - 87 <? 10)%Z eqn:E; [|reflexivity].
      apply Z.ltb_lt in E. lia.
    - destruct ((65 <=? c) && (c <=? 90))%N eqn:E2; [|reflexivity].
      apply andb_prop in E2 as [E2 _]. apply N.leb_le in E2.
      destruct (Z.of_N c - 55 <? 10)%Z eqn:E; [|reflexivity].
      apply Z.ltb_lt in E. lia. }
  destruct rest as [|x r]; cbn [andb]; rewrite ?H48; cbn [andb];
    now rewrite Hdig.
Qed.

Lemma no_400_for_a_mode (fuel : nat) (env : Env) (m : ApiMode) (d : number)
  (r : Response) :
  handle fuel env m d = Some r -> status r <> 400%Z.
Proof.
  destruct m; cbn [handle].
  - unfold handleSignalMode. destruct (delay env 0); intros [= <-]; discriminate.
  - unfold handleStreamMode. destruct (handleStreamMode_run fuel env d);
      intros [= <-]; discriminate.
  - intros [= <-]. discriminate.
  - unfold handleChunkedMode. destruct (handleChunkedMode_run fuel env d);
      intros [= <-]; discriminate.
Qed.

Lemma mode_of_name (m : ApiMode) :
  mode_of (or_default (Some (mode_name m)) (js "signal")) = Some m.
Proof. now destruct m. Qed.

(** C10 (amended). A duration parameter on which [parseInt] yields [NaN] is
    not rejected with 400, whatever the mode; in the stream and the chunked
    modes the answer is 200 and the stream carries the start unit followed
    at once by the completion unit, with no progress unit, whatever the
    environment does. *)
Theorem nan_duration_gives_no_progress (env : Env) (fuel : nat) (p : JSString) :
  parseInt (or_default (Some p) (js "5000")) = NaN ->
  GET (S fuel) env (Some (js "stream")) (Some p)
  = Some (streamResponse "application/x-ndjson"
            {| emitted := [StreamStart (now env 0); StreamComplete NaN (now env 1)];
               ending := Completed |})
  /\ GET (S fuel) env (Some (js "chunked")) (Some p)
     = Some (streamResponse "application/x-ndjson"
               {| emitted := [ChunkedStarting; ChunkedComplete NaN (now env 0)];
                  ending := Completed |})
  /\ forall m fuel' r, GET fuel' env (Some (mode_name m)) (Some p) = Some r ->
                       status r <> 400%Z.
Proof.
  intros Hnan. unfold GET. rewrite Hnan.
  change (mode_of (or_default (Some (js "stream")) (js "signal")))
    with (Some stream).
  change (mode_of (or_default (Some (js "chunked")) (js "signal")))
    with (Some chunked).
  cbn [handle]. unfold handleStreamMode, handleChunkedMode,
    handleStreamMode_run, handleChunkedMode_run.
  rewrite !tickLoop_no_tick by reflexivity.
  split; [reflexivity|]. split; [reflexivity|].
  intros m fuel' r. rewrite mode_of_name. apply no_400_for_a_mode.
Qed.

Lemma nan_duration_gives_no_progress_witness :
  parseInt (or_default (Some (js "abc")) (js "5000")) = NaN /\
  GET 1 (quiet 0) (Some (js "stream")) (Some (js "abc"))
  = Some (streamResponse "application/x-ndjson"
            {| emitted := [StreamStart (now (quiet 0) 0);
                           StreamComplete NaN (now (quiet 0) 1)];
               ending := Completed |}).
Proof.
  split; [reflexivity|].
  apply (nan_duration_gives_no_progress (quiet 0) 0 (js "abc")).
  reflexivity.
Defined.

(** C10, as stated, fails on the parameter [+7]: it does not start with a
    digit, yet [parseInt] reads it as 7 and the stream handler emits
    progress units. *)
Lemma leading_sign_is_parsed :
  parseInt (js "+7") = num_of_Z 7
  /\ ~ no_progress_without_leading_digit (js "+7") (quiet 0).
Proof.
  split; [reflexivity|]. intros H.
  destruct (H eq_refl) as (fuel & r & Hr & Hp).
  unfold GET in Hr.
  change (mode_of (or_default (Some (js "stream")) (js "signal")))
    with (Some stream) in Hr.
  change (parseInt (or_default (Some (js "+7")) (js "5000")))
    with (num_of_Z 7) in Hr.
  cbn [handle] in Hr. unfold handleStreamMode, handleStreamMode_run in Hr.
  destruct (tickLoop _ _ _ _ _ fuel 0 _) as [run|] eqn:E; [|discriminate].
  assert (E7 : exists run7,
             tickLoop (quiet 0) (num_of_Z 7)
               (Math_min (num_of_Z 1000) (js_div (num_of_Z 7) (num_of_Z 5)))
               (fun k progress elapsed =>
                  StreamProgress progress elapsed (num_of_Z 7)
                    (now (quiet 0) (S k)))
               (fun k => StreamComplete (num_of_Z 7) (now (quiet 0) (S k)))
               7 0 (num_of_Z 0) = Some run7
             /\ progresses (emitted run7) <> []).
  { eexists. split; [vm_compute; reflexivity|]. vm_compute. discriminate. }
  destruct E7 as (run7 & E7 & Hne).
  rewrite (tickLoop_fuel_irrelevant _ _ _ _ _ _ _ _ _ _ _ E E7) in Hr.
  injection Hr as <-. apply Hne.
  unfold progresses in *. simpl in Hp. exact Hp.
Qed.

(** ** Text: decoding in pieces, splitting in lines *)

Lemma decode_stream_app (a b : list byte) :
  forall d, decode_stream d (a ++ b)
            = let '(d1, t1) := decode_stream d a in
              let '(d2, t2) := decode_stream d1 b in
              (d2, t1 ++ t2).
Proof.
  induction a as [|x a IH]; intros d; simpl.
  - now destruct (decode_stream d b).
  - destruct (decode_byte d x) as [d1 o1]. rewrite IH.
    destruct (decode_stream d1 a) as [d2 o2].
    destruct (decode_stream d2 b) as [d3 o3].
    now rewrite app_assoc.
Qed.

Lemma split_lines_nonempty (s : JSString) : split_lines s <> [].
Proof.
  destruct s as [|c r]; simpl; [discriminate|].
  destruct (c =? LF)%N; [discriminate|].
  destruct (split_lines r); discriminate.
Qed.

Lemma removelast_app_nonempty {A : Type} (l1 l2 : list A) :
  l2 <> [] -> removelast (l1 ++ l2) = l1 ++ removelast l2.
Proof. intros H. now apply removelast_app. Qed.

Lemma last_app_nonempty {A : Type} (l1 l2 : list A) (d : A) :
  l2 <> [] -> last (l1 ++ l2) d = last l2 d.
Proof.
  intros H. induction l1 as [|x l1 IH]; [reflexivity|].
  simpl. destruct (l1 ++ l2) eqn:E; [|exact IH].
  apply app_eq_nil in E as [_ E]. contradiction.
Qed.

(** Splitting a text that arrives in two pieces: the complete lines of the
    first piece, then the lines of what was pending followed by the second
    piece. *)
Lemma split_lines_app (t u : JSString) :
  split_lines (t ++ u)
  = removelast (split_lines t) ++ split_lines (last (split_lines t) [] ++ u).
Proof.
  induction t as [|c r IH]; [reflexivity|].
  cbn [app split_lines]. destruct (c =? LF)%N eqn:Ec.
  - rewrite IH. pose proof (split_lines_nonempty r) as Hne.
    destruct (split_lines r) as [|l ls] eqn:E; [contradiction|]. reflexivity.
  - rewrite IH. pose proof (split_lines_nonempty r) as Hne.
    destruct (split_lines r) as [|l [|l2 ls]] eqn:E; [contradiction| |].
    + cbn [removelast last app split_lines]. now rewrite Ec.
    + cbn [removelast last app]. reflexivity.
Qed.

Lemma split_lines_each (t : JSString) :
  Forall (fun l => split_lines l = [l]) (split_lines t).
Proof.
  induction t as [|c r IH]; simpl; [repeat constructor|].
  destruct (c =? LF)%N eqn:Ec; [constructor; [reflexivity|exact IH]|].
  destruct (split_lines r) as [|l ls]; [repeat constructor; simpl; now rewrite Ec|].
  inversion IH as [|? ? Hl Hls]; subst. constructor; [|exact Hls].
  simpl. now rewrite Ec, Hl.
Qed.

Lemma split_lines_pending (t : JSString) :
  split_lines (last (split_lines t) []) = [last (split_lines t) []].
Proof.
  pose proof (split_lines_each t) as H.
  pose proof (split_lines_nonempty t) as Hne.
  induction H as [|l ls Hl _ IH]; [contradiction|].
  destruct ls as [|l2 ls]; [exact Hl|]. apply IH. discriminate.
Qed.

(** ** The NDJSON reader *)

Section ReaderFacts.
Variable parse : JSString -> option JSValue.

Lemma handleStreamResponse_from_spec (reads : list (list byte)) :
  forall st, split_lines (buffer st) = [buffer st] ->
  handleStreamResponse_from parse st reads
  = flat_map (ndjson_line parse)
      (complete_lines
         (buffer st ++ snd (decode_stream (decoder st) (List.concat reads)))).
Proof.
  unfold complete_lines.
  induction reads as [|value rest IH]; intros st Hb.
  - simpl. now rewrite app_nil_r, Hb.
  - cbn [handleStreamResponse_from List.concat]. unfold handleStreamResponse_read.
    rewrite decode_stream_app.
    destruct (decode_stream (decoder st) value) as [dec text].
    rewrite IH by apply split_lines_pending. cbn [decoder buffer].
    destruct (decode_stream dec (List.concat rest)) as [dec' text'].
    cbn [snd]. rewrite app_assoc, (split_lines_app (buffer st ++ text) text').
    rewrite removelast_app_nonempty by apply split_lines_nonempty.
    now rewrite flat_map_app.
Qed.

Lemma handleStreamResponse_spec (reads : list (list byte)) :
  handleStreamResponse parse reads
  = flat_map (ndjson_line parse) (complete_lines (decoded_stream reads)).
Proof.
  unfold handleStreamResponse. now rewrite handleStreamResponse_from_spec.
Qed.

Lemma handleSSEResponse_spec (reads : list (list byte)) :
  handleSSEResponse parse reads = flat_map (sse_line parse) (sse_lines reads).
Proof.
  unfold handleSSEResponse, sse_lines, handleSSEResponse_read.
  induction reads as [|v rest IH]; [reflexivity|].
  simpl. now rewrite flat_map_app, IH.
Qed.

Lemma ndjson_line_malformed (line : JSString) :
  parse line = None -> ndjson_line parse line = [].
Proof.
  intros H. unfold ndjson_line. rewrite H. now destruct (trim line).
Qed.

Lemma sse_line_malformed (data : JSString) :
  parse data = None -> sse_line parse (js "data: " ++ data) = [].
Proof.
  intros H. unfold sse_line.
  destruct (startsWith (js "data: " ++ data) (js "data: ")); [|reflexivity].
  change (skipn 6 (js "data: " ++ data)) with data. now rewrite H.
Qed.
End ReaderFacts.

(** C2. The NDJSON reader, with any parser for [JSON.parse]: however the
    bytes of a stream are cut into reads, in the middle of a line or of a
    character, the calls to [setResponse] and [setProgress] are those made
    when the whole stream comes in a single read. *)
Theorem ndjson_chunking_invariant
  (parse : JSString -> option JSValue) (reads : list (list byte)) :
  handleStreamResponse parse reads = handleStreamResponse parse [List.concat reads].
Proof.
  rewrite !handleStreamResponse_spec. unfold decoded_stream.
  simpl. now rewrite app_nil_r.
Qed.

Lemma apply_events_error (evs : list ClientEvent) :
  forall c, error (shared (apply_events evs c)) = error (shared c)
            /\ loading (shared (apply_events evs c)) = loading (shared c).
Proof.
  unfold apply_events. induction evs as [|e evs IH]; intros c; [now split|].
  simpl. destruct (IH (apply_event e c)) as (He & Hl).
  rewrite He, Hl. now destruct e.
Qed.

(** C8. For both readers, with any parser for [JSON.parse]: a line on which
    the parser fails contributes no call to [setResponse] or [setProgress],
    and the lines before and after it contribute what they contribute
    without it. The readers are total, no error leaves them, and what they
    call never touches [error] or [loading]. *)
Theorem malformed_unit_is_skipped
  (parse : JSString -> option JSValue) (reads : list (list byte))
  (before after : list JSString) (bad : JSString) :
  parse bad = None ->
  (complete_lines (decoded_stream reads) = before ++ bad :: after ->
   handleStreamResponse parse reads
   = flat_map (ndjson_line parse) before ++ flat_map (ndjson_line parse) after)
  /\ (sse_lines reads = before ++ (js "data: " ++ bad) :: after ->
      handleSSEResponse parse reads
      = flat_map (sse_line parse) before ++ flat_map (sse_line parse) after)
  /\ ndjson_line parse bad = []
  /\ sse_line parse (js "data: " ++ bad) = []
  /\ forall c,
       error (shared (apply_events (handleStreamResponse parse reads) c))
       = error (shared c)
       /\ error (shared (apply_events (handleSSEResponse parse reads) c))
          = error (shared c).
Proof.
  intros Hbad. split; [|split; [|split; [|split]]].
  - intros Hlines.
    rewrite handleStreamResponse_spec, Hlines, flat_map_app. simpl.
    now rewrite ndjson_line_malformed.
  - intros Hlines.
    rewrite handleSSEResponse_spec, Hlines, flat_map_app. cbn [flat_map].
    now rewrite sse_line_malformed.
  - now apply ndjson_line_malformed.
  - now apply sse_line_malformed.
  - intros c. split; apply apply_events_error.
Qed.

Lemma malformed_unit_is_skipped_witness :
  let good1 := jsq "{'status':'progress','progress':42,'elapsed':500}" in
  let good2 := jsq "{'status':'progress','progress':83,'elapsed':1000}" in
  let bad := jsq "{'status':'progress','progress':" in
  let reads := [TextEncoder_encode (good1 ++ [LF]);
                TextEncoder_encode (bad ++ [LF]);
                TextEncoder_encode (good2 ++ [LF])] in
  let frames := [TextEncoder_encode (js "data: " ++ bad ++ [LF]);
                 TextEncoder_encode (jsq "data: {'type':'complete'}")] in
  JSON_parse bad = None
  /\ handleStreamResponse JSON_parse reads
     = [SetProgress (JNumber (num_of_Z 42)); SetProgress (JNumber (num_of_Z 83))]
  /\ handleSSEResponse JSON_parse frames
     = [SetResponse (JObject [(js "type", JString (js "complete"))])].
Proof.
  intros good1 good2 bad reads frames.
  assert (Hbad : JSON_parse bad = None) by reflexivity.
  split; [exact Hbad|]. split.
  - exact (proj1 (malformed_unit_is_skipped JSON_parse reads
                    [good1] [good2] bad Hbad) eq_refl).
  - exact (proj1 (proj2 (malformed_unit_is_skipped JSON_parse frames
                           [] [[]; jsq "data: {'type':'complete'}"] bad Hbad))
             eq_refl).
Defined.

Example ndjson_split_anywhere :
  let text := jsq "{'type':'progress','progress':40,'message':'caf" ++ [233%N]
                ++ jsq "'}" ++ [LF] in
  let bytes := TextEncoder_encode text in
  forallb (fun i =>
             match handleStreamResponse JSON_parse [firstn i bytes; skipn i bytes] with
             | [SetProgress (JNumber (Num q))] => Qeq_bool q 40
             | _ => false
             end) (seq 0 (S (List.length bytes))) = true.
Proof. vm_compute. reflexivity. Qed.

(** C1 (the code at the failing input). The completion frame of heartbeat
    mode, read whole, makes the SSE reader call [setResponse]; the same
    bytes read in two pieces, cut inside the frame, make it call nothing:
    [handleSSEResponse] keeps no pending line between reads. *)
Theorem sse_split_frame_loses_event :
  let frame := TextEncoder_encode
                 (jsq "data: {'type':'complete','mode':'heartbeat'}" ++ [LF; LF]) in
  let first := firstn 20 frame in
  let second := skipn 20 frame in
  first ++ second = frame
  /\ handleSSEResponse JSON_parse [frame]
     = [SetResponse (JObject [(js "type", JString (js "complete"));
                              (js "mode", JString (js "heartbeat"))])]
  /\ handleSSEResponse JSON_parse [first; second] = []
  /\ handleStreamResponse JSON_parse [first; second]
     = handleStreamResponse JSON_parse [frame].
Proof.
  vm_compute. repeat split.
Qed.

(** ** The orchestrator *)

Section OrchestratorFacts.
Variable parse : JSString -> option JSValue.

Lemma finally_stale (id : nat) (c : Client) :
  id <> requestIdRef c -> handleApiCall_finally id c = c.
Proof.
  intros H. unfold handleApiCall_finally.
  now rewrite (proj2 (Nat.eqb_neq _ _) H).
Qed.

(** A superseded invocation resumes without touching anything. *)
Lemma resume_stale (t : Task) (s : Settlement) (c : Client) :
  currentRequestId t <> requestIdRef c -> fst (resume parse t s c) = c.
Proof.
  intros H. pose proof (proj2 (Nat.eqb_neq _ _) H) as E.
  unfold resume, handleApiCall_catch, read_guard.
  destruct (awaiting t), s; cbn [fst]; rewrite ?E; cbn [negb andb orb fst];
    rewrite ?orb_true_r; cbn [fst]; try apply finally_stale; auto.
Qed.

Lemma settle_stale (id : nat) (s : Settlement) (ts : list Task) (c : Client) :
  id <> requestIdRef c -> fst (settle parse id s ts c) = c.
Proof.
  intros H. induction ts as [|t rest IH]; [reflexivity|].
  cbn [settle]. destruct (Nat.eqb_spec (currentRequestId t) id) as [E|E].
  - pose proof (resume_stale t s c) as Hr. rewrite E in Hr.
    destruct (resume parse t s c) as [c' t']. cbn [fst] in *. now apply Hr.
  - destruct (settle parse id s rest c) as [c' rest']. exact IH.
Qed.

Lemma step_settle_stale (c : Client) (id : nat) (s : Settlement) :
  id <> requestIdRef c ->
  shared (step parse c (Settle id s)) = shared c
  /\ requestIdRef (step parse c (Settle id s)) = requestIdRef c
  /\ abortControllerRef (step parse c (Settle id s)) = abortControllerRef c
  /\ aborted (step parse c (Settle id s)) = aborted c.
Proof.
  intros H. cbn [step]. pose proof (settle_stale id s (tasks c) c H) as E.
  destruct (settle parse id s (tasks c) c) as [c' ts]. cbn [fst] in E.
  subst c'. repeat split.
Qed.

Lemma apply_events_requestIdRef (evs : list ClientEvent) :
  forall c, requestIdRef (apply_events evs c) = requestIdRef c.
Proof.
  unfold apply_events. induction evs as [|e evs IH]; intros c; simpl; [reflexivity|].
  rewrite IH. now destruct e.
Qed.

Lemma finally_requestIdRef (id : nat) (c : Client) :
  requestIdRef (handleApiCall_finally id c) = requestIdRef c.
Proof.
  unfold handleApiCall_finally. now destruct (Nat.eqb id (requestIdRef c)).
Qed.

Lemma catch_requestIdRef (id : nat) (e : JSError) (c : Client) :
  requestIdRef (handleApiCall_catch id e c) = requestIdRef c.
Proof.
  unfold handleApiCall_catch. rewrite finally_requestIdRef.
  destruct (negb _); [reflexivity|]. now destruct e.
Qed.

Lemma resume_requestIdRef (t : Task) (s : Settlement) (c : Client) :
  requestIdRef (fst (resume parse t s c)) = requestIdRef c
  /\ forall t', snd (resume parse t s c) = Some t' ->
                currentRequestId t' = currentRequestId t.
Proof.
  unfold resume.
  destruct (awaiting t) eqn:Ea, s; cbn [fst snd];
    repeat match goal with
      | |- context [if ?b then _ else _] => destruct b
      | |- context [match task_mode t with _ => _ end] => destruct (task_mode t)
      | |- context [let '(_, _) := ?p in _] => destruct p
      end;
    cbn [fst snd];
    rewrite ?catch_requestIdRef, ?finally_requestIdRef,
      ?apply_events_requestIdRef;
    (split; [reflexivity|]); intros t' [= <-]; reflexivity.
Qed.

Lemma settle_requestIdRef (id : nat) (s : Settlement) (ts : list Task)
  (c : Client) (n : nat) :
  Forall (fun t => currentRequestId t <= n)%nat ts ->
  requestIdRef (fst (settle parse id s ts c)) = requestIdRef c
  /\ Forall (fun t => currentRequestId t <= n)%nat (snd (settle parse id s ts c)).
Proof.
  induction 1 as [|t rest Ht Hrest IH]; [now split|].
  cbn [settle]. destruct (Nat.eqb (currentRequestId t) id).
  - destruct (resume_requestIdRef t s c) as (Hr & Hid).
    destruct (resume parse t s c) as [c' [t'|]]; cbn [fst snd] in *.
    + split; [exact Hr|]. constructor; [|exact Hrest].
      now rewrite (Hid t' eq_refl).
    + now split.
  - destruct (settle parse id s rest c) as [c' rest']. cbn [fst snd] in *.
    destruct IH as (IH1 & IH2). split; [exact IH1|]. now constructor.
Qed.

Lemma cleanup_facts (c : Client) :
  requestIdRef (cleanupRequest c) = requestIdRef c
  /\ tasks (cleanupRequest c) = tasks c
  /\ shared (cleanupRequest c) = shared c.
Proof.
  unfold cleanupRequest. now destruct (abortControllerRef c).
Qed.

Lemma step_bounded (c : Client) (a : Action) :
  ids_bounded c ->
  ids_bounded (step parse c a)
  /\ (requestIdRef c <= requestIdRef (step parse c a))%nat.
Proof.
  unfold ids_bounded. intros H. destruct a as [| |m|id s]; cbn [step].
  - unfold handleApiCall_start. destruct (loading (shared c)); [now split|].
    destruct (cleanup_facts c) as (Hr & Ht & _).
    cbn. rewrite Hr, Ht. split; [|lia].
    apply Forall_app. split; [|repeat constructor].
    eapply Forall_impl; [|exact H]. cbn. intros t Hle. lia.
  - unfold handleCancelRequest. destruct (cleanup_facts c) as (Hr & Ht & _).
    cbn. rewrite Hr, Ht. now split.
  - now split.
  - destruct (settle_requestIdRef id s (tasks c) c (requestIdRef c) H)
      as (Hr & Hts).
    destruct (settle parse id s (tasks c) c) as [c' ts]. cbn [fst snd] in *.
    cbn. rewrite Hr. now split.
Qed.

Lemma run_bounded (acts : list Action) :
  forall c, ids_bounded c ->
  ids_bounded (run parse c acts)
  /\ (requestIdRef c <= requestIdRef (run parse c acts))%nat.
Proof.
  unfold run. induction acts as [|a acts IH]; intros c H; simpl; [now split|].
  destruct (step_bounded c a H) as (Hb & Hle).
  destruct (IH _ Hb) as (Hb' & Hle'). split; [exact Hb'|lia].
Qed.
End OrchestratorFacts.

(** C3. Let a request [id] be in flight after the actions [before], and let
    a second call of [handleApiCall] go ahead (the button is enabled, so the
    call increments the request identity). Then after any further actions
    [after], however the promise request [id] awaits settles (a fetch
    response, a JSON body, a read, a rejection), the invocation leaves
    [response], [progress], [error], [loading] and both refs as they are.
    In any state, a settlement that changes the shared state belongs to the
    request whose identity is the current one. *)
Theorem superseded_response_is_discarded
  (parse : JSString -> option JSValue) (before after : list Action)
  (id : nat) (s : Settlement) :
  let c1 := run parse Client_initial before in
  let c2 := run parse (step parse c1 Click) after in
  In id (map currentRequestId (tasks c1)) ->
  loading (shared c1) = false ->
  requestIdRef (step parse c1 Click) = S (requestIdRef c1)
  /\ (id < requestIdRef c2)%nat
  /\ shared (step parse c2 (Settle id s)) = shared c2
  /\ requestIdRef (step parse c2 (Settle id s)) = requestIdRef c2
  /\ abortControllerRef (step parse c2 (Settle id s)) = abortControllerRef c2
  /\ forall c id' s',
       shared (step parse c (Settle id' s')) <> shared c -> id' = requestIdRef c.
Proof.
  intros c1 c2 Hin Hload.
  assert (H0 : ids_bounded Client_initial) by constructor.
  destruct (run_bounded parse before _ H0) as (Hb1 & _). fold c1 in Hb1.
  assert (Hid : (id <= requestIdRef c1)%nat).
  { apply in_map_iff in Hin as (t & <- & Ht).
    unfold ids_bounded in Hb1. rewrite Forall_forall in Hb1. now apply Hb1. }
  assert (Hclick : requestIdRef (step parse c1 Click) = S (requestIdRef c1)).
  { cbn [step]. unfold handleApiCall_start. rewrite Hload.
    destruct (cleanup_facts c1) as (Hr & _). cbn. now rewrite Hr. }
  destruct (step_bounded parse c1 Click Hb1) as (Hb2 & _).
  destruct (run_bounded parse after _ Hb2) as (_ & Hle). fold c2 in Hle.
  assert (Hlt : (id < requestIdRef c2)%nat) by lia.
  assert (Hne : id <> requestIdRef c2) by lia.
  destruct (step_settle_stale parse c2 id s Hne) as (Hs & Hr & Ha & _).
  repeat split; try assumption.
  intros c id' s' Hchg. destruct (Nat.eq_dec id' (requestIdRef c)) as [E|E];
    [exact E|].
  destruct (step_settle_stale parse c id' s' E) as (Hs' & _). contradiction.
Qed.

Lemma superseded_response_is_discarded_witness :
  let parse := JSON_parse in
  let data := JObject [(js "mode", JString (js "signal"))] in
  let c1 := run parse Client_initial [Click; Cancel] in
  let c2 := run parse (step parse c1 Click) [Settle 2 (FetchResolved 200 true)] in
  In 1%nat (map currentRequestId (tasks c1))
  /\ loading (shared c1) = false
  /\ shared (step parse c2 (Settle 1 (FetchResolved 200 true))) = shared c2
  /\ response (shared (step parse c2 (Settle 2 (JsonResolved data)))) = Some data.
Proof.
  intros parse data c1 c2.
  assert (Hin : In 1%nat (map currentRequestId (tasks c1)))
    by (left; reflexivity).
  assert (Hl : loading (shared c1) = false) by reflexivity.
  split; [exact Hin|]. split; [exact Hl|]. split; [|reflexivity].
  apply (superseded_response_is_discarded parse [Click; Cancel]
           [Settle 2 (FetchResolved 200 true)] 1
           (FetchResolved 200 true) Hin Hl).
Defined.

(** ** The tick loop in binary64

    For every duration from 1 to 1000 ms, where the stream interval
    [duration / 5] is not an integer, the loop run in binary64 ends with
    progress 100 and elapsed time equal to the duration, without overshoot,
    and gives the progress values of the exact loop. *)
Example binary64_stream_agrees :
  forallb (fun z =>
             Binary64.ends_at_100 (Binary64.intervalMs (Binary64.of_Z z)) 8 z
             && match handleStreamMode_run 8 (quiet 0) (num_of_Z z),
                      Binary64.ticks 8 (Binary64.intervalMs (Binary64.of_Z z))
                        (Binary64.of_Z z) (Binary64.of_Z 0) with
                | Some r, Some l => Binary64.same_progress (progresses (emitted r)) l
                | _, _ => false
                end)
    (map Z.of_nat (seq 1 1000)) = true.
Proof. vm_compute. reflexivity. Qed.

Example binary64_chunked_ends_at_100 :
  forallb (Binary64.ends_at_100 Binary64.checkInterval 12)
    (map Z.of_nat (seq 1 1000)) = true.
Proof. vm_compute. reflexivity. Qed.

(** ** The scenario [mode=stream, duration=5000] *)

Lemma tickLoop_tick env d i pu cu (fuel k : nat) (e e' p : number) :
  js_lt e d = true -> delay env k = Elapsed -> enqueue_throws env k = false ->
  js_add e (Math_min i (js_sub d e)) = e' ->
  Math_round (js_mul (js_div e' d) (num_of_Z 100)) = p ->
  tickLoop env d i pu cu (S fuel) k e
  = option_map (emit (pu k p e')) (tickLoop env d i pu cu fuel (S k) e').
Proof.
  intros Hlt Hd Hw <- <-. rewrite tickLoop_S, Hlt, Hd, Hw. reflexivity.
Qed.

(** C9. For [mode=stream] and [duration=5000], in a run that nothing
    interrupts: the tick interval is 1000 ms, the loop waits five times
    1000 ms, and the stream carries the start unit, five progress units with
    progress 20, 40, 60, 80, 100 (elapsed 1000 to 5000) and one completion
    unit with duration 5000; the same progress and elapsed values come out
    of the loop run in binary64. Read by the client through the NDJSON reader,
    whose progress is 0 once the call is issued, the units set progress to
    20, 40, 60, 80, 100 and then the response to the completion object, whose
    [duration] is 5000; the session ends with progress 100 and not loading. *)
Theorem stream_5000_scenario (env : Env) :
  uncancelled env ->
  let d := parseInt (js "5000") in
  let units ts :=
    [StreamStart (ts 0%nat);
     StreamProgress (num_of_Z 20) (num_of_Z 1000) d (ts 1%nat);
     StreamProgress (num_of_Z 40) (num_of_Z 2000) d (ts 2%nat);
     StreamProgress (num_of_Z 60) (num_of_Z 3000) d (ts 3%nat);
     StreamProgress (num_of_Z 80) (num_of_Z 4000) d (ts 4%nat);
     StreamProgress (num_of_Z 100) (num_of_Z 5000) d (ts 5%nat);
     StreamComplete d (ts 6%nat)] in
  d = num_of_Z 5000
  /\ Math_min (num_of_Z 1000) (js_div d (num_of_Z 5)) = num_of_Z 1000
  /\ waitTimes d (num_of_Z 1000) 6 (num_of_Z 0) = [num_of_Z 1000; num_of_Z 1000; num_of_Z 1000; num_of_Z 1000; num_of_Z 1000]
  /\ Binary64.ticks 6 (Binary64.intervalMs (Binary64.of_Z 5000))
       (Binary64.of_Z 5000) (Binary64.of_Z 0)
     = Some (map (fun pe => (Binary64.of_Z (fst pe), Binary64.of_Z (snd pe)))
               [(20, 1000); (40, 2000); (60, 3000); (80, 4000); (100, 5000)]%Z)
  /\ GET 6 env (Some (js "stream")) (Some (js "5000"))
     = Some (streamResponse "application/x-ndjson"
               {| emitted := units (now env); ending := Completed |})
  /\ exists reads completion,
       wire (units (now (quiet 0))) = Some reads
       /\ Unit_object (StreamComplete d (now (quiet 0) 6)) = Some completion
       /\ lookup (js "duration") (match completion with
                                  | JObject props => props
                                  | _ => []
                                  end) = Some (JNumber (num_of_Z 5000))
       /\ progress (shared (step JSON_parse Client_initial Click)) = JNumber (num_of_Z 0)
       /\ handleStreamResponse JSON_parse reads
          = [SetProgress (JNumber (num_of_Z 20)); SetProgress (JNumber (num_of_Z 40));
             SetProgress (JNumber (num_of_Z 60)); SetProgress (JNumber (num_of_Z 80));
             SetProgress (JNumber (num_of_Z 100)); SetResponse completion]
       /\ shared (run JSON_parse Client_initial (undisturbed_session stream reads))
          = {| loading := false; response := Some completion; error := None;
               progress := JNumber (num_of_Z 100) |}.
Proof.
  intros (Hdelay & Hwrite & _) d units.
  split; [reflexivity|]. split; [reflexivity|]. split; [reflexivity|].
  split; [vm_compute; reflexivity|].
  split.
  - unfold GET.
    change (mode_of (or_default (Some (js "stream")) (js "signal")))
      with (Some stream).
    change (parseInt (or_default (Some (js "5000")) (js "5000"))) with (num_of_Z 5000).
    cbn [handle]. unfold handleStreamMode, handleStreamMode_run.
    change (Math_min (num_of_Z 1000) (js_div (num_of_Z 5000) (num_of_Z 5)))
      with (num_of_Z 1000).
    rewrite (tickLoop_tick env _ _ _ _ _ 0 _ (num_of_Z 1000) (num_of_Z 20));
      [|reflexivity|apply Hdelay|apply Hwrite|reflexivity|reflexivity].
    rewrite (tickLoop_tick env _ _ _ _ _ 1 _ (num_of_Z 2000) (num_of_Z 40));
      [|reflexivity|apply Hdelay|apply Hwrite|reflexivity|reflexivity].
    rewrite (tickLoop_tick env _ _ _ _ _ 2 _ (num_of_Z 3000) (num_of_Z 60));
      [|reflexivity|apply Hdelay|apply Hwrite|reflexivity|reflexivity].
    rewrite (tickLoop_tick env _ _ _ _ _ 3 _ (num_of_Z 4000) (num_of_Z 80));
      [|reflexivity|apply Hdelay|apply Hwrite|reflexivity|reflexivity].
    rewrite (tickLoop_tick env _ _ _ _ _ 4 _ (num_of_Z 5000) (num_of_Z 100));
      [|reflexivity|apply Hdelay|apply Hwrite|reflexivity|reflexivity].
    rewrite tickLoop_S. reflexivity.
  - eexists _, _. split; [vm_compute; reflexivity|].
    split; [vm_compute; reflexivity|]. vm_compute. repeat split.
Qed.

Lemma stream_5000_scenario_witness :
  uncancelled (quiet 0) /\
  GET 6 (quiet 0) (Some (js "stream")) (Some (js "5000"))
  = Some (streamResponse "application/x-ndjson"
            {| emitted :=
                 [StreamStart (now (quiet 0) 0);
                  StreamProgress (num_of_Z 20) (num_of_Z 1000)
                    (parseInt (js "5000")) (now (quiet 0) 1);
                  StreamProgress (num_of_Z 40) (num_of_Z 2000)
                    (parseInt (js "5000")) (now (quiet 0) 2);
                  StreamProgress (num_of_Z 60) (num_of_Z 3000)
                    (parseInt (js "5000")) (now (quiet 0) 3);
                  StreamProgress (num_of_Z 80) (num_of_Z 4000)
                    (parseInt (js "5000")) (now (quiet 0) 4);
                  StreamProgress (num_of_Z 100) (num_of_Z 5000)
                    (parseInt (js "5000")) (now (quiet 0) 5);
                  StreamComplete (parseInt (js "5000")) (now (quiet 0) 6)];
               ending := Completed |}).
Proof.
  split; [apply quiet_uncancelled|].
  apply (stream_5000_scenario (quiet 0) (quiet_uncancelled 0)).
Defined.


(** * Properties of the rest of the code *)

(** ** The tick loop under any environment *)

Lemma tickLoop_shape env d i pu cu (fuel : nat) :
  forall k e r,
  tickLoop env d i pu cu fuel k e = Some r ->
  exists ps,
    Forall (fun u => exists j p el, u = pu j p el) ps
    /\ (forall j, (j < List.length ps)%nat ->
          delay env (k + j) = Elapsed /\ enqueue_throws env (k + j) = false)
    /\ ((ending r = Completed /\ emitted r = ps ++ [cu (k + List.length ps)%nat])
        \/ (interrupted_at env (k + List.length ps) (ending r)
            /\ emitted r = ps)).
Proof.
  induction fuel as [|fuel IH]; intros k e r H; [discriminate|].
  rewrite tickLoop_S in H. destruct (js_lt e d).
  - destruct (delay env k) eqn:Ed.
    + cbv zeta in H. destruct (enqueue_throws env k) eqn:Ew.
      * injection H as <-. exists []. simpl. rewrite Nat.add_0_r.
        split; [constructor|]. split; [intros; lia|]. right. now repeat split.
      * destruct (tickLoop env d i pu cu fuel (S k) _) as [r'|] eqn:E;
          [|discriminate].
        injection H as <-.
        destruct (IH _ _ _ E) as (ps & Hall & Hok & Hcase).
        eexists (_ :: ps). cbn [List.length emit emitted ending].
        rewrite Nat.add_succ_r. split; [constructor; eauto|]. split.
        -- intros [|j] Hj; [now rewrite Nat.add_0_r|].
           rewrite Nat.add_succ_r. apply (Hok j). lia.
        -- destruct Hcase as [(He & Hem)|(Hi & Hem)]; [left|right];
             rewrite Hem; now split.
    + injection H as <-. exists []. simpl. rewrite Nat.add_0_r.
      split; [constructor|]. split; [intros; lia|]. right. now split.
    + injection H as <-. exists []. simpl. rewrite Nat.add_0_r.
      split; [constructor|]. split; [intros; lia|]. right. now split.
  - injection H as <-. exists []. simpl. rewrite Nat.add_0_r.
    split; [constructor|]. split; [intros; lia|]. left. now split.
Qed.

(** X1. Stream and chunked modes, for any duration and whatever the
    environment does: a run that ends carries the start unit, then progress
    units only, then the completion unit exactly when it completed. A run
    that did not complete stopped at the first wait that was aborted or
    failed, or at the first write that threw, and carries one progress unit
    for each wait before it and no completion unit. *)
Theorem streams_end_in_completion_or_at_the_interruption
  (fuel : nat) (env : Env) (duration : number) (r : StreamRun) :
  handleStreamMode_run fuel env duration = Some r
  \/ handleChunkedMode_run fuel env duration = Some r ->
  exists s0 ps tail,
    emitted r = s0 :: ps ++ tail
    /\ is_start s0 = true
    /\ Forall (fun u => is_progress u = true) ps
    /\ undisturbed_before env (List.length ps)
    /\ ((ending r = Completed
         /\ exists c, tail = [c] /\ is_complete c = true)
        \/ (interrupted_at env (List.length ps) (ending r) /\ tail = []))
    /\ count_units is_start (emitted r) = 1%nat
    /\ count_units is_complete (emitted r)
       = (match ending r with Completed => 1 | _ => 0 end)%nat.
Proof.
  assert (Hgen : forall pu cu i s0,
    (forall j p el, is_progress (pu j p el) = true) ->
    (forall j p el, is_start (pu j p el) = false) ->
    (forall j p el, is_complete (pu j p el) = false) ->
    (forall k, is_complete (cu k) = true) ->
    (forall k, is_start (cu k) = false) ->
    is_start s0 = true -> is_complete s0 = false ->
    option_map (emit s0) (tickLoop env duration i pu cu fuel 0 (num_of_Z 0))
    = Some r ->
    exists s0 ps tail,
      emitted r = s0 :: ps ++ tail
      /\ is_start s0 = true
      /\ Forall (fun u => is_progress u = true) ps
      /\ undisturbed_before env (List.length ps)
      /\ ((ending r = Completed
           /\ exists c, tail = [c] /\ is_complete c = true)
          \/ (interrupted_at env (List.length ps) (ending r) /\ tail = []))
      /\ count_units is_start (emitted r) = 1%nat
      /\ count_units is_complete (emitted r)
         = (match ending r with Completed => 1 | _ => 0 end)%nat).
  { intros pu cu i s0 Hp Hs Hc Hcc Hcs Hs0 Hs0c H.
    destruct (tickLoop env duration i pu cu fuel 0 _) as [r'|] eqn:E;
      [|discriminate].
    injection H as <-.
    destruct (tickLoop_shape _ _ _ _ _ _ _ _ _ E) as (ps & Hall & Hok & Hcase).
    assert (Hps : Forall (fun u => is_progress u = true) ps).
    { eapply Forall_impl; [|exact Hall]. intros u (j & p & el & ->). apply Hp. }
    assert (Hpss : Forall (fun u => is_start u = false) ps).
    { eapply Forall_impl; [|exact Hall]. intros u (j & p & el & ->). apply Hs. }
    assert (Hpsc : Forall (fun u => is_complete u = false) ps).
    { eapply Forall_impl; [|exact Hall]. intros u (j & p & el & ->). apply Hc. }
    cbn [Nat.add] in Hok, Hcase.
    destruct Hcase as [(He & Hem)|(Hi & Hem)].
    - exists s0, ps, [cu (List.length ps)]. cbn [emit emitted ending].
      rewrite Hem, He.
      split; [reflexivity|]. split; [exact Hs0|]. split; [exact Hps|].
      split; [exact Hok|]. split; [|split].
      + left. split; [reflexivity|]. eexists. split; [reflexivity|apply Hcc].
      + change (s0 :: ps ++ [cu (List.length ps)])
          with ([s0] ++ ps ++ [cu (List.length ps)]).
        rewrite !count_units_app, (count_units_none _ ps Hpss).
        unfold count_units. simpl. now rewrite Hs0, Hcs.
      + change (s0 :: ps ++ [cu (List.length ps)])
          with ([s0] ++ ps ++ [cu (List.length ps)]).
        rewrite !count_units_app, (count_units_none _ ps Hpsc).
        unfold count_units. simpl. now rewrite Hs0c, Hcc.
    - exists s0, ps, []. cbn [emit emitted ending].
      rewrite Hem, app_nil_r.
      split; [reflexivity|]. split; [exact Hs0|]. split; [exact Hps|].
      split; [exact Hok|]. split; [|split].
      + right. now split.
      + change (s0 :: ps) with ([s0] ++ ps).
        rewrite !count_units_app, (count_units_none _ ps Hpss).
        unfold count_units. simpl. now rewrite Hs0.
      + change (s0 :: ps) with ([s0] ++ ps).
        rewrite !count_units_app, (count_units_none _ ps Hpsc).
        unfold count_units. simpl. rewrite Hs0c.
        destruct (ending r'); simpl in Hi; try reflexivity; contradiction. }
  intros [H|H].
  - unfold handleStreamMode_run in H. eapply Hgen; [..|exact H]; reflexivity.
  - unfold handleChunkedMode_run in H. eapply Hgen; [..|exact H]; reflexivity.
Qed.

Lemma streams_end_in_completion_or_at_the_interruption_witness :
  let r := {| emitted :=
                [StreamStart (now (aborting 2) 0);
                 StreamProgress (num_of_Z 20) (num_of_Z 1000) (num_of_Z 5000)
                   (now (aborting 2) 1);
                 StreamProgress (num_of_Z 40) (num_of_Z 2000) (num_of_Z 5000)
                   (now (aborting 2) 2)];
              ending := ClosedOnAbort |} in
  handleStreamMode_run 6 (aborting 2) (num_of_Z 5000) = Some r
  /\ count_units is_complete (emitted r) = 0%nat.
Proof.
  intros r.
  assert (H : handleStreamMode_run 6 (aborting 2) (num_of_Z 5000) = Some r)
    by reflexivity.
  split; [exact H|].
  destruct (streams_end_in_completion_or_at_the_interruption
              6 (aborting 2) (num_of_Z 5000) r (or_introl H))
    as (s0 & ps & tail & _ & _ & _ & _ & _ & _ & Hc).
  exact Hc.
Defined.

(** ** Progress and elapsed time along a run *)

Lemma progressAt_value (e d : Q) :
  0 < d -> progressAt (Num e) (Num d) = num_of_Z (progressZ e d).
Proof.
  intros Hd. unfold progressAt, progressZ, js_div.
  destruct (Qeq_bool d 0) eqn:E.
  - apply Qeq_bool_iff in E. lra.
  - unfold js_mul, num_of_Z, Math_round. f_equal. f_equal.
    assert (H : Qred (Qred (e / d) * inject_Z 100) + (1 # 2)
                == inject_Z 100 * e / d + (1 # 2)).
    { rewrite !Qred_correct. field. lra. }
    now rewrite H.
Qed.

Lemma progressZ_mono (e1 e2 d : Q) :
  0 < d -> e1 <= e2 -> (progressZ e1 d <= progressZ e2 d)%Z.
Proof.
  intros Hd Hle. unfold progressZ. apply Qfloor_resp_le.
  apply Qplus_le_l. unfold Qdiv. apply Qmult_le_compat_r.
  - apply Qmult_le_l; [reflexivity|exact Hle].
  - apply Qinv_le_0_compat. lra.
Qed.

Lemma progressZ_bounds (e d : Q) :
  0 < d -> 0 <= e -> e <= d -> (0 <= progressZ e d <= 100)%Z.
Proof.
  intros Hd H0 H1. split.
  - unfold progressZ. change 0%Z with (Qfloor 0). apply Qfloor_resp_le.
    assert (H : 0 <= inject_Z 100 * e / d).
    { apply Qle_shift_div_l; [exact Hd|]. change (inject_Z 100) with 100. lra. }
    lra.
  - replace 100%Z with (progressZ d d).
    + now apply progressZ_mono.
    + unfold progressZ.
      assert (H : inject_Z 100 * d / d + (1 # 2) == 201 # 2) by (field; lra).
      now rewrite H.
Qed.

Section TickTrace.
Variable env : Env.
Variable z : Z.
Variable I : Q.
Variable pu : nat -> number -> number -> Unit.
Variable cu : nat -> Unit.
Hypothesis Hz : (0 < z)%Z.
Hypothesis HI : 0 < I.
Hypothesis Hpu_p : forall j p e, progress_of (pu j p e) = Some p.
Hypothesis Hpu_e : forall j p e, elapsed_of (pu j p e) = Some e.
Hypothesis Hcu_p : forall k, progress_of (cu k) = None.
Hypothesis Hcu_e : forall k, elapsed_of (cu k) = None.

(** Whatever the environment does, the elapsed times a run carries grow
    strictly, stay within the duration, and each progress value is the one
    of its elapsed time. *)
Lemma tickLoop_elapsed (fuel : nat) :
  forall k e r,
  0 <= e ->
  tickLoop env (num_of_Z z) (Num I) pu cu fuel k (Num e) = Some r ->
  exists es,
    elapseds (emitted r) = map Num es
    /\ progresses (emitted r)
       = map (fun e' => num_of_Z (progressZ e' (inject_Z z))) es
    /\ StronglySorted Qlt es
    /\ Forall (fun e' => e < e' /\ e' <= inject_Z z) es.
Proof.
  pose proof (d_pos z Hz) as Hd.
  induction fuel as [|fuel IH]; intros k e r He H; [discriminate|].
  unfold num_of_Z in H. rewrite tickLoop_S in H.
  destruct (js_lt (Num e) (Num (inject_Z z))) eqn:Elt.
  - apply js_lt_Num in Elt.
    destruct (tick_advance z I HI e He Elt) as (e' & Hadd & He' & Hee' & Hcase).
    assert (He'd : e' <= inject_Z z).
    { destruct Hcase as [[Hlt _]|[Heq _]]; [lra|]. injection Heq as ->. lra. }
    destruct (delay env k).
    + cbv zeta in H. rewrite Hadd in H. destruct (enqueue_throws env k).
      * injection H as <-. exists []. repeat split; constructor.
      * fold (num_of_Z z) in H.
        destruct (tickLoop env (num_of_Z z) (Num I) pu cu fuel (S k) (Num e'))
          as [r'|] eqn:E; [|discriminate].
        injection H as <-.
        destruct (IH _ _ _ He' E) as (es & Hes & Hps & Hsorted & Hall).
        exists (e' :: es). cbn [emit emitted].
        unfold elapseds, progresses in *. cbn [flat_map map].
        rewrite Hpu_e, Hpu_p, Hes, Hps. cbn [app].
        split; [reflexivity|]. split.
        { f_equal. fold (progressAt (Num e') (Num (inject_Z z))).
          now apply progressAt_value. }
        split.
        { constructor; [exact Hsorted|].
          eapply Forall_impl; [|exact Hall]. now intros a [Ha _]. }
        constructor; [now split|].
        eapply Forall_impl; [|exact Hall]. intros a [Ha Hb]. split; lra.
    + injection H as <-. exists []. repeat split; constructor.
    + injection H as <-. exists []. repeat split; constructor.
  - injection H as <-. exists []. unfold elapseds, progresses. simpl.
    rewrite Hcu_e, Hcu_p. repeat split; constructor.
Qed.
End TickTrace.

Lemma StronglySorted_progress (d : Q) (es : list Q) :
  0 < d -> StronglySorted Qlt es ->
  StronglySorted Z.le (map (fun e => progressZ e d) es).
Proof.
  intros Hd. induction 1 as [|e es Hs IH Hall]; simpl; constructor; [exact IH|].
  apply Forall_map. eapply Forall_impl; [|exact Hall].
  intros a Ha. apply progressZ_mono; [exact Hd|lra].
Qed.



(** ** The uninterrupted run in closed form *)

Lemma tick_elapsed (e I d : Q) :
  js_add (Num e) (Math_min (Num I) (js_sub (Num d) (Num e)))
  = Num (Qred (Qmin (e + I) d)).
Proof.
  unfold js_sub, Math_min.
  pose proof (Qred_correct (d - e)) as Hr.
  destruct (Qle_bool I (Qred (d - e))) eqn:E; cbn [js_add]; f_equal;
    apply Qred_complete.
  - apply Qle_bool_iff in E. symmetry. apply Q.min_l. lra.
  - assert (H : ~ I <= Qred (d - e)).
    { intros H. apply Qle_bool_iff in H. congruence. }
    rewrite Q.min_r by lra. lra.
Qed.

Section ClosedForm.
Variable env : Env.
Variable d I : Q.
Variable pu : nat -> number -> number -> Unit.
Variable cu : nat -> Unit.
Hypothesis HI : 0 < I.
Hypothesis Hdelay : forall k, delay env k = Elapsed.
Hypothesis Hwrite : forall k, enqueue_throws env k = false.

Lemma tickLoop_closed_form (m : nat) :
  forall k e,
  (inject_Z (Z.of_nat m) - 1) * I < d - e ->
  d - e <= inject_Z (Z.of_nat m) * I ->
  tickLoop env (Num d) (Num I) pu cu (S m) k (Num e)
  = Some {| emitted := tickUnits pu e I d k m ++ [cu (k + m)%nat];
            ending := Completed |}.
Proof.
  induction m as [|m IH]; intros k e Hlo Hhi.
  - rewrite tickLoop_S.
    change (inject_Z (Z.of_nat 0)) with 0 in Hhi.
    rewrite (proj2 (js_lt_Num_false e d)) by lra.
    now rewrite Nat.add_0_r.
  - rewrite Nat2Z.inj_succ in Hlo, Hhi. unfold Z.succ in Hlo, Hhi.
    rewrite inject_Z_plus in Hlo, Hhi. change (inject_Z 1) with 1 in Hlo, Hhi.
    assert (Hm : 0 <= inject_Z (Z.of_nat m)).
    { change 0 with (inject_Z 0). rewrite <- Zle_Qle. lia. }
    assert (HmI : 0 <= inject_Z (Z.of_nat m) * I)
      by (apply Qmult_le_0_compat; lra).
    assert (Hlt : e < d) by lra.
    rewrite (tickLoop_tick env _ _ pu cu (S m) k (Num e)
               (Num (Qred (Qmin (e + I) d)))
               (progressAt (Num (Qred (Qmin (e + I) d))) (Num d)));
      [|now apply js_lt_Num|apply Hdelay|apply Hwrite|apply tick_elapsed
       |reflexivity].
    pose proof (Qred_correct (Qmin (e + I) d)) as Hr.
    assert (Hcase : (m = 0%nat /\ Qmin (e + I) d == d)
                    \/ (m <> 0%nat /\ Qmin (e + I) d == e + I)).
    { destruct m as [|m'].
      - left. split; [reflexivity|]. apply Q.min_r.
        change (inject_Z (Z.of_nat 0)) with 0 in Hhi. lra.
      - right. split; [discriminate|]. apply Q.min_l.
        rewrite Nat2Z.inj_succ in Hlo, Hm, HmI. unfold Z.succ in Hlo, Hm, HmI.
        rewrite inject_Z_plus in Hlo, Hm, HmI.
        change (inject_Z 1) with 1 in Hlo, Hm, HmI.
        assert (0 <= inject_Z (Z.of_nat m') * I).
        { apply Qmult_le_0_compat; [|lra].
          change 0 with (inject_Z 0). rewrite <- Zle_Qle. lia. }
        lra. }
    rewrite IH.
    + cbn [option_map]. f_equal. unfold emit, tickUnits.
      cbn [emitted ending]. f_equal.
      change (seq 0 (S m)) with (0%nat :: seq 1 m).
      rewrite <- seq_shift, map_cons, map_map. cbn [app].
      assert (E1 : Qred (Qmin (e + I) d) = elapsedAfter e I d 1).
      { unfold elapsedAfter. apply Qred_complete.
        change (inject_Z (Z.of_nat 1)) with 1.
        assert (H1 : e + 1 * I == e + I) by ring. now rewrite H1. }
      assert (E2 : forall j, (j < m)%nat ->
                 elapsedAfter (Qred (Qmin (e + I) d)) I d (S j)
                 = elapsedAfter e I d (S (S j))).
      { intros j Hj. unfold elapsedAfter. apply Qred_complete.
        destruct Hcase as [(-> & _)|(_ & Hc)]; [lia|].
        rewrite (Nat2Z.inj_succ (S j)). unfold Z.succ.
        rewrite inject_Z_plus. change (inject_Z 1) with 1.
        assert (H2 : Qred (Qmin (e + I) d) + inject_Z (Z.of_nat (S j)) * I
                     == e + (inject_Z (Z.of_nat (S j)) + 1) * I).
        { rewrite Hr, Hc. ring. }
        now rewrite H2. }
      rewrite Nat.add_0_r, <- E1, <- (Nat.add_succ_comm k m).
      f_equal. f_equal. apply map_ext_in. intros j Hj. apply in_seq in Hj.
      rewrite (E2 j) by lia. now rewrite Nat.add_succ_r.
    + destruct Hcase as [(-> & Hc)|(_ & Hc)].
      * change (inject_Z (Z.of_nat 0)) with 0. lra.
      * lra.
    + destruct Hcase as [(-> & Hc)|(_ & Hc)].
      * change (inject_Z (Z.of_nat 0)) with 0. lra.
      * lra.
Qed.
End ClosedForm.

Lemma Qmin_inject_Z (a b : Z) :
  Qmin (inject_Z a) (inject_Z b) == inject_Z (Z.min a b).
Proof.
  destruct (Z.le_ge_cases a b) as [H|H].
  - rewrite Z.min_l by exact H. apply Q.min_l. now rewrite <- Zle_Qle.
  - rewrite Z.min_r by exact H. apply Q.min_r. now rewrite <- Zle_Qle.
Qed.

Lemma elapsedAfter_Z (i z : Z) (j : nat) :
  elapsedAfter 0 (inject_Z i) (inject_Z z) j
  = inject_Z (Z.min (i * Z.of_nat j) z).
Proof.
  unfold elapsedAfter. apply Qred_eq_inject_Z.
  rewrite <- Qmin_inject_Z.
  assert (H : 0 + inject_Z (Z.of_nat j) * inject_Z i
              == inject_Z (i * Z.of_nat j)).
  { rewrite inject_Z_mult. ring. }
  now rewrite H.
Qed.

Lemma Qfloor_unique (x : Q) (n : Z) :
  inject_Z n <= x -> x < inject_Z (n + 1) -> Qfloor x = n.
Proof.
  intros Hle Hlt. apply Z.le_antisymm.
  - apply Z.lt_succ_r. rewrite Zlt_Qlt.
    eapply Qle_lt_trans; [apply Qfloor_le|exact Hlt].
  - rewrite <- (Qfloor_Z n). now apply Qfloor_resp_le.
Qed.

(** On integers the progress value is [(200 * t + z) / (2 * z)], rounded
    down. *)
Lemma progressZ_Z (t z : Z) :
  (0 < z)%Z ->
  progressZ (inject_Z t) (inject_Z z) = ((200 * t + z) / (2 * z))%Z.
Proof.
  intros Hz. pose proof (d_pos z Hz) as Hd. unfold progressZ.
  set (n := ((200 * t + z) / (2 * z))%Z).
  assert (Hx : inject_Z 100 * inject_Z t / inject_Z z + (1 # 2)
               == inject_Z (200 * t + z) / inject_Z (2 * z)).
  { rewrite inject_Z_plus, !inject_Z_mult.
    change (inject_Z 100) with 100. change (inject_Z 200) with 200.
    change (inject_Z 2) with 2. field. lra. }
  assert (H2z : 0 < inject_Z (2 * z)).
  { change 0 with (inject_Z 0). rewrite <- Zlt_Qlt. lia. }
  assert (H1 : (2 * z * n <= 200 * t + z)%Z)
    by (apply Z.mul_div_le; lia).
  assert (H2 : (200 * t + z < 2 * z * Z.succ n)%Z)
    by (apply Z.mul_succ_div_gt; lia).
  apply Qfloor_unique; rewrite Hx.
  - apply Qle_shift_div_l; [exact H2z|].
    rewrite <- inject_Z_mult, <- Zle_Qle. lia.
  - apply Qlt_shift_div_r; [exact H2z|].
    rewrite <- inject_Z_mult, <- Zlt_Qlt. lia.
Qed.

Lemma ticks_needed (z i : Z) :
  (0 < z)%Z -> (0 < i)%Z ->
  let m := Z.to_nat ((z + (i - 1)) / i) in
  (inject_Z (Z.of_nat m) - 1) * inject_Z i < inject_Z z - 0
  /\ inject_Z z - 0 <= inject_Z (Z.of_nat m) * inject_Z i.
Proof.
  intros Hz Hi m.
  assert (Hq : (0 <= (z + (i - 1)) / i)%Z) by (apply Z.div_pos; lia).
  unfold m. rewrite Z2Nat.id by exact Hq.
  set (q := ((z + (i - 1)) / i)%Z) in *.
  assert (H1 : (i * q <= z + (i - 1))%Z) by (apply Z.mul_div_le; lia).
  assert (H2 : (z + (i - 1) < i * Z.succ q)%Z)
    by (apply Z.mul_succ_div_gt; lia).
  split.
  - assert (H : (inject_Z q - 1) * inject_Z i == inject_Z ((q - 1) * i)).
    { unfold Z.sub. rewrite inject_Z_mult, inject_Z_plus. reflexivity. }
    rewrite H. unfold Qminus. change (- 0) with 0. rewrite Qplus_0_r.
    rewrite <- Zlt_Qlt. nia.
  - rewrite <- inject_Z_mult. unfold Qminus. change (- 0) with 0.
    rewrite Qplus_0_r. rewrite <- Zle_Qle. nia.
Qed.

(** The progress units of an undisturbed run with an integer interval. *)
Lemma tickUnits_Z pu (i z : Z) (m : nat) :
  (0 < z)%Z ->
  tickUnits pu 0 (inject_Z i) (inject_Z z) 0 m
  = map (fun j =>
           let t := Z.min (i * Z.of_nat (S j)) z in
           pu j (num_of_Z ((200 * t + z) / (2 * z))) (num_of_Z t))
      (seq 0 m).
Proof.
  intros Hz. unfold tickUnits. apply map_ext. intros j. cbv zeta.
  rewrite elapsedAfter_Z, progressAt_value by now apply d_pos.
  now rewrite progressZ_Z.
Qed.

(** The chunked run in exact arithmetic. *)
Lemma chunked_run_exact (env : Env) (z : Z) (fuel : nat) :
  (0 < z)%Z -> undisturbed env ->
  let m := Z.to_nat ((z + 499) / 500) in
  (m < fuel)%nat ->
  handleChunkedMode_run fuel env (num_of_Z z)
  = Some {| emitted :=
              ChunkedStarting
              :: map (fun j =>
                        let t := Z.min (500 * Z.of_nat (S j)) z in
                        ChunkedProgress
                          (num_of_Z (exactProgress z t)) (num_of_Z t))
                   (seq 0 m)
              ++ [ChunkedComplete (num_of_Z z) (now env 0)];
            ending := Completed |}.
Proof.
  intros Hz (Hdelay & Hwrite) m Hfuel.
  destruct (ticks_needed z 500 Hz eq_refl) as (Hlo & Hhi).
  change (500 - 1)%Z with 499%Z in Hlo, Hhi. fold m in Hlo, Hhi.
  unfold handleChunkedMode_run.
  replace fuel with (S m + (fuel - S m))%nat by lia.
  unfold num_of_Z at 1 2 3.
  rewrite (tickLoop_more_fuel _ _ _ _ _ _ _ _ _
             (tickLoop_closed_form env (inject_Z z) (inject_Z 500) _ _
                eq_refl Hdelay Hwrite m 0%nat 0 Hlo Hhi)).
  cbn [option_map]. f_equal. unfold emit. cbn [emitted ending].
  rewrite (tickUnits_Z (fun _ p e => ChunkedProgress p e) 500 z m Hz).
  reflexivity.
Qed.

(** What holds of the progress values however the quotient is rounded:
    they lie in 0..100, never decrease, and the last one, at elapsed time
    [z], is 100. *)
Lemma exactProgress_facts (z i : Z) :
  (0 < z)%Z -> (0 < i)%Z ->
  let m := Z.to_nat ((z + (i - 1)) / i) in
  let p := fun j => exactProgress z (Z.min (i * Z.of_nat (S j)) z) in
  (forall j k, (j <= k < m)%nat ->
               (0 <= p j <= p k)%Z /\ (p k <= 100)%Z)
  /\ p (pred m) = 100%Z
  /\ Z.min (i * Z.of_nat m) z = z /\ (0 < m)%nat.
Proof.
  intros Hz Hi m p.
  assert (Hq : (0 <= (z + (i - 1)) / i)%Z) by (apply Z.div_pos; lia).
  assert (H1 : (i * ((z + (i - 1)) / i) <= z + (i - 1))%Z)
    by (apply Z.mul_div_le; lia).
  assert (H2 : (z + (i - 1) < i * Z.succ ((z + (i - 1)) / i))%Z)
    by (apply Z.mul_succ_div_gt; lia).
  assert (Hm : Z.of_nat m = ((z + (i - 1)) / i)%Z)
    by (unfold m; now rewrite Z2Nat.id).
  assert (Hcover : (z <= i * Z.of_nat m)%Z) by (rewrite Hm; lia).
  assert (Hpos : (0 < m)%nat) by nia.
  assert (Hfull : exactProgress z z = 100%Z).
  { unfold exactProgress. symmetry. apply (Z.div_unique _ _ 100 z); lia. }
  assert (Hmono : forall a b, (0 <= a <= b)%Z -> (b <= z)%Z ->
            (0 <= exactProgress z a <= exactProgress z b)%Z
            /\ (exactProgress z b <= 100)%Z).
  { intros a b Hab Hb. unfold exactProgress in *. repeat split.
    - apply Z.div_pos; lia.
    - apply Z.div_le_mono; lia.
    - rewrite <- Hfull. apply Z.div_le_mono; lia. }
  clearbody m.
  split; [|split; [|split; [now apply Z.min_r|exact Hpos]]].
  - intros j k Hjk. unfold p. apply Hmono; nia.
  - unfold p. replace (S (pred m)) with m by lia.
    now rewrite Z.min_r.
Qed.


Lemma quiet_undisturbed (n : nat) : undisturbed (quiet n).
Proof. now split. Qed.


Lemma stream_interval_short (z : Z) :
  (0 < z < 5000)%Z ->
  Math_min (num_of_Z 1000) (js_div (num_of_Z z) (num_of_Z 5))
  = Num (Qred (inject_Z z / inject_Z 5)).
Proof.
  intros Hz. unfold num_of_Z, js_div.
  change (Qeq_bool (inject_Z 5) 0) with false. unfold Math_min.
  destruct (Qle_bool (inject_Z 1000) (Qred (inject_Z z / inject_Z 5))) eqn:E;
    [|reflexivity].
  apply Qle_bool_iff in E. rewrite Qred_correct in E.
  assert (H : inject_Z z / inject_Z 5 < inject_Z 1000).
  { apply Qlt_shift_div_r; [reflexivity|].
    change (inject_Z 1000 * inject_Z 5) with (inject_Z 5000).
    rewrite <- Zlt_Qlt. lia. }
  lra.
Qed.

Lemma stream_interval_long (z : Z) :
  (5000 <= z)%Z ->
  Math_min (num_of_Z 1000) (js_div (num_of_Z z) (num_of_Z 5))
  = Num (inject_Z 1000).
Proof.
  intros Hz. unfold num_of_Z, js_div.
  change (Qeq_bool (inject_Z 5) 0) with false. unfold Math_min.
  destruct (Qle_bool (inject_Z 1000) (Qred (inject_Z z / inject_Z 5))) eqn:E;
    [reflexivity|].
  assert (H : inject_Z 1000 <= Qred (inject_Z z / inject_Z 5)).
  { rewrite Qred_correct. apply Qle_shift_div_l; [reflexivity|].
    change (inject_Z 1000 * inject_Z 5) with (inject_Z 5000).
    now rewrite <- Zle_Qle. }
  apply Qle_bool_iff in H. congruence.
Qed.

Lemma Qfloor_half (n : Z) : Qfloor (inject_Z n + (1 # 2)) = n.
Proof.
  apply Qfloor_unique.
  - lra.
  - rewrite inject_Z_plus. change (inject_Z 1) with 1. lra.
Qed.

(** The progress units of an undisturbed stream run shorter than five
    seconds: five ticks of a fifth of the duration. *)
Lemma tickUnits_fifths pu (z : Z) :
  (0 < z)%Z ->
  tickUnits pu 0 (Qred (inject_Z z / inject_Z 5)) (inject_Z z) 0 5
  = map (fun j =>
           pu j (num_of_Z (20 * Z.of_nat (S j)))
             (Num (Qred (inject_Z (Z.of_nat (S j) * z) / inject_Z 5))))
      (seq 0 5).
Proof.
  intros Hz. pose proof (d_pos z Hz) as Hd. unfold tickUnits.
  apply map_ext_in. intros j Hj. apply in_seq in Hj.
  assert (Hj5 : inject_Z (Z.of_nat (S j)) <= 5).
  { change 5 with (inject_Z 5). rewrite <- Zle_Qle. lia. }
  assert (Hj0 : 0 <= inject_Z (Z.of_nat (S j))).
  { change 0 with (inject_Z 0). rewrite <- Zle_Qle. lia. }
  assert (Hx : Qmin (0 + inject_Z (Z.of_nat (S j))
                         * Qred (inject_Z z / inject_Z 5)) (inject_Z z)
               == inject_Z (Z.of_nat (S j) * z) / inject_Z 5).
  { rewrite Qred_correct, inject_Z_mult. change (inject_Z 5) with 5.
    rewrite Q.min_l.
    - field.
    - assert (H : 0 + inject_Z (Z.of_nat (S j)) * (inject_Z z / 5)
                  == inject_Z (Z.of_nat (S j)) * inject_Z z / 5) by field.
      rewrite H. apply Qle_shift_div_r; [reflexivity|].
      rewrite (Qmult_comm (inject_Z z) 5).
      apply Qmult_le_compat_r; [exact Hj5|lra]. }
  assert (E : elapsedAfter 0 (Qred (inject_Z z / inject_Z 5)) (inject_Z z) (S j)
              = Qred (inject_Z (Z.of_nat (S j) * z) / inject_Z 5)).
  { unfold elapsedAfter. now apply Qred_complete. }
  rewrite E, progressAt_value by exact Hd. f_equal. f_equal.
  unfold progressZ.
  assert (Hp : inject_Z 100
               * Qred (inject_Z (Z.of_nat (S j) * z) / inject_Z 5)
               / inject_Z z + (1 # 2)
               == inject_Z (20 * Z.of_nat (S j)) + (1 # 2)).
  { rewrite Qred_correct, !inject_Z_mult.
    change (inject_Z 100) with 100. change (inject_Z 5) with 5.
    change (inject_Z 20) with 20. field. lra. }
  rewrite Hp. apply Qfloor_half.
Qed.

(** The stream run in exact arithmetic. *)
Lemma stream_run_exact (env : Env) (z : Z) (fuel : nat) :
  (0 < z)%Z -> undisturbed env ->
  ((z < 5000)%Z -> (5 < fuel)%nat ->
   handleStreamMode_run fuel env (num_of_Z z)
   = Some {| emitted :=
               StreamStart (now env 0)
               :: map (fun j =>
                         StreamProgress
                           (num_of_Z (20 * Z.of_nat (S j)))
                           (Num (Qred (inject_Z (Z.of_nat (S j) * z)
                                       / inject_Z 5)))
                           (num_of_Z z) (now env (S j)))
                    (seq 0 5)
               ++ [StreamComplete (num_of_Z z) (now env 6)];
             ending := Completed |})
  /\ ((5000 <= z)%Z ->
      let m := Z.to_nat ((z + 999) / 1000) in
      (m < fuel)%nat ->
      handleStreamMode_run fuel env (num_of_Z z)
      = Some {| emitted :=
                  StreamStart (now env 0)
                  :: map (fun j =>
                            let t := Z.min (1000 * Z.of_nat (S j)) z in
                            StreamProgress
                              (num_of_Z (exactProgress z t))
                              (num_of_Z t) (num_of_Z z) (now env (S j)))
                       (seq 0 m)
                  ++ [StreamComplete (num_of_Z z) (now env (S m))];
                ending := Completed |}).
Proof.
  intros Hz (Hdelay & Hwrite). pose proof (d_pos z Hz) as Hd. split.
  - intros Hshort Hfuel. unfold handleStreamMode_run.
    rewrite stream_interval_short by lia.
    set (I := Qred (inject_Z z / inject_Z 5)).
    assert (HIeq : I == inject_Z z / 5) by apply Qred_correct.
    assert (HI : 0 < I).
    { rewrite HIeq. apply Qlt_shift_div_l; lra. }
    assert (Hz5 : inject_Z z == 5 * I) by (rewrite HIeq; field).
    assert (Hlo : (inject_Z (Z.of_nat 5) - 1) * I < inject_Z z - 0).
    { change (inject_Z (Z.of_nat 5)) with 5. lra. }
    assert (Hhi : inject_Z z - 0 <= inject_Z (Z.of_nat 5) * I).
    { change (inject_Z (Z.of_nat 5)) with 5. lra. }
    replace fuel with (6 + (fuel - 6))%nat by lia.
    unfold num_of_Z at 1 2.
    rewrite (tickLoop_more_fuel _ _ _ _ _ _ _ _ _
               (tickLoop_closed_form env (inject_Z z) I _ _
                  HI Hdelay Hwrite 5 0%nat 0 Hlo Hhi)).
    cbn [option_map]. f_equal. unfold emit, I. cbn [emitted ending].
    fold (num_of_Z z).
    rewrite (tickUnits_fifths
               (fun k p e => StreamProgress p e (num_of_Z z) (now env (S k)))
               z Hz).
    reflexivity.
  - intros Hlong m Hfuel. unfold handleStreamMode_run.
    rewrite stream_interval_long by exact Hlong.
    destruct (ticks_needed z 1000 Hz eq_refl) as (Hlo & Hhi).
    change (1000 - 1)%Z with 999%Z in Hlo, Hhi. fold m in Hlo, Hhi.
    replace fuel with (S m + (fuel - S m))%nat by lia.
    unfold num_of_Z at 1 2.
    rewrite (tickLoop_more_fuel _ _ _ _ _ _ _ _ _
               (tickLoop_closed_form env (inject_Z z) (inject_Z 1000) _ _
                  eq_refl Hdelay Hwrite m 0%nat 0 Hlo Hhi)).
    cbn [option_map]. f_equal. unfold emit. cbn [emitted ending].
    fold (num_of_Z z).
    rewrite (tickUnits_Z
               (fun k p e => StreamProgress p e (num_of_Z z) (now env (S k)))
               1000 z m Hz).
    reflexivity.
Qed.



(** *** The same runs in binary64

    Below five seconds the stream interval [z / 5] is rounded; run in
    binary64, the loop still makes exactly five ticks, with progress 20, 40,
    60, 80, 100, and ends at elapsed time [z], for every duration from 1 to
    4999. *)
Example binary64_stream_five_ticks :
  forallb five_ticks_to_100 (map Z.of_nat (seq 1 4999)) = true.
Proof. vm_compute. reflexivity. Qed.

(** With integer intervals the elapsed times are the integers of the closed
    form in binary64 too, and the last progress value is 100; a progress
    value in between can be one less than with the exact quotient, where
    [100 * elapsed / duration] falls on a tie: at 11500 of 20000 ms the
    route sends 57, the exact rounding of 57.5 is 58. *)
Example binary64_chunked_20000 :
  option_map (map snd)
    (Binary64.ticks 41 Binary64.checkInterval (Binary64.of_Z 20000)
       (Binary64.of_Z 0))
  = Some (map (fun j => Binary64.of_Z (Z.min (500 * Z.of_nat (S j)) 20000))
            (seq 0 40))
  /\ option_map (fun l => (nth 22 (map fst l) S754_nan,
                           last (map fst l) S754_nan))
       (Binary64.ticks 41 Binary64.checkInterval (Binary64.of_Z 20000)
          (Binary64.of_Z 0))
     = Some (Binary64.of_Z 57, Binary64.of_Z 100)
  /\ exactProgress 20000 11500 = 58%Z.
Proof. vm_compute. repeat split. Qed.

(** ** Heartbeat mode under any schedule *)

Lemma hb_clear_fields (s : HBState) :
  hb_stream (hb_clear s) = hb_stream s
  /\ hb_queue (hb_clear s) = hb_queue s
  /\ delay_pending (hb_clear s) = delay_pending s
  /\ hb_end (hb_clear s) = hb_end s.
Proof.
  unfold hb_clear. now destruct (heartbeatInterval s).
Qed.

Lemma hb_shape_step env d (s : HBState) (e : HBEvent) :
  hb_inv s -> hb_shape env d s -> hb_shape env d (hb_step env d s e).
Proof.
  intros (Hv & _ & Hd) (Hp & Hc & hbs & tail & Hq & Hall & Hcase).
  destruct (hb_clear_fields s) as (Cs & Cq & Cp & Ce).
  destruct e as [| |o]; cbn [hb_step].
  - destruct (timer_registered s) eqn:Et;
      [|split; [exact Hp|split; [exact Hc|now exists hbs, tail]]].
    assert (Hpend : hb_end s = Pending).
    { apply Hp. destruct (delay_pending s); [reflexivity|].
      specialize (Hd eq_refl). congruence. }
    destruct Hcase as [(He & _)|(Hne & ->)]; [congruence|].
    unfold hb_enqueue, hb_tick_clock. cbn [hb_stream].
    destruct (hb_stream s) eqn:Es.
    + split; [exact Hp|]. split; [intros He; cbn in He; rewrite Hpend in He; discriminate|].
      exists (hbs ++ [SSEHeartbeat (now env (hb_clock s))]), [].
      cbn [hb_queue hb_end]. rewrite Hq, !app_nil_r.
      split; [now rewrite app_comm_cons|].
      split; [apply Forall_app; split; [exact Hall|now repeat constructor]|].
      right. now split.
    + unfold hb_close, hb_clear. cbn. destruct (heartbeatInterval s); cbn;
        (split; [exact Hp|]); (split; [intros He; cbn in He; rewrite Hpend in He; discriminate|]);
        exists hbs, []; rewrite Hq; (split; [reflexivity|]);
        (split; [exact Hall|]); right; now split.
    + unfold hb_close, hb_clear. cbn. destruct (heartbeatInterval s); cbn;
        (split; [exact Hp|]); (split; [intros He; cbn in He; rewrite Hpend in He; discriminate|]);
        exists hbs, []; rewrite Hq; (split; [reflexivity|]);
        (split; [exact Hall|]); right; now split.
  - split; [exact Hp|]. split.
    + cbn. intros He. specialize (Hc He). destruct (hb_stream s); congruence.
    + now exists hbs, tail.
  - destruct (delay_pending s) eqn:Ed;
      [|split; [rewrite Ed; exact Hp|split; [exact Hc|now exists hbs, tail]]].
    assert (Hpend : hb_end s = Pending) by now apply Hp.
    destruct Hcase as [(He & _)|(Hne & ->)]; [congruence|].
    rewrite app_nil_r in Hq.
    assert (Hcatch : forall abort s1,
              hb_queue s1 = hb_queue s ->
              hb_shape env d (hb_catch abort s1)).
    { intros abort s1 Hq1. destruct (hb_clear_fields s1) as (_ & Cq1 & _ & _).
      unfold hb_catch, hb_close, hb_error, hb_settle.
      destruct abort; cbn; rewrite Cq1, Hq1, Hq.
      all: split; [split; discriminate|].
      all: split; [discriminate|].
      all: exists hbs, []; rewrite app_nil_r.
      all: split; [reflexivity|]; split; [exact Hall|].
      all: right; split; [discriminate|reflexivity]. }
    destruct o; [|now apply Hcatch|now apply Hcatch].
    unfold hb_enqueue, hb_tick_clock. cbn [hb_stream]. rewrite Cs.
    destruct (hb_stream s) eqn:Es.
    + unfold hb_close, hb_settle. cbn. rewrite Cq, Hq.
      split; [split; discriminate|]. split; [discriminate|].
      exists hbs, [SSEComplete d (now env (hb_clock (hb_clear s)))].
      split; [reflexivity|]. split; [exact Hall|].
      left. split; [reflexivity|]. now eexists.
    + apply Hcatch. cbn. exact Cq.
    + apply Hcatch. cbn. exact Cq.
Qed.

Lemma hb_shape_run env d (evs : list HBEvent) :
  hb_shape env d (hb_run env d evs).
Proof.
  unfold hb_run.
  assert (H0 : hb_shape env d (hb_init env)).
  { split; [now split|]. split; [discriminate|].
    exists [], []. repeat split; auto. right. now split. }
  assert (I0 : hb_inv (hb_init env)) by (repeat split; discriminate).
  revert H0 I0. generalize (hb_init env).
  induction evs as [|e evs IH]; intros s Hs Hi; simpl; [exact Hs|].
  apply IH; [now apply hb_shape_step|now apply hb_inv_step].
Qed.

(** X5. Heartbeat mode, for any duration and under any order of interval
    ticks, cancellations by the peer and settlements of the main delay: the
    stream carries the start event, then heartbeat events only, then the
    completion event exactly when the handler completed, in which case it
    is the last unit and the only completion; no unit carries a progress
    value; and the main delay is pending exactly while the handler has not
    ended. *)
Theorem heartbeat_stream_shape (env : Env) (d : number) (evs : list HBEvent) :
  let s := hb_run env d evs in
  exists hbs tail,
    hb_queue s = SSEStart (now env 0) :: hbs ++ tail
    /\ Forall (fun u => is_heartbeat u = true) hbs
    /\ ((hb_end s = Completed /\ exists ts, tail = [SSEComplete d ts])
        \/ (hb_end s <> Completed /\ tail = []))
    /\ count_units is_complete (hb_queue s)
       = (match hb_end s with Completed => 1 | _ => 0 end)%nat
    /\ progresses (hb_queue s) = []
    /\ (delay_pending s = true <-> hb_end s = Pending).
Proof.
  intros s. destruct (hb_shape_run env d evs) as (Hp & _ & hbs & tail & Hq & Hall & Hcase).
  fold s in Hp, Hq, Hcase. exists hbs, tail.
  assert (Hnc : count_units is_complete hbs = 0%nat).
  { apply count_units_none. eapply Forall_impl; [|exact Hall].
    intros u Hu. now destruct u. }
  assert (Hnp : progresses hbs = []).
  { unfold progresses. clear -Hall. induction Hall as [|u us Hu _ IH];
      [reflexivity|]. simpl. rewrite IH. now destruct u. }
  split; [exact Hq|]. split; [exact Hall|]. split; [exact Hcase|].
  rewrite Hq. change (SSEStart (now env 0) :: hbs ++ tail)
    with ([SSEStart (now env 0)] ++ hbs ++ tail).
  unfold progresses in *. rewrite !count_units_app, !flat_map_app, Hnc, Hnp.
  destruct Hcase as [(He & ts & ->)|(Hne & ->)].
  - split; [now rewrite He|]. split; [reflexivity|exact Hp].
  - split; [|split; [reflexivity|exact Hp]].
    destruct (hb_end s); try reflexivity. congruence.
Qed.

Lemma hb_queue_frozen env d (evs : list HBEvent) :
  forall s, hb_stream s <> Readable ->
  hb_queue (fold_left (hb_step env d) evs s) = hb_queue s
  /\ hb_stream (fold_left (hb_step env d) evs s) <> Readable.
Proof.
  induction evs as [|e evs IH]; intros s Hs; [now split|].
  cbn [fold_left].
  assert (Hstep : hb_queue (hb_step env d s e) = hb_queue s
                  /\ hb_stream (hb_step env d s e) <> Readable).
  { destruct (hb_clear_fields s) as (Cs & Cq & _ & _).
    destruct e as [| |o]; cbn [hb_step].
    - destruct (timer_registered s); [|now split].
      unfold hb_enqueue, hb_tick_clock. cbn [hb_stream].
      destruct (hb_stream s) eqn:Es; [congruence| |];
        unfold hb_close, hb_clear; cbn; destruct (heartbeatInterval s); cbn;
        rewrite ?Es; split; congruence.
    - cbn. destruct (hb_stream s); [congruence| |]; split; congruence.
    - destruct (delay_pending s); [|now split].
      assert (Hcatch : forall abort s1,
                hb_queue s1 = hb_queue s -> hb_stream s1 = hb_stream s ->
                hb_queue (hb_catch abort s1) = hb_queue s
                /\ hb_stream (hb_catch abort s1) <> Readable).
      { intros abort s1 Hq1 Hs1.
        destruct (hb_clear_fields s1) as (Cs1 & Cq1 & _ & _).
        unfold hb_catch, hb_close, hb_error, hb_settle.
        destruct abort; cbn; rewrite Cs1, Cq1, Hs1, Hq1;
          destruct (hb_stream s); try congruence; split; congruence. }
      destruct o; [|now apply Hcatch|now apply Hcatch].
      unfold hb_enqueue, hb_tick_clock. cbn [hb_stream]. rewrite Cs.
      destruct (hb_stream s) eqn:Es; [congruence| |];
        apply Hcatch; cbn; congruence. }
  destruct Hstep as (Hq & Hs').
  destruct (IH _ Hs') as (Hq' & Hs''). split; [congruence|exact Hs''].
Qed.

(** X6. Heartbeat mode detects a vanished peer on write: in any reachable
    state where the interval is registered, once the peer has cancelled the
    stream the next tick enqueues nothing and clears the interval, while the
    main delay is left pending if it was; and from a stream that is no
    longer readable nothing is ever enqueued again, whatever happens. *)
Theorem heartbeat_detects_peer_on_write
  (env : Env) (d : number) (evs later : list HBEvent) :
  let s := hb_run env d evs in
  let s' := hb_step env d (hb_step env d s PeerCancel) Tick in
  timer_registered s = true ->
  timer_registered s' = false
  /\ heartbeatInterval s' = false
  /\ hb_queue s' = hb_queue s
  /\ delay_pending s' = delay_pending s
  /\ hb_queue (fold_left (hb_step env d) later s') = hb_queue s.
Proof.
  intros s s' Ht.
  destruct (hb_inv_run env d evs) as (Hv & _ & _). fold s in Hv.
  assert (Hns : hb_stream (hb_step env d s PeerCancel) <> Readable).
  { cbn. destruct (hb_stream s); congruence. }
  assert (Hs' : s' = hb_close (hb_clear (hb_tick_clock (hb_step env d s PeerCancel)))).
  { unfold s', hb_step, hb_peer_cancel, hb_enqueue, hb_tick_clock.
    cbn [timer_registered hb_stream]. rewrite Ht.
    destruct (hb_stream s); reflexivity. }
  assert (Hfields : timer_registered s' = false /\ heartbeatInterval s' = false
                    /\ hb_queue s' = hb_queue s
                    /\ delay_pending s' = delay_pending s
                    /\ hb_stream s' <> Readable).
  { rewrite Hs'. unfold hb_close, hb_clear, hb_tick_clock. cbn.
    rewrite Hv, Ht. cbn. repeat split. destruct (hb_stream s); congruence. }
  destruct Hfields as (H1 & H2 & H3 & H4 & H5).
  repeat split; try assumption.
  rewrite <- H3. apply hb_queue_frozen. exact H5.
Qed.

Lemma heartbeat_detects_peer_on_write_witness :
  let s := hb_run (quiet 0) (num_of_Z 30000) [Tick; Tick] in
  let s' := hb_step (quiet 0) (num_of_Z 30000)
              (hb_step (quiet 0) (num_of_Z 30000) s PeerCancel) Tick in
  timer_registered s = true
  /\ timer_registered s' = false
  /\ delay_pending s' = true
  /\ hb_queue (fold_left (hb_step (quiet 0) (num_of_Z 30000))
                 [Tick; DelaySettles Elapsed] s')
     = [SSEStart (now (quiet 0) 0); SSEHeartbeat (now (quiet 0) 1);
        SSEHeartbeat (now (quiet 0) 2)].
Proof.
  intros s s'.
  assert (Ht : timer_registered s = true) by reflexivity.
  destruct (heartbeat_detects_peer_on_write (quiet 0) (num_of_Z 30000)
              [Tick; Tick] [Tick; DelaySettles Elapsed] Ht)
    as (H1 & _ & _ & H4 & H5).
  split; [exact Ht|]. split; [exact H1|]. split; [exact H4|exact H5].
Defined.

(** ** The status of a response *)

(** X7. The route answers 400 exactly when the mode parameter, once
    defaulted, is none of the four modes; 499 and 500 only in signal mode,
    when the delay was aborted or failed otherwise; and 200 in every other
    case: a streaming mode answers 200 with a stream whatever the duration
    parameter is and whatever later happens to the client. *)
Theorem GET_status (fuel : nat) (env : Env) (modeParam durationParam : option JSString)
  (r : Response) :
  GET fuel env modeParam durationParam = Some r ->
  let m := mode_of (or_default modeParam (js "signal")) in
  (status r = 400%Z <-> m = None)
  /\ (status r = 499%Z <-> m = Some signal /\ delay env 0 = AbortError)
  /\ (status r = 500%Z <-> m = Some signal /\ delay env 0 = OtherError)
  /\ (status r = 200%Z
      <-> (m = Some signal /\ delay env 0 = Elapsed)
          \/ m = Some stream \/ m = Some heartbeat \/ m = Some chunked)
  /\ (m = Some stream \/ m = Some heartbeat \/ m = Some chunked ->
      exists run, body r = BodyStream run)
  /\ (m = None -> body r = BodyText (js "Invalid mode")).
Proof.
  intros H. unfold GET in H. cbv zeta in *.
  destruct (mode_of (or_default modeParam (js "signal"))) as [[| | |]|];
    cbn [handle] in H.
  - unfold handleSignalMode in H. destruct (delay env 0); injection H as <-;
      cbn [status textResponse body];
      intuition (try discriminate; try congruence).
  - unfold handleStreamMode in H.
    destruct (handleStreamMode_run fuel env _) as [run|]; [|discriminate].
    injection H as <-. cbn [status streamResponse body].
    intuition (try discriminate; try congruence; eauto).
  - injection H as <-. unfold handleHeartbeatMode.
    cbn [status streamResponse body].
    intuition (try discriminate; try congruence; eauto).
  - unfold handleChunkedMode in H.
    destruct (handleChunkedMode_run fuel env _) as [run|]; [|discriminate].
    injection H as <-. cbn [status streamResponse body].
    intuition (try discriminate; try congruence; eauto).
  - injection H as <-. cbn [status textResponse body].
    intuition (try discriminate; try congruence).
Qed.

Lemma GET_status_witness :
  GET 1 (aborting 0) (Some (js "stream")) (Some (js "-1"))
  = Some (streamResponse "application/x-ndjson"
            {| emitted := [StreamStart (now (aborting 0) 0);
                           StreamComplete (num_of_Z (-1)) (now (aborting 0) 1)];
               ending := Completed |})
  /\ (forall r, GET 0 (aborting 0) (Some (js "Signal")) None = Some r ->
                status r = 400%Z)
  /\ (forall r, GET 0 (aborting 0) (Some []) None = Some r ->
                status r = 499%Z).
Proof.
  split; [reflexivity|]. split.
  - intros r H.
    exact (proj2 (proj1 (GET_status 0 (aborting 0) (Some (js "Signal")) None r H))
             eq_refl).
  - intros r H.
    exact (proj2 (proj1 (proj2 (GET_status 0 (aborting 0) (Some []) None r H)))
             (conj eq_refl eq_refl)).
Defined.

(** ** Invariants of the orchestrator *)

Section ClientInvariants.
Variable parse : JSString -> option JSValue.

Lemma signal_aborted_false (c : Client) (k : nat) :
  Forall (fun j => j <= requestIdRef c)%nat (aborted c) ->
  (requestIdRef c < k)%nat -> signal_aborted c k = false.
Proof.
  unfold signal_aborted. intros H Hk.
  induction H as [|j l Hj _ IH]; [reflexivity|]. simpl. rewrite IH.
  destruct (Nat.eqb_spec k j); [lia|reflexivity].
Qed.

Lemma apply_events_fields (evs : list ClientEvent) :
  forall c, let c' := apply_events evs c in
  requestIdRef c' = requestIdRef c
  /\ abortControllerRef c' = abortControllerRef c
  /\ aborted c' = aborted c /\ tasks c' = tasks c /\ mode c' = mode c
  /\ loading (shared c') = loading (shared c)
  /\ error (shared c') = error (shared c).
Proof.
  unfold apply_events. induction evs as [|e evs IH]; intros c; [now repeat split|].
  cbn [fold_left]. destruct (IH (apply_event e c)) as (H1 & H2 & H3 & H4 & H5 & H6 & H7).
  cbv zeta. rewrite H1, H2, H3, H4, H5, H6, H7. now destruct e.
Qed.

(** What resuming the current request can do to the refs and to [loading]:
    it stays suspended and they are untouched, or it ends and the ref is
    cleared and [loading] is false. *)
Lemma resume_current (t : Task) (s : Settlement) (c : Client) :
  currentRequestId t = requestIdRef c ->
  let c' := fst (resume parse t s c) in
  requestIdRef c' = requestIdRef c /\ aborted c' = aborted c
  /\ tasks c' = tasks c
  /\ match snd (resume parse t s c) with
     | Some t' =>
         currentRequestId t' = currentRequestId t
         /\ abortControllerRef c' = abortControllerRef c
         /\ loading (shared c') = loading (shared c)
     | None =>
         abortControllerRef c' = None /\ loading (shared c') = false
     end.
Proof.
  intros Hid. pose proof (proj2 (Nat.eqb_eq _ _) Hid) as E.
  unfold resume, handleApiCall_catch, handleApiCall_finally, read_guard.
  cbv zeta. rewrite E. cbn [negb orb andb].
  destruct (awaiting t), s; cbn [fst snd];
    repeat match goal with
      | |- context [match ?e with ErrAbort => _ | _ => _ end] => destruct e
      | |- context [if ?b then _ else _] => destruct b eqn:?
      | |- context [match task_mode t with _ => _ end] => destruct (task_mode t)
      | |- context [let '(_, _) := ?p in _] => destruct p eqn:?
      end;
    cbn [fst snd requestIdRef aborted tasks abortControllerRef shared loading
         setError setResponse setLoading set_abortControllerRef with_shared
         currentRequestId];
    rewrite ?E;
    cbn [fst snd requestIdRef aborted tasks abortControllerRef shared loading
         setError setResponse setLoading set_abortControllerRef with_shared
         currentRequestId];
    try (now repeat split);
    try match goal with
    | |- context [apply_events ?evs c] =>
        destruct (apply_events_fields evs c) as (H1 & H2 & H3 & H4 & _ & H6 & _);
        cbv zeta in *; rewrite ?H1, ?H2, ?H3, ?H4, ?H6; now repeat split
    end.
  all: exfalso;
    match goal with
    | H : (_ =? _)%nat = false |- _ =>
        cbn [requestIdRef setError setResponse with_shared] in H;
        rewrite E in H;
        discriminate H
    end.
Qed.

(** What a settlement does to the invocations in flight: each keeps its
    identity, and at most the one it is delivered to ends. *)
Lemma settle_shape (id : nat) (s : Settlement) (ts : list Task) (c : Client) :
  let r := settle parse id s ts c in
  (map currentRequestId (snd r) = map currentRequestId ts
   /\ (id = requestIdRef c ->
       aborted (fst r) = aborted c
       /\ abortControllerRef (fst r) = abortControllerRef c
       /\ loading (shared (fst r)) = loading (shared c)))
  \/ (exists l1 l2,
        map currentRequestId ts = l1 ++ id :: l2
        /\ map currentRequestId (snd r) = l1 ++ l2
        /\ (id = requestIdRef c ->
            aborted (fst r) = aborted c
            /\ abortControllerRef (fst r) = None
            /\ loading (shared (fst r)) = false)).
Proof.
  induction ts as [|t rest IH]; cbn [settle]; cbv zeta.
  - left. now repeat split.
  - destruct (Nat.eqb_spec (currentRequestId t) id) as [E|E].
    + destruct (resume_requestIdRef parse t s c) as (_ & Hid).
      pose proof (resume_current t s c) as Hc. cbv zeta in Hc.
      destruct (resume parse t s c) as [c' [t'|]]; cbn [fst snd] in *.
      * left. cbn [map]. rewrite (Hid t' eq_refl). split; [reflexivity|].
        intros ->. destruct (Hc E) as (_ & Ha & _ & _ & Hr & Hl).
        now repeat split.
      * right. exists [], (map currentRequestId rest). cbn [map app].
        rewrite E. split; [reflexivity|]. split; [reflexivity|].
        intros ->. destruct (Hc E) as (_ & Ha & _ & Hr & Hl).
        now repeat split.
    + destruct (settle parse id s rest c) as [c' rest']. cbn [fst snd] in *.
      destruct IH as [(Hm & H)|(l1 & l2 & Hm & Hm' & H)].
      * left. cbn [map]. now rewrite Hm.
      * right. exists (currentRequestId t :: l1), l2. cbn [map app].
        now rewrite Hm, Hm'.
Qed.

Lemma client_inv_initial : client_inv Client_initial.
Proof.
  unfold client_inv, in_flight. cbn.
  repeat split; try constructor; try discriminate; try intros []; try congruence.
Qed.

Lemma signal_aborted_cons (c c' : Client) (k j : nat) :
  aborted c' = j :: aborted c ->
  signal_aborted c k = true -> signal_aborted c' k = true.
Proof.
  unfold signal_aborted. intros -> H. cbn. rewrite H. apply orb_true_r.
Qed.

Lemma step_inv (c : Client) (a : Action) :
  client_inv c -> client_inv (step parse c a).
Proof.
  unfold client_inv, in_flight.
  intros (Hnd & Hb & Hab & Href & Hload & Hcur & Hfl).
  destruct a as [| |m|id s]; cbn [step].
  - (* handleApiCall *)
    unfold handleApiCall_start. destruct (loading (shared c)) eqn:El.
    { cbv iota. rewrite El in *. tauto. }
    assert (Hn : abortControllerRef c = None).
    { destruct (abortControllerRef c); [|reflexivity].
      assert (true = false) by (symmetry; apply Hload; discriminate).
      discriminate. }
    unfold cleanupRequest. rewrite Hn.
    cbn [tasks set_tasks set_abortControllerRef setProgress setError
         setResponse setLoading with_shared requestIdRef aborted shared
         loading abortControllerRef mode].
    rewrite map_app. cbn [map currentRequestId].
    assert (Hfresh : ~ In (S (requestIdRef c)) (map currentRequestId (tasks c))).
    { intros Hin. rewrite Forall_forall in Hb. specialize (Hb _ Hin). lia. }
    unfold signal_aborted in *.
    cbn [tasks set_tasks set_abortControllerRef setProgress setError
         setResponse setLoading with_shared requestIdRef aborted shared
         loading abortControllerRef mode].
    repeat split.
    + apply NoDup_app; [exact Hnd|repeat constructor; intros []|].
      intros x Hx [<-|[]]. now apply Hfresh.
    + apply Forall_app. split; [|repeat constructor].
      eapply Forall_impl; [|exact Hb]. cbn. intros; lia.
    + eapply Forall_impl; [|exact Hab]. cbn. intros; lia.
    + congruence.
    + injection H as <-.
      apply (signal_aborted_false c); [exact Hab|lia].
    + discriminate.
    + intros _. apply in_or_app. right. now left.
    + apply Forall_app. split.
      * eapply Forall_impl; [|exact Hfl]. cbn.
        intros k [Hk|(_ & Hk)]; [now left|discriminate].
      * constructor; [|constructor]. right. now split.
  - (* handleCancelRequest *)
    unfold handleCancelRequest, cleanupRequest, signal_aborted in *.
    destruct (abortControllerRef c) as [k|] eqn:Er;
      cbn [tasks setProgress setError setLoading with_shared requestIdRef
           aborted shared loading abortControllerRef].
    + destruct (Href k eq_refl) as (-> & _).
      repeat split; try assumption; try discriminate; try congruence.
      * constructor; [lia|exact Hab].
      * rewrite Forall_forall in *. intros j Hj.
        left. cbn [existsb].
        destruct (Hfl j Hj) as [Hk|(-> & _)].
        -- rewrite Hk. apply orb_true_r.
        -- now rewrite Nat.eqb_refl.
    + assert (El : loading (shared c) = false).
      { destruct (loading (shared c)); [|reflexivity].
        now destruct (proj1 Hload eq_refl). }
      repeat split; try assumption; try discriminate; try congruence.
      eapply Forall_impl; [|exact Hfl]. cbn.
      intros j [Hj|(_ & Hj)]; [now left|congruence].
  - (* setMode *)
    unfold signal_aborted in *.
    cbn [tasks requestIdRef aborted shared abortControllerRef]. tauto.
  - (* a promise settles *)
    pose proof (settle_shape id s (tasks c) c) as Hs.
    destruct (settle_requestIdRef parse id s (tasks c) c (requestIdRef c))
      as (Hrid & _).
    { rewrite Forall_forall in *. intros t Ht. apply Hb. now apply in_map. }
    destruct (Nat.eq_dec id (requestIdRef c)) as [Eid|Eid].
    + cbv zeta in Hs.
      destruct (settle parse id s (tasks c) c) as [c' ts']. cbn [fst snd] in *.
      cbn [tasks set_tasks requestIdRef aborted shared abortControllerRef].
      unfold signal_aborted in *. cbn [aborted set_tasks].
      destruct Hs as [(Hm & H)|(l1 & l2 & Hm & Hm' & H)];
        destruct (H Eid) as (Ha & Hr & Hl); rewrite ?Hm, ?Hm', Hrid, Ha, Hr, Hl.
      * tauto.
      * rewrite Hm in *.
        repeat split; try discriminate; try congruence.
        -- now apply NoDup_remove_1 in Hnd.
        -- apply Forall_app in Hb as (Hb1 & Hb2). inversion Hb2; subst.
           apply Forall_app. now split.
        -- apply NoDup_remove_2 in Hnd.
           apply Forall_app in Hfl as (Hf1 & Hf2). inversion Hf2; subst.
           rewrite Forall_forall in *. intros j Hj. left.
           assert (Hin : In j l1 \/ In j l2) by now apply in_app_or.
           assert (Hne : j <> requestIdRef c) by (intros ->; now apply Hnd).
           destruct Hin as [Hin|Hin];
             [destruct (Hf1 j Hin) as [?|(? & _)]
             |destruct (H3 j Hin) as [?|(? & _)]]; congruence.
    + pose proof (settle_stale parse id s (tasks c) c Eid) as Hst.
      cbv zeta in Hs.
      destruct (settle parse id s (tasks c) c) as [c' ts']. cbn [fst snd] in *.
      subst c'.
      cbn [tasks set_tasks requestIdRef aborted shared abortControllerRef].
      unfold signal_aborted in *. cbn [aborted set_tasks].
      destruct Hs as [(Hm & _)|(l1 & l2 & Hm & Hm' & _)]; rewrite ?Hm, ?Hm'.
      * tauto.
      * rewrite Hm in *.
        repeat split; try assumption.
        -- now apply NoDup_remove_1 in Hnd.
        -- apply Forall_app in Hb as (Hb1 & Hb2). inversion Hb2; subst.
           apply Forall_app. now split.
        -- now apply Href.
        -- now apply Href.
        -- now apply Hload.
        -- now apply Hload.
        -- intros Hl. specialize (Hcur Hl).
           apply in_app_or in Hcur as [Hin|[Hin|Hin]];
             [apply in_or_app; now left|congruence|apply in_or_app; now right].
        -- apply Forall_app in Hfl as (Hf1 & Hf2). inversion Hf2; subst.
           apply Forall_app. now split.
Qed.

Lemma run_inv (acts : list Action) :
  forall c, client_inv c -> client_inv (run parse c acts).
Proof.
  unfold run. induction acts as [|a acts IH]; intros c H; [exact H|].
  cbn [fold_left]. apply IH. now apply step_inv.
Qed.
End ClientInvariants.

(** X8. In every state the orchestrator can reach, [loading] is true exactly
    when [abortControllerRef] holds a controller; that controller is then
    the current request's, its signal has not fired, and the current
    request is in flight: the spinner never shows without a request that
    can still end it. *)
Theorem loading_tracks_the_current_request
  (parse : JSString -> option JSValue) (acts : list Action) :
  let c := run parse Client_initial acts in
  (loading (shared c) = true <-> abortControllerRef c = Some (requestIdRef c))
  /\ (loading (shared c) = false <-> abortControllerRef c = None)
  /\ (loading (shared c) = true ->
      In (requestIdRef c) (in_flight c)
      /\ signal_aborted c (requestIdRef c) = false).
Proof.
  cbv zeta.
  destruct (run_inv parse acts Client_initial client_inv_initial)
    as (_ & _ & _ & Href & Hload & Hcur & _).
  set (c := run parse Client_initial acts) in *.
  destruct (abortControllerRef c) as [k|] eqn:Er.
  - destruct (Href k eq_refl) as (-> & Hk).
    assert (El : loading (shared c) = true) by (apply Hload; discriminate).
    rewrite El. repeat split; try discriminate; auto.
  - assert (El : loading (shared c) = false).
    { destruct (loading (shared c)); [|reflexivity].
      now destruct (proj1 Hload eq_refl). }
    rewrite El. repeat split; discriminate.
Qed.

(** X9. In every state the orchestrator can reach, the invocations of
    [handleApiCall] in flight have distinct identities, none beyond the
    current one, and each of them either is the current request while
    [loading] is true or has had its controller aborted: no request is left
    running without its signal having fired once it has been cancelled or
    replaced. *)
Theorem requests_in_flight_are_current_or_aborted
  (parse : JSString -> option JSValue) (acts : list Action) :
  let c := run parse Client_initial acts in
  NoDup (in_flight c)
  /\ forall k, In k (in_flight c) ->
       (k <= requestIdRef c)%nat
       /\ (signal_aborted c k = true
           \/ (k = requestIdRef c /\ loading (shared c) = true
               /\ signal_aborted c k = false)).
Proof.
  cbv zeta.
  destruct (run_inv parse acts Client_initial client_inv_initial)
    as (Hnd & Hb & _ & Href & Hload & _ & Hfl).
  set (c := run parse Client_initial acts) in *.
  split; [exact Hnd|]. intros k Hk. rewrite Forall_forall in Hb, Hfl.
  split; [now apply Hb|].
  destruct (Hfl k Hk) as [Ha|(-> & El)]; [now left|]. right.
  split; [reflexivity|]. split; [exact El|].
  destruct (abortControllerRef c) as [j|] eqn:Er.
  - destruct (Href j eq_refl) as (-> & Hj). exact Hj.
  - now destruct (proj1 Hload El).
Qed.

Section ClientPaths.
Variable parse : JSString -> option JSValue.

Lemma resume_keeps_aborted (t : Task) (s : Settlement) (c : Client) :
  aborted (fst (resume parse t s c)) = aborted c.
Proof.
  destruct (Nat.eq_dec (currentRequestId t) (requestIdRef c)) as [E|E].
  - now destruct (resume_current parse t s c E) as (_ & Ha & _).
  - now rewrite (resume_stale parse t s c E).
Qed.

Lemma settle_keeps_aborted (id : nat) (s : Settlement) (ts : list Task)
  (c : Client) :
  aborted (fst (settle parse id s ts c)) = aborted c.
Proof.
  induction ts as [|t rest IH]; [reflexivity|]. cbn [settle].
  destruct (Nat.eqb (currentRequestId t) id).
  - pose proof (resume_keeps_aborted t s c) as H.
    now destruct (resume parse t s c) as [c' t'].
  - now destruct (settle parse id s rest c) as [c' rest'].
Qed.

(** A signal that has fired stays fired. *)
Lemma step_keeps_aborted (c : Client) (a : Action) (k : nat) :
  signal_aborted c k = true -> signal_aborted (step parse c a) k = true.
Proof.
  unfold signal_aborted. intros H. destruct a as [| |m|id s]; cbn [step].
  - unfold handleApiCall_start, cleanupRequest.
    destruct (loading (shared c)); [exact H|].
    destruct (abortControllerRef c); cbn; rewrite H; auto using orb_true_r.
  - unfold handleCancelRequest, cleanupRequest.
    destruct (abortControllerRef c); cbn; rewrite H; auto using orb_true_r.
  - exact H.
  - pose proof (settle_keeps_aborted id s (tasks c) c) as Ha.
    destruct (settle parse id s (tasks c) c) as [c' ts]. cbn [fst] in Ha.
    cbn [set_tasks aborted]. now rewrite Ha.
Qed.

Lemma run_keeps_aborted (acts : list Action) (k : nat) :
  forall c, signal_aborted c k = true ->
            signal_aborted (run parse c acts) k = true.
Proof.
  unfold run. induction acts as [|a acts IH]; intros c H; [exact H|].
  cbn [fold_left]. apply IH. now apply step_keeps_aborted.
Qed.

(** An invocation whose signal has fired resumes without a call of
    [setResponse] or [setProgress]. *)
Lemma resume_aborted (t : Task) (s : Settlement) (c : Client) :
  signal_aborted c (currentRequestId t) = true ->
  response (shared (fst (resume parse t s c))) = response (shared c)
  /\ progress (shared (fst (resume parse t s c))) = progress (shared c).
Proof.
  intros Ha.
  unfold resume, handleApiCall_catch, handleApiCall_finally, read_guard.
  cbv zeta.
  destruct (awaiting t), s; cbn [fst snd];
    rewrite ?Ha, ?orb_true_r, ?andb_false_r; cbn [negb];
    repeat match goal with
      | |- context [match ?e with ErrAbort => _ | _ => _ end] => destruct e
      | |- context [if ?b then _ else _] => destruct b
      end;
    cbn; now split.
Qed.

Lemma settle_aborted (id : nat) (s : Settlement) (ts : list Task) (c : Client) :
  signal_aborted c id = true ->
  response (shared (fst (settle parse id s ts c))) = response (shared c)
  /\ progress (shared (fst (settle parse id s ts c))) = progress (shared c).
Proof.
  intros Ha. induction ts as [|t rest IH]; [now split|]. cbn [settle].
  destruct (Nat.eqb_spec (currentRequestId t) id) as [E|E].
  - pose proof (resume_aborted t s c) as H. rewrite E in H. specialize (H Ha).
    now destruct (resume parse t s c) as [c' t'].
  - now destruct (settle parse id s rest c) as [c' rest'].
Qed.

(** The [catch] and the [finally] of the current request. *)
Lemma catch_current (e : JSError) (c : Client) :
  shared (handleApiCall_catch (requestIdRef c) e c)
  = {| loading := false; response := response (shared c);
       error := Some (match e with
                      | ErrAbort => js "Request was cancelled"
                      | ErrOther message => message
                      | NotAnError => js "An error occurred"
                      end);
       progress := progress (shared c) |}
  /\ abortControllerRef (handleApiCall_catch (requestIdRef c) e c) = None.
Proof.
  unfold handleApiCall_catch, handleApiCall_finally.
  rewrite Nat.eqb_refl. cbn [negb].
  destruct e; cbn [requestIdRef setError with_shared];
    rewrite Nat.eqb_refl; now split.
Qed.

Lemma finally_current (c : Client) :
  shared (handleApiCall_finally (requestIdRef c) c)
  = {| loading := false; response := response (shared c);
       error := error (shared c); progress := progress (shared c) |}
  /\ abortControllerRef (handleApiCall_finally (requestIdRef c) c) = None.
Proof.
  unfold handleApiCall_finally. rewrite Nat.eqb_refl. now split.
Qed.

(** The settlement of the request [t] is delivered to [t]. *)
Lemma settle_task (t : Task) (s : Settlement) (ts : list Task) (c : Client) :
  NoDup (map currentRequestId ts) -> In t ts ->
  fst (settle parse (currentRequestId t) s ts c) = fst (resume parse t s c).
Proof.
  induction ts as [|t0 rest IH]; intros Hnd Hin; [destruct Hin|].
  cbn [settle]. cbn [map] in Hnd. inversion Hnd as [|? ? Hn Hnd']; subst.
  destruct Hin as [->|Hin].
  - rewrite Nat.eqb_refl. now destruct (resume parse t s c).
  - destruct (Nat.eqb_spec (currentRequestId t0) (currentRequestId t)) as [E|E].
    + exfalso. apply Hn. rewrite E. now apply in_map.
    + specialize (IH Hnd' Hin).
      now destruct (settle parse (currentRequestId t) s rest c).
Qed.
End ClientPaths.

(** X10. Once the user has cancelled the request shown as loading, nothing
    that request's promises deliver afterwards (a response, a JSON body, a
    read, a rejection), whatever else happens in between, calls
    [setResponse] or [setProgress]; the cancellation itself leaves
    [loading] false, the progress 0 and the message of
    [handleCancelRequest], and keeps the response there was. *)
Theorem cancelled_request_delivers_nothing
  (parse : JSString -> option JSValue) (acts later : list Action)
  (s : Settlement) :
  let c := run parse Client_initial acts in
  loading (shared c) = true ->
  let id := requestIdRef c in
  let c1 := step parse c Cancel in
  shared c1 = {| loading := false; response := response (shared c);
                 error := Some (js "Request cancelled by user");
                 progress := JNumber (num_of_Z 0) |}
  /\ abortControllerRef c1 = None
  /\ signal_aborted c1 id = true
  /\ let c2 := run parse c1 later in
     let c3 := step parse c2 (Settle id s) in
     response (shared c3) = response (shared c2)
     /\ progress (shared c3) = progress (shared c2).
Proof.
  cbv zeta. intros El.
  destruct (run_inv parse acts Client_initial client_inv_initial)
    as (_ & _ & _ & Href & Hload & _ & _).
  set (c := run parse Client_initial acts) in *.
  destruct (abortControllerRef c) as [k|] eqn:Er;
    [|now destruct (proj1 Hload El)].
  destruct (Href k eq_refl) as (-> & _).
  assert (Hab : signal_aborted (step parse c Cancel) (requestIdRef c) = true).
  { cbn [step]. unfold handleCancelRequest, cleanupRequest, signal_aborted.
    rewrite Er. cbn. now rewrite Nat.eqb_refl. }
  split; [|split; [|split; [exact Hab|]]].
  - cbn [step]. unfold handleCancelRequest, cleanupRequest. rewrite Er.
    reflexivity.
  - cbn [step]. unfold handleCancelRequest, cleanupRequest. now rewrite Er.
  - pose proof (run_keeps_aborted parse later (requestIdRef c) _ Hab) as Hab'.
    set (c2 := run parse (step parse c Cancel) later) in *.
    cbn [step].
    pose proof (settle_aborted parse (requestIdRef c) s (tasks c2) c2 Hab') as H.
    destruct (settle parse (requestIdRef c) s (tasks c2) c2) as [c' ts].
    exact H.
Qed.

Lemma cancelled_request_delivers_nothing_witness :
  let parse := JSON_parse in
  let data := JObject [(js "mode", JString (js "signal"))] in
  let c := run parse Client_initial [Click; Settle 1 (FetchResolved 200 true)] in
  let c2 := step parse c Cancel in
  loading (shared c) = true
  /\ In 1%nat (in_flight c2)
  /\ response (shared (step parse c2 (Settle 1 (JsonResolved data)))) = None
  /\ progress (shared (step parse c2 (Settle 1 (JsonResolved data))))
     = JNumber (num_of_Z 0).
Proof.
  intros parse data c c2.
  assert (Hl : loading (shared c) = true) by reflexivity.
  split; [exact Hl|]. split; [left; reflexivity|].
  destruct (cancelled_request_delivers_nothing parse
              [Click; Settle 1 (FetchResolved 200 true)] []
              (JsonResolved data) Hl) as (_ & _ & _ & Hr & Hp).
  split; [exact Hr|exact Hp].
Defined.

(** X11. When the user cancels the request shown as loading and its fetch
    (or read) then rejects with the [AbortError] the abort causes, the
    [catch] of [handleApiCall] still sees the current identity and replaces
    the message of [handleCancelRequest] by its own. *)
Theorem abort_rejection_replaces_cancel_message
  (parse : JSString -> option JSValue) (acts : list Action) :
  let c := run parse Client_initial acts in
  loading (shared c) = true ->
  let c1 := step parse c Cancel in
  let c2 := step parse c1 (Settle (requestIdRef c) (Rejected ErrAbort)) in
  error (shared c1) = Some (js "Request cancelled by user")
  /\ shared c2 = {| loading := false; response := response (shared c);
                    error := Some (js "Request was cancelled");
                    progress := JNumber (num_of_Z 0) |}
  /\ abortControllerRef c2 = None.
Proof.
  cbv zeta. intros El.
  destruct (run_inv parse acts Client_initial client_inv_initial)
    as (Hnd & _ & _ & Href & Hload & Hcur & _).
  set (c := run parse Client_initial acts) in *.
  destruct (abortControllerRef c) as [k|] eqn:Er;
    [|now destruct (proj1 Hload El)].
  destruct (Href k eq_refl) as (-> & _).
  apply Hcur in El. unfold in_flight in El.
  apply in_map_iff in El as (t & Hid & Hin).
  assert (E1 : step parse c Cancel
               = {| shared := {| loading := false;
                                 response := response (shared c);
                                 error := Some (js "Request cancelled by user");
                                 progress := JNumber (num_of_Z 0) |};
                    mode := mode c; requestIdRef := requestIdRef c;
                    abortControllerRef := None;
                    aborted := requestIdRef c :: aborted c;
                    tasks := tasks c |}).
  { cbn [step]. unfold handleCancelRequest, cleanupRequest. now rewrite Er. }
  rewrite E1. split; [reflexivity|]. set (c1 := {| shared := _ |}).
  cbn [step].
  pose proof (settle_task parse t (Rejected ErrAbort) (tasks c1) c1 Hnd Hin) as Hs.
  rewrite Hid in Hs.
  destruct (settle parse (requestIdRef c) (Rejected ErrAbort) (tasks c1) c1)
    as [c' ts]. cbn [fst] in Hs. subst c'.
  unfold resume. cbv zeta.
  rewrite Hid. change (requestIdRef c) with (requestIdRef c1).
  destruct (catch_current ErrAbort c1) as (Hsh & Hr).
  destruct (awaiting t); cbn [fst]; now split.
Qed.

Lemma abort_rejection_replaces_cancel_message_witness :
  let parse := JSON_parse in
  let c := run parse Client_initial [SetMode stream; Click] in
  loading (shared c) = true
  /\ error (shared (run parse c [Cancel; Settle 1 (Rejected ErrAbort)]))
     = Some (js "Request was cancelled").
Proof.
  intros parse c.
  assert (Hl : loading (shared c) = true) by reflexivity.
  split; [exact Hl|].
  destruct (abort_rejection_replaces_cancel_message parse
              [SetMode stream; Click] Hl) as (_ & Hs & _).
  exact (f_equal error Hs).
Defined.

(** X12. When the fetch of the request shown as loading resolves with a
    status outside 200..299, the user is told so and the request is over:
    [error] is "Request was cancelled by server" for 499 and
    "HTTP error! status: N" otherwise, [loading] is false, the controller
    is released, and neither response nor progress changes. *)
Theorem error_status_reaches_the_user
  (parse : JSString -> option JSValue) (acts : list Action)
  (t : Task) (status : Z) (hasBody : bool) :
  let c := run parse Client_initial acts in
  loading (shared c) = true ->
  In t (tasks c) -> currentRequestId t = requestIdRef c ->
  awaiting t = AwaitFetch ->
  (status < 200 \/ 299 < status)%Z ->
  let c' := step parse c (Settle (requestIdRef c)
                            (FetchResolved status hasBody)) in
  shared c' = {| loading := false; response := response (shared c);
                 error := Some (statusMessage status);
                 progress := progress (shared c) |}
  /\ abortControllerRef c' = None.
Proof.
  cbv zeta. intros El Hin Hid Haw Hst.
  destruct (run_inv parse acts Client_initial client_inv_initial)
    as (Hnd & _ & _ & Href & Hload & _ & _).
  set (c := run parse Client_initial acts) in *.
  destruct (abortControllerRef c) as [k|] eqn:Er;
    [|now destruct (proj1 Hload El)].
  destruct (Href k eq_refl) as (-> & Hna).
  cbn [step].
  pose proof (settle_task parse t (FetchResolved status hasBody) (tasks c) c
                Hnd Hin) as Hs.
  rewrite Hid in Hs.
  destruct (settle parse (requestIdRef c) (FetchResolved status hasBody)
              (tasks c) c) as [c' ts]. cbn [fst] in Hs. subst c'.
  unfold resume, statusMessage. cbv zeta. rewrite Haw, Hid, Nat.eqb_refl, Hna.
  cbn [negb].
  destruct (status =? 499)%Z eqn:E499.
  - cbn [fst].
    apply (finally_current
             (setError (Some (js "Request was cancelled by server")) c)).
  - assert (Hok : ((200 <=? status) && (status <=? 299))%Z = false).
    { destruct Hst; [apply andb_false_intro1|apply andb_false_intro2];
        apply Z.leb_gt; lia. }
    rewrite Hok. cbn [negb fst].
    apply (catch_current (ErrOther (httpErrorMessage status)) c).
Qed.

Lemma error_status_reaches_the_user_witness :
  let parse := JSON_parse in
  let c := run parse Client_initial [Click] in
  let t := {| currentRequestId := 1; task_mode := signal;
              awaiting := AwaitFetch |} in
  In t (tasks c)
  /\ error (shared (step parse c (Settle 1 (FetchResolved 400 true))))
     = Some (js "HTTP error! status: 400")
  /\ error (shared (step parse c (Settle 1 (FetchResolved 499 false))))
     = Some (js "Request was cancelled by server").
Proof.
  intros parse c t.
  assert (Hin : In t (tasks c)) by (left; reflexivity).
  split; [exact Hin|]. split.
  - destruct (error_status_reaches_the_user parse [Click] t 400 true
                eq_refl Hin eq_refl eq_refl (or_intror eq_refl)) as (Hs & _).
    exact (f_equal error Hs).
  - destruct (error_status_reaches_the_user parse [Click] t 499 false
                eq_refl Hin eq_refl eq_refl (or_intror eq_refl)) as (Hs & _).
    exact (f_equal error Hs).
Defined.

(** ** The readers on whole lines *)

Lemma split_lines_line (l rest : JSString) :
  no_line_feed l = true ->
  split_lines (l ++ LF :: rest) = l :: split_lines rest.
Proof.
  unfold no_line_feed. induction l as [|c l IH]; cbn [app forallb split_lines].
  - intros _. reflexivity.
  - intros H. apply andb_prop in H as (Hc & Hl).
    apply negb_true_iff in Hc. rewrite Hc, (IH Hl). reflexivity.
Qed.

Lemma split_lines_no_line_feed (l : JSString) :
  no_line_feed l = true -> split_lines l = [l].
Proof.
  unfold no_line_feed. induction l as [|c l IH]; cbn [forallb split_lines].
  - reflexivity.
  - intros H. apply andb_prop in H as (Hc & Hl).
    apply negb_true_iff in Hc. now rewrite Hc, (IH Hl).
Qed.

Lemma complete_lines_join (lines : list JSString) (tail : JSString) :
  Forall (fun l => no_line_feed l = true) lines ->
  no_line_feed tail = true ->
  complete_lines (flat_map (fun l => l ++ [LF]) lines ++ tail) = lines.
Proof.
  unfold complete_lines. intros Hl Ht.
  assert (E : split_lines (flat_map (fun l => l ++ [LF]) lines ++ tail)
              = lines ++ [tail]).
  { induction Hl as [|l ls Hl _ IH]; cbn [flat_map app].
    - now apply split_lines_no_line_feed.
    - rewrite <- !app_assoc. cbn [app]. rewrite (split_lines_line _ _ Hl).
      now rewrite IH. }
  rewrite E. apply removelast_last.
Qed.

(** X13. [handleStreamResponse] dispatches on exactly the lines of the body
    that a line feed ends, in order, however the body is cut into reads:
    when the decoded body is the lines [lines], each followed by a line
    feed, and then a rest [tail] without one, the calls are those of the
    loop body on each of [lines], and [tail] is never parsed, not even when
    the stream ends. *)
Theorem ndjson_reader_dispatches_terminated_lines
  (parse : JSString -> option JSValue) (reads : list (list byte))
  (lines : list JSString) (tail : JSString) :
  Forall (fun l => no_line_feed l = true) lines ->
  no_line_feed tail = true ->
  decoded_stream reads = flat_map (fun l => l ++ [LF]) lines ++ tail ->
  handleStreamResponse parse reads = flat_map (ndjson_line parse) lines.
Proof.
  intros Hl Ht E.
  now rewrite handleStreamResponse_spec, E, complete_lines_join.
Qed.

Lemma ndjson_reader_dispatches_terminated_lines_witness :
  let complete := jsq "{'status':'complete','mode':'stream'}" in
  let reads := [TextEncoder_encode (jsq "{'type':'progress','progress':40}");
                TextEncoder_encode ([LF] ++ complete)] in
  handleStreamResponse JSON_parse reads
  = [SetProgress (JNumber (num_of_Z 40))].
Proof.
  intros complete reads.
  apply (ndjson_reader_dispatches_terminated_lines JSON_parse reads
           [jsq "{'type':'progress','progress':40}"] complete).
  - constructor; [reflexivity|constructor].
  - reflexivity.
  - reflexivity.
Defined.

Lemma decode_stream_ascii (value : list byte) :
  is_ascii value = true ->
  forall d, bytes_needed (utf8 d) = 0%N ->
  snd (decode_stream d value) = map Byte.to_N value
  /\ bytes_needed (utf8 (fst (decode_stream d value))) = 0%N.
Proof.
  unfold is_ascii. induction value as [|b rest IH]; intros Ha d Hd.
  - now split.
  - cbn [forallb] in Ha. apply andb_prop in Ha as (Hb & Hr).
    cbn [decode_stream]. unfold decode_byte, utf8_step, utf8_lead.
    rewrite Hd. cbn [N.eqb].
    apply N.ltb_lt in Hb.
    assert (Hle : (Byte.to_N b <=? 127)%N = true) by (apply N.leb_le; lia).
    rewrite Hle. cbn [serialize].
    assert (Hbom : (Byte.to_N b =? 65279)%N = false) by (apply N.eqb_neq; lia).
    rewrite Hbom, andb_false_r.
    assert (H16 : utf16_of_code_point (Byte.to_N b) = [Byte.to_N b]).
    { unfold utf16_of_code_point.
      assert (Hlt : (Byte.to_N b <? 65536)%N = true) by (apply N.ltb_lt; lia).
      now rewrite Hlt. }
    rewrite H16.
    specialize (IH Hr {| utf8 := utf8_initial; bom_seen := true |} eq_refl).
    destruct (decode_stream {| utf8 := utf8_initial; bom_seen := true |} rest)
      as [d2 out2]. cbn [fst snd app map] in *.
    destruct IH as (-> & Hd2). now split.
Qed.

Lemma TextDecoder_decode_ascii (value : list byte) :
  is_ascii value = true -> TextDecoder_decode value = map Byte.to_N value.
Proof.
  intros Ha. unfold TextDecoder_decode.
  destruct (decode_stream_ascii value Ha TextDecoder_new eq_refl) as (Ho & Hd).
  destruct (decode_stream TextDecoder_new value) as [d out]. cbn [fst snd] in *.
  now rewrite Hd, Ho.
Qed.

Lemma split_lines_snoc_LF (t : JSString) :
  split_lines (t ++ [LF]) = split_lines t ++ [[]].
Proof.
  induction t as [|c r IH]; [reflexivity|].
  cbn [app split_lines]. rewrite IH. destruct (c =? LF)%N; [reflexivity|].
  pose proof (split_lines_nonempty r) as Hne.
  now destruct (split_lines r) as [|l ls]; [contradiction|].
Qed.

Lemma last_snoc_LF (value : list byte) :
  line_aligned value = true ->
  value = [] \/ exists v, value = v ++ [x0a].
Proof.
  unfold line_aligned. destruct value as [|b rest]; [now left|].
  intros H. right.
  assert (Hne : b :: rest <> []) by discriminate.
  destruct (exists_last Hne) as (v & x & E). rewrite E in *.
  rewrite last_last in H. exists v.
  now rewrite (Byte.byte_dec_bl x x0a H).
Qed.

Section WholeLines.
Variable f : JSString -> list ClientEvent.
Hypothesis f_empty : f [] = [].

(** The lines of a text that ends at a line feed and of what follows it are
    looked at one by one, as if the two had come together. *)
Lemma flat_map_split_lines_aligned (t u : JSString) :
  flat_map f (split_lines ((t ++ [LF]) ++ u))
  = flat_map f (split_lines (t ++ [LF])) ++ flat_map f (split_lines u).
Proof.
  rewrite (split_lines_app (t ++ [LF]) u), split_lines_snoc_LF.
  rewrite removelast_last, last_last. cbn [app].
  rewrite !flat_map_app. cbn [flat_map]. now rewrite f_empty, !app_nil_r.
Qed.
End WholeLines.

Lemma sse_aligned_reads (parse : JSString -> option JSValue)
  (reads : list (list byte)) :
  Forall (fun value => is_ascii value = true /\ line_aligned value = true)
    reads ->
  handleSSEResponse parse reads = handleSSEResponse parse [List.concat reads]
  /\ is_ascii (List.concat reads) = true.
Proof.
  intros H. unfold handleSSEResponse. cbn [flat_map]. rewrite app_nil_r.
  induction H as [|value rest (Ha & Hl) _ (IH & IHa)].
  - split; reflexivity.
  - cbn [flat_map List.concat].
    assert (Hcat : is_ascii (value ++ List.concat rest) = true).
    { unfold is_ascii in *. rewrite forallb_app, Ha, IHa. reflexivity. }
    split; [|exact Hcat].
    rewrite IH. unfold handleSSEResponse_read.
    rewrite !TextDecoder_decode_ascii by assumption.
    rewrite map_app.
    destruct (last_snoc_LF value Hl) as [->|(v & ->)].
    + cbn [map app flat_map split_lines].
      assert (E : sse_line parse [] = []) by reflexivity.
      now rewrite E.
    + rewrite map_app. cbn [map].
      change (Byte.to_N x0a) with LF.
      symmetry. now apply flat_map_split_lines_aligned.
Qed.

(** X14. [handleSSEResponse] is right when no read ends inside a line: if
    every read is ASCII and is empty or ends with a line feed, the calls
    are those of one read of the whole body, the loop body on each line of
    the body in order. (It decodes and splits each read on its own; a frame
    cut by a read is lost.) *)
Theorem sse_reader_agrees_on_line_aligned_reads
  (parse : JSString -> option JSValue) (reads : list (list byte)) :
  Forall (fun value => is_ascii value = true /\ line_aligned value = true)
    reads ->
  handleSSEResponse parse reads = handleSSEResponse parse [List.concat reads]
  /\ handleSSEResponse parse reads
     = flat_map (sse_line parse)
         (split_lines (map Byte.to_N (List.concat reads))).
Proof.
  intros H. destruct (sse_aligned_reads parse reads H) as (E & Ha).
  split; [exact E|]. rewrite E. unfold handleSSEResponse. cbn [flat_map].
  rewrite app_nil_r. unfold handleSSEResponse_read.
  now rewrite TextDecoder_decode_ascii.
Qed.

Lemma sse_reader_agrees_on_line_aligned_reads_witness :
  let complete := jsq "data: {'type':'complete','mode':'heartbeat'}" in
  let reads := [TextEncoder_encode (js "data: {}" ++ [LF; LF]);
                TextEncoder_encode (complete ++ [LF; LF])] in
  handleSSEResponse JSON_parse reads
  = handleSSEResponse JSON_parse [List.concat reads].
Proof.
  intros complete reads.
  apply (sse_reader_agrees_on_line_aligned_reads JSON_parse reads).
  repeat (constructor; [split; reflexivity|]). constructor.
Defined.

(** ** A whole session *)

Section Session.
Variable parse : JSString -> option JSValue.

Lemma run_app (c : Client) (a b : list Action) :
  run parse c (a ++ b) = run parse (run parse c a) b.
Proof. unfold run. apply fold_left_app. Qed.

Lemma apply_events_app (a b : list ClientEvent) (c : Client) :
  apply_events (a ++ b) c = apply_events b (apply_events a c).
Proof. unfold apply_events. apply fold_left_app. Qed.

(** The calls of the readers act on the shared state alone. *)
Lemma apply_events_shared (evs : list ClientEvent) :
  forall c1 c2,
  response (shared c1) = response (shared c2) ->
  progress (shared c1) = progress (shared c2) ->
  response (shared (apply_events evs c1)) = response (shared (apply_events evs c2))
  /\ progress (shared (apply_events evs c1))
     = progress (shared (apply_events evs c2)).
Proof.
  unfold apply_events. induction evs as [|e evs IH]; intros c1 c2 Hr Hp;
    [now split|].
  cbn [fold_left]. apply IH; destruct e; cbn; assumption || reflexivity.
Qed.

Lemma session_stream_reads (reads : list (list byte)) :
  forall st c, reading c (AwaitStreamRead st) ->
  let c' := run parse c
              (map (fun value => Settle (requestIdRef c)
                                   (ReadResolved false value)) reads) in
  (exists st', reading c' (AwaitStreamRead st'))
  /\ requestIdRef c' = requestIdRef c
  /\ abortControllerRef c' = abortControllerRef c
  /\ loading (shared c') = loading (shared c)
  /\ error (shared c') = error (shared c)
  /\ response (shared c')
     = response (shared (apply_events (handleStreamResponse_from parse st reads) c))
  /\ progress (shared c')
     = progress (shared (apply_events (handleStreamResponse_from parse st reads) c)).
Proof.
  induction reads as [|value rest IH]; intros st c Hc; cbv zeta.
  - cbn. repeat split; try reflexivity. now exists st.
  - destruct Hc as (m & Ht & Ha).
    cbn [map]. change (run parse c (?a :: ?l)) with (run parse (step parse c a) l).
    set (id := requestIdRef c) in *.
    assert (E : exists st' evs,
              handleStreamResponse_read parse st value = (st', evs)
              /\ step parse c (Settle id (ReadResolved false value))
                 = set_tasks [{| currentRequestId := id; task_mode := m;
                                 awaiting := AwaitStreamRead st' |}]
                     (apply_events evs c)).
    { cbn [step]. rewrite Ht. cbn [settle currentRequestId].
      rewrite Nat.eqb_refl. unfold resume, read_guard.
      cbn [awaiting currentRequestId task_mode].
      fold id. rewrite Nat.eqb_refl, Ha. cbn [negb orb].
      destruct (handleStreamResponse_read parse st value) as [st' evs].
      now exists st', evs. }
    destruct E as (st' & evs & Er & Es). rewrite Es.
    cbn [handleStreamResponse_from]. rewrite Er.
    set (c1 := set_tasks _ (apply_events evs c)).
    destruct (apply_events_fields evs c) as (F1 & F2 & F3 & _ & _ & F6 & F7).
    cbv zeta in F1, F2, F3, F6, F7.
    assert (Hid : requestIdRef c1 = id) by exact F1.
    assert (Hc1 : reading c1 (AwaitStreamRead st')).
    { exists m. split; [now rewrite Hid|].
      unfold signal_aborted in *. rewrite Hid.
      change (aborted c1) with (aborted (apply_events evs c)).
      now rewrite F3. }
    specialize (IH st' c1 Hc1). cbv zeta in IH. rewrite Hid in IH.
    destruct IH as (Hex & I1 & I2 & I3 & I4 & I5 & I6).
    split; [exact Hex|].
    split; [now rewrite I1|].
    split; [rewrite I2; exact F2|].
    split; [rewrite I3; exact F6|].
    split; [rewrite I4; exact F7|].
    rewrite I5, I6, apply_events_app.
    now apply apply_events_shared.
Qed.

Lemma session_sse_reads (reads : list (list byte)) :
  forall c, reading c AwaitSSERead ->
  let c' := run parse c
              (map (fun value => Settle (requestIdRef c)
                                   (ReadResolved false value)) reads) in
  reading c' AwaitSSERead
  /\ requestIdRef c' = requestIdRef c
  /\ abortControllerRef c' = abortControllerRef c
  /\ loading (shared c') = loading (shared c)
  /\ error (shared c') = error (shared c)
  /\ response (shared c')
     = response (shared (apply_events (handleSSEResponse parse reads) c))
  /\ progress (shared c')
     = progress (shared (apply_events (handleSSEResponse parse reads) c)).
Proof.
  induction reads as [|value rest IH]; intros c Hc; cbv zeta.
  - cbn. now repeat split.
  - destruct Hc as (m & Ht & Ha).
    cbn [map]. change (run parse c (?a :: ?l)) with (run parse (step parse c a) l).
    set (id := requestIdRef c) in *.
    set (evs := handleSSEResponse_read parse value).
    assert (Es : step parse c (Settle id (ReadResolved false value))
                 = set_tasks [{| currentRequestId := id; task_mode := m;
                                 awaiting := AwaitSSERead |}]
                     (apply_events evs c)).
    { cbn [step]. rewrite Ht. cbn [settle currentRequestId].
      rewrite Nat.eqb_refl. unfold resume, read_guard.
      cbn [awaiting currentRequestId task_mode].
      fold id. rewrite Nat.eqb_refl, Ha. cbn [negb orb]. reflexivity. }
    rewrite Es.
    unfold handleSSEResponse. cbn [flat_map]. fold evs.
    fold (handleSSEResponse parse rest).
    set (c1 := set_tasks _ (apply_events evs c)).
    destruct (apply_events_fields evs c) as (F1 & F2 & F3 & _ & _ & F6 & F7).
    cbv zeta in F1, F2, F3, F6, F7.
    assert (Hid : requestIdRef c1 = id) by exact F1.
    assert (Hc1 : reading c1 AwaitSSERead).
    { exists m. split; [now rewrite Hid|].
      unfold signal_aborted in *. rewrite Hid.
      change (aborted c1) with (aborted (apply_events evs c)).
      now rewrite F3. }
    specialize (IH c1 Hc1). cbv zeta in IH. rewrite Hid in IH.
    destruct IH as (Hex & I1 & I2 & I3 & I4 & I5 & I6).
    split; [exact Hex|].
    split; [now rewrite I1|].
    split; [rewrite I2; exact F2|].
    split; [rewrite I3; exact F6|].
    split; [rewrite I4; exact F7|].
    rewrite I5, I6, apply_events_app.
    now apply apply_events_shared.
Qed.

(** The last read, [done], ends the request. *)
Lemma session_done (c : Client) (a : Await) :
  reading c a -> a <> AwaitFetch -> a <> AwaitJson ->
  let c' := step parse c (Settle (requestIdRef c) (ReadResolved true [])) in
  tasks c' = [] /\ abortControllerRef c' = None
  /\ shared c' = {| loading := false; response := response (shared c);
                    error := error (shared c);
                    progress := progress (shared c) |}.
Proof.
  intros (m & Ht & Ha) Hf Hj. cbv zeta. cbn [step]. rewrite Ht.
  cbn [settle currentRequestId]. rewrite Nat.eqb_refl.
  unfold resume, read_guard. cbn [awaiting currentRequestId task_mode orb].
  destruct a; try contradiction; cbn [set_tasks tasks];
    unfold handleApiCall_finally; rewrite Nat.eqb_refl; now repeat split.
Qed.
End Session.

(** X15. A session nothing disturbs: the user selects a streaming mode and
    calls the API, the fetch resolves with status 200 and a body, and the
    body is read to its end. Then the request is over ([loading] false, the
    controller released, nothing in flight), there is no error, and
    response and progress are what the calls of the mode's reader, NDJSON
    for stream and chunked and SSE for heartbeat, leave of the initial
    [null] and 0. *)
Theorem undisturbed_session_result
  (parse : JSString -> option JSValue) (m : ApiMode)
  (reads : list (list byte)) :
  m <> signal ->
  let c := run parse Client_initial (undisturbed_session m reads) in
  shared c = shared (apply_events (reader_of parse m reads) Client_initial)
  /\ loading (shared c) = false /\ error (shared c) = None
  /\ tasks c = [] /\ abortControllerRef c = None /\ requestIdRef c = 1%nat.
Proof.
  intros Hm. cbv zeta. unfold undisturbed_session.
  rewrite run_app, run_app.
  set (c0 := run parse Client_initial
               [SetMode m; Click; Settle 1 (FetchResolved 200 true)]).
  set (acts := map _ reads).
  change (run parse (run parse c0 acts) [?a])
    with (step parse (run parse c0 acts) a).
  assert (Hsh : shared c0 = {| loading := true; response := None;
                               error := None;
                               progress := JNumber (num_of_Z 0) |}
                /\ requestIdRef c0 = 1%nat /\ abortControllerRef c0 = Some 1%nat)
    by (now destruct m).
  destruct Hsh as (Hsh & Hid & Href).
  assert (Hrun : let c' := run parse c0 acts in
            (exists a, reading c' a /\ a <> AwaitFetch /\ a <> AwaitJson)
            /\ requestIdRef c' = 1%nat
            /\ loading (shared c') = true /\ error (shared c') = None
            /\ response (shared c')
               = response (shared (apply_events (reader_of parse m reads) c0))
            /\ progress (shared c')
               = progress (shared (apply_events (reader_of parse m reads) c0))).
  { cbv zeta. destruct m; [contradiction| | |].
    - assert (Hc0 : reading c0 (AwaitStreamRead NDJSON_initial))
        by (exists stream; now split).
      destruct (session_stream_reads parse reads NDJSON_initial c0 Hc0)
        as ((st' & H0) & H1 & _ & H3 & H4 & H5 & H6).
      rewrite Hid in *. fold acts in H0, H1, H3, H4, H5, H6.
      rewrite Hsh in H3, H4.
      split; [exists (AwaitStreamRead st'); now repeat split|].
      now repeat split.
    - assert (Hc0 : reading c0 AwaitSSERead) by (exists heartbeat; now split).
      destruct (session_sse_reads parse reads c0 Hc0)
        as (H0 & H1 & _ & H3 & H4 & H5 & H6).
      rewrite Hid in *. fold acts in H0, H1, H3, H4, H5, H6.
      rewrite Hsh in H3, H4.
      split; [exists AwaitSSERead; now repeat split|].
      now repeat split.
    - assert (Hc0 : reading c0 (AwaitStreamRead NDJSON_initial))
        by (exists chunked; now split).
      destruct (session_stream_reads parse reads NDJSON_initial c0 Hc0)
        as ((st' & H0) & H1 & _ & H3 & H4 & H5 & H6).
      rewrite Hid in *. fold acts in H0, H1, H3, H4, H5, H6.
      rewrite Hsh in H3, H4.
      split; [exists (AwaitStreamRead st'); now repeat split|].
      now repeat split. }
  cbv zeta in Hrun. set (c' := run parse c0 acts) in *.
  destruct Hrun as ((a & Hrd & Hf & Hj) & Hid' & Hl & He & Hr & Hp).
  destruct (session_done parse c' a Hrd Hf Hj) as (Ht & Hab & Hs).
  rewrite Hid' in *.
  set (evs := reader_of parse m reads) in *.
  destruct (apply_events_shared evs c0 Client_initial) as (Hr0 & Hp0);
    [now rewrite Hsh|now rewrite Hsh|].
  destruct (apply_events_fields evs Client_initial)
    as (_ & _ & _ & _ & _ & Hl0 & He0). cbv zeta in Hl0, He0.
  repeat split.
  - rewrite Hs, He, Hr, Hp, Hr0, Hp0.
    destruct (shared (apply_events evs Client_initial)) as [l r e p].
    cbn in *. now subst.
  - now rewrite Hs.
  - now rewrite Hs.
  - exact Ht.
  - exact Hab.
  - unfold step. cbn [requestIdRef].
    destruct (settle_requestIdRef parse 1 (ReadResolved true []) (tasks c') c'
                (requestIdRef c')) as (Hq & _).
    { destruct Hrd as (m' & Ht' & _). rewrite Ht'.
      constructor; [cbn; lia|constructor]. }
    destruct (settle parse 1 (ReadResolved true []) (tasks c') c') as [c2 ts].
    cbn [fst set_tasks requestIdRef] in *. now rewrite Hq.
Qed.

Lemma undisturbed_session_result_witness :
  let reads := [TextEncoder_encode (jsq "{'type':'progress','progress':40}");
                TextEncoder_encode
                  ([LF] ++ jsq "{'status':'complete'}" ++ [LF])] in
  let c := run JSON_parse Client_initial (undisturbed_session stream reads) in
  shared c
  = {| loading := false;
       response := Some (JObject [(js "status", JString (js "complete"))]);
       error := None;
       progress := JNumber (num_of_Z 40) |}.
Proof.
  intros reads c.
  assert (Hm : stream <> signal) by discriminate.
  destruct (undisturbed_session_result JSON_parse stream reads Hm) as (H & _).
  exact H.
Defined.

(** X16. When the JSON body of the request shown as loading arrives (signal
    mode), it becomes the response and the request is over: [loading] is
    false and the controller is released, error and progress stay as they
    are. *)
Theorem json_body_becomes_the_response
  (parse : JSString -> option JSValue) (acts : list Action)
  (t : Task) (data : JSValue) :
  let c := run parse Client_initial acts in
  loading (shared c) = true ->
  In t (tasks c) -> currentRequestId t = requestIdRef c ->
  awaiting t = AwaitJson ->
  let c' := step parse c (Settle (requestIdRef c) (JsonResolved data)) in
  shared c' = {| loading := false; response := Some data;
                 error := error (shared c);
                 progress := progress (shared c) |}
  /\ abortControllerRef c' = None.
Proof.
  cbv zeta. intros El Hin Hid Haw.
  destruct (run_inv parse acts Client_initial client_inv_initial)
    as (Hnd & _ & _ & Href & Hload & _ & _).
  set (c := run parse Client_initial acts) in *.
  destruct (abortControllerRef c) as [k|] eqn:Er;
    [|now destruct (proj1 Hload El)].
  destruct (Href k eq_refl) as (-> & Hna).
  cbn [step].
  pose proof (settle_task parse t (JsonResolved data) (tasks c) c Hnd Hin) as Hs.
  rewrite Hid in Hs.
  destruct (settle parse (requestIdRef c) (JsonResolved data) (tasks c) c)
    as [c' ts]. cbn [fst] in Hs. subst c'.
  unfold resume. cbv zeta. rewrite Haw, Hid, Nat.eqb_refl, Hna.
  cbn [negb andb fst].
  apply (finally_current (setResponse (Some data) c)).
Qed.

Lemma json_body_becomes_the_response_witness :
  let parse := JSON_parse in
  let data := JObject [(js "mode", JString (js "signal"))] in
  let c := run parse Client_initial [Click; Settle 1 (FetchResolved 200 true)] in
  let t := {| currentRequestId := 1; task_mode := signal;
              awaiting := AwaitJson |} in
  In t (tasks c)
  /\ response (shared (step parse c (Settle 1 (JsonResolved data)))) = Some data
  /\ loading (shared (step parse c (Settle 1 (JsonResolved data)))) = false.
Proof.
  intros parse data c t.
  assert (Hin : In t (tasks c)) by (left; reflexivity).
  split; [exact Hin|].
  destruct (json_body_becomes_the_response parse
              [Click; Settle 1 (FetchResolved 200 true)] t data
              eq_refl Hin eq_refl eq_refl) as (Hs & _).
  split; [exact (f_equal response Hs)|exact (f_equal loading Hs)].
Defined.

(** ** Exceptions that leave the heartbeat handler *)

Lemma hb_benign_step (env : Env) (d : number) (s : HBState) (e : HBEvent) :
  benign e = true ->
  uncaught s = false ->
  (timer_registered s = true -> hb_stream s = Readable) ->
  (delay_pending s = true -> hb_stream s = Readable) ->
  heartbeatInterval s = timer_registered s ->
  let s' := hb_step env d s e in
  uncaught s' = false
  /\ (timer_registered s' = true -> hb_stream s' = Readable)
  /\ (delay_pending s' = true -> hb_stream s' = Readable)
  /\ heartbeatInterval s' = timer_registered s'.
Proof.
  intros Hb Hu Ht Hp Hi. cbv zeta.
  destruct e as [| |[| |]]; try discriminate Hb; cbn [hb_step].
  - destruct (timer_registered s) eqn:Et; [|repeat split; intros; auto; try discriminate; congruence].
    unfold hb_enqueue. cbn [hb_tick_clock hb_stream]. rewrite (Ht eq_refl).
    cbn. repeat split; intros; auto; try discriminate; congruence.
  - destruct (delay_pending s) eqn:Ed; [|repeat split; intros; auto; try discriminate; congruence].
    unfold hb_clear, hb_enqueue. rewrite Hi.
    destruct (timer_registered s) eqn:Et; cbn; rewrite (Hp eq_refl); cbn;
      repeat split; intros; auto; try discriminate; congruence.
  - destruct (delay_pending s) eqn:Ed; [|repeat split; intros; auto; try discriminate; congruence].
    unfold hb_catch, hb_clear. rewrite Hi.
    destruct (timer_registered s) eqn:Et; cbn; rewrite (Hp eq_refl); cbn;
      repeat split; intros; auto; try discriminate; congruence.
Qed.

Lemma hb_benign_run (env : Env) (d : number) (evs : list HBEvent) :
  forall s, forallb benign evs = true ->
  uncaught s = false ->
  (timer_registered s = true -> hb_stream s = Readable) ->
  (delay_pending s = true -> hb_stream s = Readable) ->
  heartbeatInterval s = timer_registered s ->
  let s' := fold_left (hb_step env d) evs s in
  uncaught s' = false
  /\ (delay_pending s' = true -> hb_stream s' = Readable)
  /\ heartbeatInterval s' = timer_registered s'.
Proof.
  induction evs as [|e evs IH]; intros s Hb Hu Ht Hp Hi; [now repeat split|].
  cbn [forallb] in Hb. apply andb_prop in Hb as (He & Hb).
  cbn [fold_left].
  destruct (hb_benign_step env d s e He Hu Ht Hp Hi) as (Hu' & Ht' & Hp' & Hi').
  now apply IH.
Qed.

(** X17. An exception leaves the heartbeat handler only where it calls
    [controller.close()] on a stream that is no longer readable. While the
    peer does not cancel the stream and the main delay does not fail with
    an error other than [AbortError], no callback throws, whatever the
    order of ticks and settlements. When the main delay does fail with
    such an error, the [catch] block always throws: its
    [controller.close()] follows [controller.error(error)]. *)
Theorem heartbeat_throws_only_on_a_dead_stream
  (env : Env) (d : number) (evs : list HBEvent) :
  forallb benign evs = true ->
  uncaught (hb_run env d evs) = false
  /\ (delay_pending (hb_run env d evs) = true ->
      let s' := hb_step env d (hb_run env d evs) (DelaySettles OtherError) in
      uncaught s' = true /\ hb_end s' = ErroredEnd
      /\ hb_stream s' = StreamErrored
      /\ hb_queue s' = hb_queue (hb_run env d evs)).
Proof.
  intros Hb. unfold hb_run.
  destruct (hb_benign_run env d evs (hb_init env) Hb eq_refl
              (fun _ => eq_refl) (fun _ => eq_refl) eq_refl) as (Hu & Hp & Hi).
  cbv zeta in *.
  set (s := fold_left (hb_step env d) evs (hb_init env)) in *.
  split; [exact Hu|].
  intros Ed. cbn [hb_step]. rewrite Ed.
  unfold hb_catch, hb_clear. rewrite Hi.
  destruct (timer_registered s) eqn:Et; cbn; rewrite (Hp Ed); now repeat split.
Qed.

Lemma heartbeat_throws_only_on_a_dead_stream_witness :
  let env := aborting 0 in
  uncaught (hb_run env (num_of_Z 3000) [Tick; Tick; DelaySettles AbortError])
  = false
  /\ uncaught (hb_run env (num_of_Z 3000) [Tick; DelaySettles OtherError])
     = true.
Proof.
  intros env. split.
  - exact (proj1 (heartbeat_throws_only_on_a_dead_stream env (num_of_Z 3000)
                    [Tick; Tick; DelaySettles AbortError] eq_refl)).
  - exact (proj1 (proj2 (heartbeat_throws_only_on_a_dead_stream env
                           (num_of_Z 3000) [Tick] eq_refl) eq_refl)).
Defined.
